(** * d3plus-hierarchy: the treemap threshold algorithm

    A shallow embedding of [src/Treemap.js]: the method
    [_thresholdFunction] with its inner recursive function
    [thresholdByDepth], the accessor method [sum] and the part of the
    constructor that initialises the two weight accessors; then the
    comparator [_sort] with [isAggregated] and the label [ariaLabel] of the
    constructor, and of [_draw] the function [extractLayout] and the
    callbacks [labelBounds], [textAnchor] and [verticalAlign].

    JavaScript numbers are IEEE 754 binary64 values and are modelled by Rocq's
    primitive floats.  Records and arrays are objects with identity: they live
    in a heap of cells addressed by references, and the code runs in a state
    monad over that heap in which a [TypeError] is the failure [None].  The
    functions the file imports ([sum] of d3-array, [merge] and [accessor] of
    d3plus-common) are parameters of the embedding; the functions the caller
    configures (the accessors of [groupBy], [threshold], [thresholdKey]) are
    pure functions of the records they are applied to. *)

From Stdlib Require Import Floats ZArith.
From stdpp Require Import base option list gmap strings.

Set Warnings "-register-all".

(** ** JavaScript numbers *)

Module Number.

Local Open Scope float_scope.

(** [Math.max(a, b)]: NaN if either argument is NaN; [+0] is larger
    than [-0]. *)
Definition Math_max (a b : float) : float :=
  if is_nan a || is_nan b then nan
  else if a <? b then b
  else if b <? a then a
  else match classify a with NZero => b | _ => a end.

(** [Math.min(a, b)]: NaN if either argument is NaN; [-0] is smaller
    than [+0]. *)
Definition Math_min (a b : float) : float :=
  if is_nan a || is_nan b then nan
  else if a <? b then a
  else if b <? a then b
  else match classify a with PZero => b | _ => a end.

(** The global functions [isFinite] and [isNaN] on a number. *)
Definition isFinite (x : float) : bool := is_finite x.
Definition isNaN (x : float) : bool := is_nan x.

End Number.

Import Number.

(** ** Values, objects and the heap *)

(** References to heap cells. *)
Abbreviation loc := nat (only parsing).

(** The values a record field or a group key can hold. *)
Inductive value : Type :=
  | VUndefined
  | VNull
  | VBool (b : bool)
  | VNum (x : float)
  | VStr (s : string)
  | VRef (l : loc).

(** [a === b]. Numbers compare as IEEE values ([NaN] differs from itself,
    the two zeros are equal), strings by content, objects by reference. *)
Definition strict_eq (a b : value) : bool :=
  match a, b with
  | VUndefined, VUndefined => true
  | VNull, VNull => true
  | VBool x, VBool y => bool_decide (x = y)
  | VNum x, VNum y => (x =? y)%float
  | VStr x, VStr y => bool_decide (x = y)
  | VRef x, VRef y => bool_decide (x = y)
  | _, _ => false
  end.

(** A record is a plain object: a finite map from field names to values. *)
Abbreviation obj := (gmap string value) (only parsing).

(** A heap cell is a record or an array of records (an array holds the
    references of its elements, never copies of them). *)
Inductive cell : Type :=
  | CObj (o : obj)
  | CArr (a : list loc).

Abbreviation heap := (gmap loc cell) (only parsing).

(** ** The heap monad *)

(** A computation reads and updates the heap; [None] is an uncaught
    [TypeError]. *)
Definition M (A : Type) : Type := heap → option (A * heap).

#[global] Instance M_ret : MRet M := λ A x h, Some (x, h).
#[global] Instance M_bind : MBind M := λ A B k m h,
  match m h with
  | Some (x, h') => k x h'
  | None => None
  end.

Definition throw {A} : M A := λ _, None.

Definition read_arr (r : loc) : M (list loc) := λ h,
  match h !! r with
  | Some (CArr a) => Some (a, h)
  | _ => None
  end.

Definition read_obj (r : loc) : M obj := λ h,
  match h !! r with
  | Some (CObj o) => Some (o, h)
  | _ => None
  end.

Definition write (r : loc) (c : cell) : M unit := λ h, Some (tt, <[r := c]> h).

(** A new object or array gets a reference no live cell has. *)
Definition alloc (c : cell) : M loc := λ h,
  let l := fresh (dom h) in Some (l, <[l := c]> h).

(** [mapM], for reading the records an array refers to. *)
Fixpoint mapM {A B} (f : A → M B) (xs : list A) : M (list B) :=
  match xs return M (list B) with
  | [] => mret []
  | x :: xs' => y ← f x; ys ← mapM f xs'; mret (y :: ys)
  end.

Fixpoint filterM {A} (p : A → M bool) (xs : list A) : M (list A) :=
  match xs return M (list A) with
  | [] => mret []
  | x :: xs' =>
      b ← p x; ys ← filterM p xs'; mret (if (b : bool) then x :: ys else ys)
  end.

(** [let n = xs.length; while (n--) { body(xs[n]) }]: the loop visits the
    elements from the last to the first and threads the loop state [S]. *)
Definition while_rev {A S} (body : A → S → M S) : list A → S → M S :=
  fix go xs s :=
    match xs return M S with
    | [] => mret s
    | x :: xs' => s' ← go xs' s; body x s'
    end.

(** ** Array methods *)

(** [a.indexOf(x)] on the elements: the first index holding the very
    reference [x], or [-1]. *)
Fixpoint indexOf_from (i : Z) (x : loc) (a : list loc) : Z :=
  match a with
  | [] => (-1)%Z
  | y :: a' => if bool_decide (y = x) then i else indexOf_from (i + 1)%Z x a'
  end.

Definition indexOf (x : loc) (a : list loc) : Z := indexOf_from 0%Z x a.

(** [a.splice(start, deleteCount)] on the elements: a negative [start]
    counts from the end. *)
Definition splice (start : Z) (deleteCount : nat) (a : list loc) : list loc :=
  let len := Z.of_nat (length a) in
  let s := Z.to_nat (if (start <? 0)%Z then Z.max (len + start) 0
                     else Z.min start len) in
  take s a ++ drop (s + deleteCount) a.

Definition Array_slice (r : loc) : M loc :=
  a ← read_arr r; alloc (CArr a).

Definition Array_filter (p : loc → M bool) (r : loc) : M loc :=
  a ← read_arr r; b ← filterM p a; alloc (CArr b).

Definition Array_indexOf (r : loc) (x : loc) : M Z :=
  a ← read_arr r; mret (indexOf x a).

Definition Array_splice (r : loc) (start : Z) (deleteCount : nat) : M unit :=
  a ← read_arr r; write r (CArr (splice start deleteCount a)).

Definition Array_push (r : loc) (x : loc) : M unit :=
  a ← read_arr r; write r (CArr (a ++ [x])).

(** [o[k] = v] on a record. *)
Definition set_field (r : loc) (k : string) (v : value) : M unit :=
  o ← read_obj r; write r (CObj (<[k := v]> o)).

(** The records an array refers to, in order. *)
Definition read_records (r : loc) : M (list obj) :=
  a ← read_arr r; mapM read_obj a.

(** ** The grouped tree *)

(** A branch of the nested data: its group key and its child branches. *)
Inductive branch : Type :=
  | Branch (key : value) (values : list branch).

Definition key (b : branch) : value := let (k, _) := b in k.
Definition values (b : branch) : list branch := let (_, vs) := b in vs.

(** ** The Treemap object *)

(** Accessors and threshold functions are pure functions of the records
    they are given, and answer a number. *)
Abbreviation accessorT := (obj → float) (only parsing).
Abbreviation aggsT := (gmap string (list value → value)) (only parsing).

(** The fields of [this] the threshold code and [sum] read or write. *)
Record Treemap : Type := mkTreemap {
  _aggs : aggsT;
  _drawDepth : nat;
  _groupBy : list (obj → value);
  _threshold : option (list obj → float);
  _thresholdKey : option accessorT;
  _sum : accessorT
}.

(** Calling [f(item)]: a [TypeError] when [f] is [undefined]. *)
Definition call {A} (f : option (obj → A)) (item : loc) : M A :=
  match f with
  | Some f => o ← read_obj item; mret (f o)
  | None => throw
  end.

Section thresholdFunction.

(** The imported functions: [sum] of d3-array and [merge] of
    d3plus-common. *)
Variable array_sum : list obj → accessorT → float.
Variable merge : list obj → aggsT → obj.

Section closure.

(** What [thresholdByDepth] captures from [_thresholdFunction]. *)
Variable aggs : aggsT.
Variable drawDepth : nat.
Variable groupBy : list (obj → value).
Variable threshold : list obj → float.
Variable thresholdKey : accessorT.

(** The body of the [while (n--)] loop over [nextDataset]. *)
Definition remove_below (finalDataset : loc) (thresholdValue : float)
    (item : loc) (removedItems : list loc) : M (list loc) :=
  w ← call (Some thresholdKey) item;
  if (w <? thresholdValue)%float then
    index ← Array_indexOf finalDataset item;
    _ ← Array_splice finalDataset index 1;
    mret (removedItems ++ [item])
  else mret removedItems.

(** The leaf-adjacent case, after [nextDataset] has been computed. *)
Definition aggregate_branch (finalDataset : loc) (totalSum : float)
    (nextDataset : loc) : M unit :=
  next ← read_records nextDataset;
  let thresholdPercent := Math_min 1 (Math_max 0 (threshold next)) in
  if negb (isFinite thresholdPercent) || isNaN thresholdPercent
  then (mret tt : M unit)
  else
    let thresholdValue := (thresholdPercent * totalSum)%float in
    items ← read_arr nextDataset;
    removedItems ←
      while_rev (remove_below finalDataset thresholdValue) items [];
    if (0 <? length removedItems) then
      removed ← mapM read_obj removedItems;
      mergedItem ← alloc (CObj (merge removed aggs));
      _ ← set_field mergedItem "_isAggregation" (VBool true);
      _ ← set_field mergedItem "_threshold" (VNum thresholdPercent);
      Array_push finalDataset mergedItem
    else (mret tt : M unit).

Fixpoint thresholdByDepth (finalDataset : loc) (totalSum : float)
    (currentDataset : loc) (b : branch) (depth : nat) {struct b}
    : M unit :=
  if (drawDepth <=? depth) then (mret tt : M unit)
  else
    let currentAccesor := groupBy !! depth in
    nextDataset ←
      Array_filter
        (λ item, k ← call currentAccesor item; mret (strict_eq k (key b)))
        currentDataset;
    if (depth + 1 =? drawDepth) then
      aggregate_branch finalDataset totalSum nextDataset
    else
      match b with
      | Branch _ leaves =>
          while_rev
            (λ leaf _,
               thresholdByDepth finalDataset totalSum nextDataset leaf
                 (depth + 1))
            leaves tt
      end.

End closure.

Definition _thresholdFunction (this : Treemap) (data : loc)
    (tree : list branch) : M loc :=
  match _threshold this, _thresholdKey this with
  | Some threshold, Some thresholdKey =>
      finalDataset ← Array_slice data;
      final ← read_records finalDataset;
      let totalSum := array_sum final thresholdKey in
      _ ← while_rev
            (λ b _,
               thresholdByDepth (_aggs this) (_drawDepth this)
                 (_groupBy this) threshold thresholdKey
                 finalDataset totalSum data b 0)
            tree tt;
      mret finalDataset
  | _, _ => mret data
  end.

End thresholdFunction.

(** ** The method [sum] and the constructor *)

(** The argument of [sum(_)]: a function, or any other value, which
    [accessor] of d3plus-common turns into a function. *)
Inductive sum_arg : Type :=
  | ArgFunction (f : accessorT)
  | ArgValue (v : value).

(** What a call of [sum] returns: [this], or the current accessor. *)
Inductive sum_result : Type :=
  | ReturnsThis
  | ReturnsAccessor (f : accessorT).

Section accessors.

(** [accessor] of d3plus-common. *)
Variable accessor : value → accessorT.

(** [sum(_)]: with an argument, the setter; without one, the getter.
    The pair is the object after the call and the value returned. *)
Definition sum (arguments : list sum_arg) (this : Treemap)
    : Treemap * sum_result :=
  match arguments with
  | a :: _ =>
      let f := match a with ArgFunction f => f | ArgValue v => accessor v end in
      let this1 :=
        {| _aggs := _aggs this; _drawDepth := _drawDepth this;
           _groupBy := _groupBy this; _threshold := _threshold this;
           _thresholdKey := _thresholdKey this; _sum := f |} in
      let this2 :=
        {| _aggs := _aggs this1; _drawDepth := _drawDepth this1;
           _groupBy := _groupBy this1; _threshold := _threshold this1;
           _thresholdKey := Some (_sum this1); _sum := _sum this1 |} in
      (this2, ReturnsThis)
  | [] => (this, ReturnsAccessor (_sum this))
  end.

(** The two assignments of the constructor to the weight accessors; the
    argument is the object as [super()] leaves it. *)
Definition constructor (super : Treemap) : Treemap :=
  let this1 :=
    {| _aggs := _aggs super; _drawDepth := _drawDepth super;
       _groupBy := _groupBy super; _threshold := _threshold super;
       _thresholdKey := _thresholdKey super;
       _sum := accessor (VStr "value") |} in
  {| _aggs := _aggs this1; _drawDepth := _drawDepth this1;
     _groupBy := _groupBy this1; _threshold := _threshold this1;
     _thresholdKey := Some (_sum this1); _sum := _sum this1 |}.

(** A sequence of calls of [sum], each with its arguments. *)
Definition sum_calls (calls : list (list sum_arg)) (this : Treemap)
    : Treemap :=
  foldl (λ t arguments, (sum arguments t).1) this calls.

End accessors.

(** ** Views of the heap used in the statements *)

(** [x] refers to a record. *)
Definition is_record (h : heap) (x : loc) : Prop :=
  ∃ o, h !! x = Some (CObj o).

(** The record [x] refers to. *)
Definition record_of (h : heap) (x : loc) : obj :=
  match h !! x with
  | Some (CObj o) => o
  | _ => ∅
  end.

(** [thresholdPercent] as a function of the threshold function's result. *)
Definition clamp (p : float) : float := Math_min 1 (Math_max 0 p).

(** The test of the filter that computes [nextDataset]. *)
Definition matches (h : heap) (acc : obj → value) (k : value) (x : loc)
    : bool :=
  strict_eq (acc (record_of h x)) k.

(** The test [thresholdKey(item) < thresholdValue]. *)
Definition below (thresholdKey : accessorT) (h : heap) (tv : float)
    (x : loc) : bool :=
  (thresholdKey (record_of h x) <? tv)%float.

(** [finalDataset.splice(finalDataset.indexOf(item), 1)] on the elements. *)
Definition remove_item (x : loc) (a : list loc) : list loc :=
  splice (indexOf x a) 1 a.

(** The elements of [finalDataset] and the array [removedItems] after the
    loop over [nextDataset]. *)
Definition kept_after (thresholdKey : accessorT) (h : heap) (tv : float)
    (items fs : list loc) : list loc :=
  foldr (λ x a, if below thresholdKey h tv x then remove_item x a else a)
    fs items.

Definition removed_of (thresholdKey : accessorT) (h : heap) (tv : float)
    (items : list loc) : list loc :=
  reverse (filter (λ x, below thresholdKey h tv x = true) items).

(** The two fields stamped on a merged record. *)
Definition stamp (tp : float) (o : obj) : obj :=
  <["_threshold" := VNum tp]> (<["_isAggregation" := VBool true]> o).

(** The heap a leaf-adjacent branch leaves, given the elements [fs] of
    [finalDataset] and [items] of [nextDataset] before it. *)
Definition aggregate_heap (merge : list obj → aggsT → obj) (aggs : aggsT)
    (threshold : list obj → float) (thresholdKey : accessorT)
    (h : heap) (fin : loc) (fs items : list loc) (total : float) : heap :=
  let tp := clamp (threshold (record_of h <$> items)) in
  if is_nan tp then h
  else
    let tv := (tp * total)%float in
    match removed_of thresholdKey h tv items with
    | [] => h
    | removed =>
        let m := fresh (dom h) in
        <[fin := CArr (kept_after thresholdKey h tv items fs ++ [m])]>
          (<[m := CObj (stamp tp (merge (record_of h <$> removed) aggs))]> h)
    end.

(** No record of [cs] is below any threshold value the code can compute
    from the total [total]. *)
Definition never_below (thresholdKey : accessorT) (h : heap) (total : float)
    (cs : list loc) : Prop :=
  ∀ x p, x ∈ cs → is_nan p = false →
    below thresholdKey h (clamp p * total)%float x = false.

(** ** The tree of a nested dataset *)

(** In the tree [nest] builds, the branches under one parent have keys
    that differ, at every level. *)
Inductive distinct_keys : list branch → Prop :=
  | distinct_keys_nil : distinct_keys []
  | distinct_keys_cons k leaves bs :
      Forall (λ b, strict_eq k (key b) = false) bs →
      distinct_keys leaves → distinct_keys bs →
      distinct_keys (Branch k leaves :: bs).

(** The record [x] is one that the walk over the branch [b] removes: it is
    in the [nextDataset] of a leaf-adjacent branch under [b] whose threshold
    is a number, and its weight is below the threshold value.  All of it is
    read in the heap [h] of the call. *)
Fixpoint removed_in (drawDepth : nat) (groupBy : list (obj → value))
    (threshold : list obj → float) (thresholdKey : accessorT)
    (h : heap) (total : float) (cs : list loc) (b : branch) (depth : nat)
    (x : loc) {struct b} : bool :=
  if drawDepth <=? depth then false
  else
    match groupBy !! depth with
    | None => false
    | Some acc =>
        let items := filter (λ y, matches h acc (key b) y = true) cs in
        if depth + 1 =? drawDepth then
          let p := threshold (record_of h <$> items) in
          negb (is_nan p) && bool_decide (x ∈ items)
          && below thresholdKey h (clamp p * total)%float x
        else
          match b with
          | Branch _ leaves =>
              existsb
                (λ leaf,
                   removed_in drawDepth groupBy threshold thresholdKey
                     h total items leaf (depth + 1) x)
                leaves
          end
    end.

(** The walk that starts on the sibling branches [forest] at [depth] with
    the elements [cs] of [currentDataset] reaches the branch [b] at
    [depth'] with the elements [cs'] of [currentDataset]: [b] is one of the
    siblings, or it is reached from the children of one of them, with the
    [nextDataset] of that branch. *)
Inductive reaches (drawDepth : nat) (groupBy : list (obj → value))
    (h : heap) :
    list branch → list loc → nat → branch → list loc → nat → Prop :=
  | reaches_here forest cs depth b :
      b ∈ forest → depth < drawDepth →
      reaches drawDepth groupBy h forest cs depth b cs depth
  | reaches_child forest cs depth k leaves acc b cs' depth' :
      Branch k leaves ∈ forest → depth + 1 < drawDepth →
      groupBy !! depth = Some acc →
      reaches drawDepth groupBy h leaves
        (filter (λ x, matches h acc k x = true) cs) (depth + 1)
        b cs' depth' →
      reaches drawDepth groupBy h forest cs depth b cs' depth'.

(** ** The imported functions and the scenarios of the specification *)

(** Modelled from the spec: [sum] of d3-array is imported and its code is
    not in the repository.  The specification has [totalSum] as the sum of
    [thresholdKey(record)] over the input data; the model adds the values
    up from zero in the order of the array. *)
Definition d3_sum (os : list obj) (valueof : accessorT) : float :=
  foldl (λ s o, (s + valueof o)%float) 0%float os.

(** The numbers among the values of a field, when they all are numbers. *)
Fixpoint numbers (vs : list value) : option (list float) :=
  match vs with
  | [] => Some []
  | VNum x :: vs' => cons x <$> numbers vs'
  | _ => None
  end.

(** Modelled from the spec: [merge] of d3plus-common is imported and its
    code is not in the repository.  The specification has it combine the
    field values of the merged records by the configuration [aggs] and,
    without one, sum numeric fields; it leaves every other field open, and
    the model leaves such a field out of the merged record. *)
Definition merge_model (os : list obj) (aggs : aggsT) : obj :=
  let keys := elements (⋃ (dom <$> os) : gset string) in
  list_to_map
    (omap
       (λ k,
          let vs := (λ o : obj, default VUndefined (o !! k)) <$> os in
          match aggs !! k with
          | Some f => Some (k, f vs)
          | None =>
              (λ xs, (k, VNum (foldl PrimFloat.add 0%float xs)))
                <$> numbers vs
          end)
       keys).

(** The accessors [r => r.k] and [r => r.v]. *)
Definition field (k : string) (o : obj) : value := default VUndefined (o !! k).

Definition number_field (k : string) (o : obj) : float :=
  match o !! k with
  | Some (VNum x) => x
  | _ => nan
  end.

(** The record [{k: k, v: v}]. *)
Definition record_kv (k : string) (v : float) : obj :=
  <["k" := VStr k]> {["v" := VNum v]}.

(** Scenario 1: the array [data] at reference 0 with its three records,
    the tree of the two groups and the configuration. *)
Definition scenario_heap : heap :=
  <[0 := CArr [1; 2; 3]]>
    (<[1 := CObj (record_kv "a" 10)]>
       (<[2 := CObj (record_kv "a" 1)]>
          (<[3 := CObj (record_kv "b" 50)]> ∅))).

Definition scenario_tree : list branch :=
  [Branch (VStr "a") []; Branch (VStr "b") []].

Definition scenario_this (threshold : option (list obj → float)) : Treemap :=
  {| _aggs := ∅; _drawDepth := 1; _groupBy := [field "k"];
     _threshold := threshold; _thresholdKey := Some (number_field "v");
     _sum := number_field "v" |}.

(** Two records with the same fields, and an array that holds both. *)
Definition twins_heap : heap :=
  <[0 := CArr [1; 2]]>
    (<[1 := CObj (record_kv "a" 1)]> (<[2 := CObj (record_kv "a" 1)]> ∅)).

(** An array of two records of weight zero. *)
Definition zero_heap : heap :=
  <[0 := CArr [1; 2]]>
    (<[1 := CObj (record_kv "a" 0)]> (<[2 := CObj (record_kv "b" 0)]> ∅)).

(** The heap of scenario 1 after [data.slice()]: [finalDataset] is the
    array at reference 4. *)
Definition scenario_copied : heap := <[4 := CArr [1; 2; 3]]> scenario_heap.

(** A threshold function that divides by the total of its records, and so
    answers [0/0] on an empty array. *)
Definition share_threshold (os : list obj) : float :=
  (d3_sum os (number_field "v") / d3_sum os (number_field "v"))%float.

(** The heap scenario 1 ends in, given the record [merged] that [merge]
    makes of the two records of group "a": the copy of [data] at reference
    4, the arrays [nextDataset] of the groups "b" and "a" at 5 and 6, and
    the stamped record at 7. *)
Definition scenario_final (merged : obj) : heap :=
  <[4 := CArr [3; 7]]>
    (<[7 := CObj (stamp 0.5 merged)]>
       (<[6 := CArr [1; 2]]> (<[5 := CArr [3]]> scenario_heap))).

(** The heap the same input ends in when the threshold function answers
    [Infinity]: both groups are merged, "b" first. *)
Definition scenario_final_infinity (merged_b merged_a : obj) : heap :=
  <[4 := CArr [6; 8]]>
    (<[8 := CObj (stamp 1 merged_a)]>
       (<[7 := CArr [1; 2]]>
          (<[6 := CObj (stamp 1 merged_b)]>
             (<[5 := CArr [3]]> scenario_heap)))).

(** * The rest of the class: the comparator, the layout, the labels *)

(** ** Truthiness and property reads *)

(** [ToBoolean]: what [&&], [!] and [?:] make of a value.  The falsy values
    are [undefined], [null], [false], the two zeros, [NaN] and the empty
    string. *)
Definition truthy (v : value) : bool :=
  match v with
  | VUndefined | VNull => false
  | VBool b => b
  | VNum x => negb (is_nan x || PrimFloat.is_zero x)
  | VStr s => match s with EmptyString => false | _ => true end
  | VRef _ => true
  end.

(** [v[k]] for the property names the code reads this way,
    [_isAggregation], [key] and [values]: a [TypeError] on [undefined] and
    [null]; the field, or [undefined] without it, on a record; [undefined]
    on a number, a string and a boolean, whose prototypes have no such
    property.  An array is taken to have none of them either: the code
    reads them from records and nest entries. *)
Definition get_property (v : value) (k : string) : M value :=
  match v with
  | VUndefined | VNull => throw
  | VRef l => λ h,
      match h !! l with
      | Some (CObj o) => Some (default VUndefined (o !! k), h)
      | Some (CArr _) => Some (VUndefined, h)
      | None => None
      end
  | _ => mret VUndefined
  end.

(** [for (let i = 0; i < xs.length; i++) { body(xs[i]) }]: the loop visits
    the elements from the first to the last and threads the loop state. *)
Definition for_loop {A S} (body : A → S → M S) : list A → S → M S :=
  fix go xs s :=
    match xs return M S with
    | [] => mret s
    | x :: xs' => s' ← body x s; go xs' s'
    end.

(** ** The nodes of the layout *)

(** A node of the hierarchy that d3 builds of the nested data and lays
    out, by the fields the code reads: [depth], [data] (a nest entry, or a
    record at a leaf), [value] (the weight [sum] gave it), the rectangle
    [x0], [y0], [x1], [y1], and [children], which a leaf does not have. *)
Module Node.

Inductive t : Type :=
  | mk (depth : nat) (data : value) (weight : float)
       (x0 y0 x1 y1 : float) (children : option (list t)).

Definition depth (n : t) : nat :=
  match n with mk d _ _ _ _ _ _ _ => d end.
Definition data (n : t) : value :=
  match n with mk _ d _ _ _ _ _ _ => d end.
Definition x0 (n : t) : float :=
  match n with mk _ _ _ x _ _ _ _ => x end.
Definition y0 (n : t) : float :=
  match n with mk _ _ _ _ y _ _ _ => y end.
Definition x1 (n : t) : float :=
  match n with mk _ _ _ _ _ x _ _ => x end.
Definition y1 (n : t) : float :=
  match n with mk _ _ _ _ _ _ y _ => y end.
Definition children (n : t) : option (list t) :=
  match n with mk _ _ _ _ _ _ _ cs => cs end.
Definition value (n : t) : float :=
  match n with mk _ _ w _ _ _ _ _ => w end.

End Node.

(** ** The comparator [_sort] *)

(** [isAggregated] of the constructor: the value of
    [leaf.children && leaf.children.length === 1 &&
     leaf.children[0].data._isAggregation]. *)
Definition isAggregated (leaf : Node.t) : M value :=
  match Node.children leaf with
  | None => mret VUndefined
  | Some [c] => get_property (Node.data c) "_isAggregation"
  | Some _ => mret (VBool false)
  end.

(** The default comparator [this._sort] of the constructor. *)
Definition _sort (a b : Node.t) : M float :=
  aggA ← isAggregated a;
  aggB ← isAggregated b;
  mret (if truthy aggA && negb (truthy aggB) then 1
        else if negb (truthy aggA) && truthy aggB then (-1)
        else Node.value b - Node.value a)%float.

(** ** [extractLayout] of [_draw] *)

(** A node that [extractLayout] has written and pushed to [shapeData].
    The six assignments of the code are the fields [__d3plus__], [id], [i]
    ([None] for [undefined]), [data], [x] and [y]: [data] is what the
    node has as [node.data] from then on, the reference of the merged
    record.  [node] keeps the fields as they were before the assignments,
    so [Node.data] of it is the nest entry that the assignment to [data]
    replaced. *)
Module Shape.

Record t : Type := mk {
  node : Node.t;
  __d3plus__ : bool;
  id : value;
  i : option Z;
  data : loc;
  x : float;
  y : float
}.

End Shape.

Section draw.

(** [merge] of d3plus-common. *)
Variable merge : list obj → aggsT → obj.

(** [that._drawDepth] and the array [that._filteredData]. *)
Variable drawDepth : nat.
Variable _filteredData : loc.

(** The body of the loop of [extractLayout] for one node, with the
    recursive call [extractLayout(node.children)] unfolded to its loop:
    [children.length] of an absent [children] is a [TypeError].  So is
    [node.data.values] when it is no array: [undefined] has no [length],
    and [merge] maps over its argument.  The hierarchy is a value here, so
    the assignments to the node, [node.__d3plus__ = true] to
    [node.y = ...], are the fields of the record that [shapeData.push(node)]
    appends: the node after the assignments. *)
Fixpoint extractLayout_node (node : Node.t) (shapeData : list Shape.t)
    {struct node} : M (list Shape.t) :=
  match node with
  | Node.mk depth data _ x0 y0 x1 y1 children =>
      if depth <=? drawDepth then
        match children with
        | Some cs => for_loop extractLayout_node cs shapeData
        | None => throw
        end
      else
        values ← get_property data "values";
        vs ← match values with VRef a => read_arr a | _ => throw end;
        index ← match vs return M (option Z) with
                | [v] => n ← Array_indexOf _filteredData v; mret (Some n)
                | _ => mret None
                end;
        id ← get_property data "key";
        let i := match index with
                 | Some n => if (-1 <? n)%Z then Some n else None
                 | None => None
                 end in
        records ← mapM read_obj vs;
        merged ← alloc (CObj (merge records ∅));
        let x := (x0 + (x1 - x0) / 2)%float in
        let y := (y0 + (y1 - y0) / 2)%float in
        mret (shapeData ++
              [{| Shape.node := node; Shape.__d3plus__ := true;
                  Shape.id := id; Shape.i := i; Shape.data := merged;
                  Shape.x := x; Shape.y := y |}])
  end.

(** [extractLayout(children)], pushing to [shapeData]. *)
Definition extractLayout (children : list Node.t)
    (shapeData : list Shape.t) : M (list Shape.t) :=
  for_loop extractLayout_node children shapeData.

(** [shapeData] as [_draw] computes it from the laid out root:
    [if (tmapData.children) extractLayout(tmapData.children)]. *)
Definition _draw_shapeData (tmapData : Node.t) : M (list Shape.t) :=
  match Node.children tmapData with
  | Some cs => extractLayout cs []
  | None => mret []
  end.

End draw.

(** ** The label callbacks of [_draw] *)

(** A box of [labelBounds]. *)
Module Bounds.

Record t : Type := mk { width : float; height : float; x : float; y : float }.

End Bounds.

(** [labelBounds(d, i, s)], of [fontMin] and [padding] of the label
    configuration and of the width and the height of the shape [s]. *)
Definition labelBounds (fontMin padding : float) (s_width s_height : float)
    : list Bounds.t :=
  let h := s_height in
  let sh := Math_min 50 ((h - padding * 2) * 0.5)%float in
  let sh := if (sh <? fontMin)%float then 0%float else sh in
  [ {| Bounds.width := s_width; Bounds.height := (h - sh)%float;
       Bounds.x := ((- s_width) / 2)%float; Bounds.y := ((- h) / 2)%float |};
    {| Bounds.width := s_width; Bounds.height := (sh + padding * 2)%float;
       Bounds.x := ((- s_width) / 2)%float;
       Bounds.y := (h / 2 - sh - padding * 2)%float |} ].

(** The object [x] the callbacks [textAnchor] and [verticalAlign] get is
    read through its links [__d3plusParent__] only: it is modelled by the
    chain of the objects [x], [x.__d3plusParent__], ... up to the first link
    that is absent or falsy, each object by its field [l], [VUndefined] when
    it has none.  A falsy [x] is the empty chain. *)
Definition is_undefined (v : value) : bool :=
  match v with VUndefined => true | _ => false end.

(** The loop of both callbacks, from the state [line], [parent]:
    [while (typeof line === "undefined" && parent) { ... }]. *)
Fixpoint line_loop (line : value) (parent : list value) : value :=
  match parent with
  | l :: __d3plusParent__ =>
      if is_undefined line then
        line_loop (if negb (is_undefined l) then l else line)
          __d3plusParent__
      else line
  | [] => line
  end.

Definition textAnchor (x : list value) : string :=
  if truthy (line_loop VUndefined x) then "middle" else "start".

Definition verticalAlign (x : list value) : string :=
  if truthy (line_loop VUndefined x) then "bottom" else "top".

(** ** The label [ariaLabel] of the constructor *)

Section ariaLabel.

(** [this._drawLabel] of the base class, and the conversion of a number
    to a string in a template literal, on an index and on a weight. *)
Variable _drawLabel : obj → option Z → string.
Variable index_to_string : Z → string.
Variable number_to_string : float → string.

(** [ariaLabel(d, i)]; [_rankData] is [None] before the first [_draw]. *)
Definition ariaLabel (this : Treemap) (_rankData : option loc)
    (d : loc) (i : option Z) : M string :=
  rank ← match _rankData return M string with
         | Some r =>
             n ← Array_indexOf r d;
             mret (index_to_string (n + 1) +:+ ". ")
         | None => mret EmptyString
         end;
  o ← read_obj d;
  mret (rank +:+ _drawLabel o i +:+ ", "
        +:+ number_to_string (_sum this o) +:+ ".").

End ariaLabel.

(** ** Views used in the statements about the rest of the class *)

(** An aggregate: a record flagged [_isAggregation] whose [_threshold] is a
    number between 0 and 1. *)
Definition is_aggregate (h : heap) (m : loc) : Prop :=
  ∃ o t, h !! m = Some (CObj o) ∧
    o !! "_isAggregation" = Some (VBool true) ∧
    o !! "_threshold" = Some (VNum t) ∧
    (0 <=? t)%float = true ∧ (t <=? 1)%float = true.

(** What a walk over branches makes of the heap [h] and of the elements
    [fs] of [finalDataset]: the array holds a part of [fs], in its order,
    followed by new aggregates; it has not grown, and it is not empty
    unless it was; every other cell is as it was. *)
Definition walk_step (h : heap) (fin : loc) (fs : list loc)
    (h' : heap) (fs' : list loc) : Prop :=
  h' !! fin = Some (CArr fs') ∧
  (∀ l c, h !! l = Some c → l ≠ fin → h' !! l = Some c) ∧
  (fs ≠ [] → fs' ≠ [] ∧ length fs' ≤ length fs) ∧
  ∃ kept news, fs' = kept ++ news ∧ kept `sublist_of` fs ∧
    Forall (λ m, h !! m = None ∧ is_aggregate h' m) news.

(** A branch cut [k] levels below itself: its key, and its children only
    down to that level. *)
Fixpoint prune (k : nat) (b : branch) {struct k} : branch :=
  match k, b with
  | 0, Branch key _ => Branch key []
  | S k', Branch key leaves => Branch key (prune k' <$> leaves)
  end.

(** The object [this] with only the first [drawDepth] accessors of
    [groupBy]. *)
Definition truncated (this : Treemap) : Treemap :=
  {| _aggs := _aggs this; _drawDepth := _drawDepth this;
     _groupBy := take (_drawDepth this) (_groupBy this);
     _threshold := _threshold this; _thresholdKey := _thresholdKey this;
     _sum := _sum this |}.

(** The elements of [node.data.values]. *)
Definition values_of (h : heap) (n : Node.t) : option (list loc) :=
  match Node.data n with
  | VRef e =>
      match h !! e with
      | Some (CObj o) =>
          match o !! "values" with
          | Some (VRef a) =>
              match h !! a with
              | Some (CArr vs) => Some vs
              | _ => None
              end
          | _ => None
          end
      | _ => None
      end
  | _ => None
  end.

(** The descendants of a node [k] levels below it, from left to right. *)
Fixpoint nodes_below (k : nat) (n : Node.t) {struct k} : list Node.t :=
  match k with
  | 0 => [n]
  | S k' =>
      match Node.children n with
      | Some cs => flat_map (nodes_below k') cs
      | None => []
      end
  end.

(** The hierarchy of a nested dataset below depth [d], in the heap [h]:
    every node is one level below its parent; down to [drawDepth] a node
    has children; a node below [drawDepth] holds a nest entry whose
    [values] are records. *)
Inductive nested (h : heap) (drawDepth : nat) : nat → Node.t → Prop :=
  | nested_inner d data w x0 y0 x1 y1 cs :
      d ≤ drawDepth → Forall (nested h drawDepth (S d)) cs →
      nested h drawDepth d (Node.mk d data w x0 y0 x1 y1 (Some cs))
  | nested_group d w x0 y0 x1 y1 children e o a vs :
      drawDepth < d →
      h !! e = Some (CObj o) → o !! "values" = Some (VRef a) →
      h !! a = Some (CArr vs) → Forall (is_record h) vs →
      nested h drawDepth d (Node.mk d (VRef e) w x0 y0 x1 y1 children).

(** What [extractLayout] makes of a node it pushes, read in the heap [h]
    before the call and the heap [h'] after it; [fdata] are the elements of
    [_filteredData]. *)
Definition shape_of (merge : list obj → aggsT → obj) (h : heap)
    (fdata : list loc) (h' : heap) (s : Shape.t) : Prop :=
  ∃ e o vs,
    Node.data (Shape.node s) = VRef e ∧ h !! e = Some (CObj o) ∧
    values_of h (Shape.node s) = Some vs ∧
    Shape.__d3plus__ s = true ∧
    Shape.id s = default VUndefined (o !! "key") ∧
    Shape.i s =
      match vs with
      | [v] => if bool_decide (v ∈ fdata) then Some (indexOf v fdata) else None
      | _ => None
      end ∧
    h !! Shape.data s = None ∧
    h' !! Shape.data s = Some (CObj (merge (record_of h <$> vs) ∅)) ∧
    Shape.x s =
      (Node.x0 (Shape.node s)
       + (Node.x1 (Shape.node s) - Node.x0 (Shape.node s)) / 2)%float ∧
    Shape.y s =
      (Node.y0 (Shape.node s)
       + (Node.y1 (Shape.node s) - Node.y0 (Shape.node s)) / 2)%float.

(** A node down to [drawDepth] that has no children, or has such a node
    below it. *)
Inductive shallow_leaf (drawDepth : nat) : Node.t → Prop :=
  | shallow_leaf_here d data w x0 y0 x1 y1 :
      d ≤ drawDepth →
      shallow_leaf drawDepth (Node.mk d data w x0 y0 x1 y1 None)
  | shallow_leaf_below d data w x0 y0 x1 y1 cs :
      d ≤ drawDepth → Exists (shallow_leaf drawDepth) cs →
      shallow_leaf drawDepth (Node.mk d data w x0 y0 x1 y1 (Some cs)).

(** ** More scenarios *)

(** The configuration of scenario 1 without an accessor in [groupBy], and
    with [drawDepth = 0]. *)
Definition scenario_no_groupBy : Treemap :=
  {| _aggs := ∅; _drawDepth := 1; _groupBy := [];
     _threshold := Some (λ _, 0.5%float);
     _thresholdKey := Some (number_field "v"); _sum := number_field "v" |}.

Definition scenario_depth_0 : Treemap :=
  {| _aggs := ∅; _drawDepth := 0; _groupBy := [field "k"];
     _threshold := Some (λ _, 0.5%float);
     _thresholdKey := Some (number_field "v"); _sum := number_field "v" |}.

(** The configuration of scenario 1 grouping by the number [v], whose
    values are no keys of the tree. *)
Definition scenario_by_number : Treemap :=
  {| _aggs := ∅; _drawDepth := 1; _groupBy := [field "v"];
     _threshold := Some (λ _, 0.5%float);
     _thresholdKey := Some (number_field "v"); _sum := number_field "v" |}.

(** Two records of group "a", the first with the weight [NaN]. *)
Definition nan_heap : heap :=
  <[0 := CArr [1; 2]]>
    (<[1 := CObj (record_kv "a" nan)]> (<[2 := CObj (record_kv "a" 1)]> ∅)).

(** The two twins in [finalDataset], at reference 0, and the second of
    them alone in [currentDataset], at reference 3. *)
Definition twins_branch_heap : heap := <[3 := CArr [2]]> twins_heap.

(** The configuration of scenario 1 with the threshold function
    [() => 1]. *)
Definition scenario_all : Treemap := scenario_this (Some (λ _, 1%float)).

(** The heap of scenario 1 with an array that does not hold record 1. *)
Definition orphan_heap : heap := <[0 := CArr [2; 3]]> scenario_heap.

(** The heap scenario 1 ends in, with any merged record. *)
Definition sorted_heap : heap := scenario_final ∅.

(** The nested data of scenario 1 grouped by [k]: the entries of the
    groups "a" and "b" at the references 10 and 12, with their arrays
    [values] at 11 and 13. *)
Definition layout_heap : heap :=
  <[10 := CObj (<["key" := VStr "a"]> {["values" := VRef 11]})]>
    (<[11 := CArr [1; 2]]>
       (<[12 := CObj (<["key" := VStr "b"]> {["values" := VRef 13]})]>
          (<[13 := CArr [3]]> scenario_heap))).

(** The leaf of a record and the node of a group, laid out somewhere. *)
Definition leaf_node (r : loc) (w : float) : Node.t :=
  Node.mk 2 (VRef r) w 0 0 1 1 None.

Definition group_node (e : loc) (w : float) (leaves : list Node.t)
    : Node.t :=
  Node.mk 1 (VRef e) w 0 0 4 2 (Some leaves).

Definition layout_children : list Node.t :=
  [group_node 12 50 [leaf_node 3 50];
   group_node 10 11 [leaf_node 1 10; leaf_node 2 1]].

(** The root of the hierarchy of scenario 1. *)
Definition layout_root : Node.t :=
  Node.mk 0 VUndefined 61 0 0 4 4 (Some layout_children).

(** A hierarchy of scenario 1 in which the group "b" has no children. *)
Definition shallow_children : list Node.t :=
  [group_node 10 11 [leaf_node 1 10; leaf_node 2 1];
   Node.mk 1 (VRef 12) 50 0 0 4 2 None].

(** * Facts about numbers *)

Section number_facts.

Local Open Scope float_scope.

Lemma SF_zero : Prim2SF 0 = S754_zero false. Proof. reflexivity. Qed.
Lemma SF_one : Prim2SF 1 = S754_finite false 4503599627370496 (-52).
Proof. reflexivity. Qed.
Lemma SF_inf : Prim2SF infinity = S754_infinity false. Proof. reflexivity. Qed.

Lemma is_nan_spec x :
  is_nan x = match Prim2SF x with S754_nan => true | _ => false end.
Proof.
  unfold is_nan. rewrite FloatAxioms.eqb_spec.
  destruct (Prim2SF x) as [s|s| |s m e]; try reflexivity.
  - destruct s; reflexivity.
  - unfold SFeqb, SFcompare.
    destruct s; rewrite Z.compare_refl, Pos.compare_cont_refl; reflexivity.
Qed.

Lemma Math_max_0 p :
  is_nan p = false → Math_max 0 p = if 0 <? p then p else 0.
Proof.
  intros Hp. unfold Math_max. rewrite Hp.
  change (is_nan 0) with false. simpl.
  destruct (0 <? p); [done|]. destruct (p <? 0); done.
Qed.

Lemma Math_min_1 x :
  is_nan x = false →
  Math_min 1 x = if 1 <? x then 1 else if x <? 1 then x else 1.
Proof.
  intros Hp. unfold Math_min. rewrite Hp.
  change (is_nan 1) with false. simpl.
  destruct (1 <? x); [done|]. destruct (x <? 1); done.
Qed.

Lemma lt_1_0 p : (1 <? p) = true → (0 <? p) = true.
Proof.
  rewrite !FloatAxioms.ltb_spec, SF_zero, SF_one.
  destruct (Prim2SF p) as [s|s| |s m e]; try done; destruct s; done.
Qed.

Lemma eq_1_pos p :
  is_nan p = false → (1 <? p) = false → (p <? 1) = false → (0 <? p) = true.
Proof.
  rewrite is_nan_spec, !FloatAxioms.ltb_spec, SF_zero, SF_one.
  destruct (Prim2SF p) as [s|s| |s m e]; try done; destruct s; done.
Qed.

Lemma SFcompare_pos_antisym m1 e1 m2 e2 :
  SFcompare (S754_finite false m2 e2) (S754_finite false m1 e1) =
  option_map CompOpp
  (SFcompare (S754_finite false m1 e1) (S754_finite false m2 e2)).
Proof.
  unfold SFcompare, option_map. f_equal.
  change (Pos.compare_cont Eq) with Pos.compare.
  rewrite (Z.compare_antisym e1 e2), (Pos.compare_antisym m1 m2).
  destruct (e1 ?= e2)%Z; reflexivity.
Qed.

Lemma SFcompare_pos_eq m1 e1 m2 e2 :
  SFcompare (S754_finite false m1 e1) (S754_finite false m2 e2) = Some Eq →
  S754_finite false m1 e1 = S754_finite false m2 e2.
Proof.
  unfold SFcompare. change (Pos.compare_cont Eq) with Pos.compare.
  destruct (e1 ?= e2)%Z eqn:He; try discriminate.
  intros Hm. apply Z.compare_eq in He.
  assert (m1 = m2) by (apply Pos.compare_eq; congruence).
  congruence.
Qed.

(** A number neither below nor above a positive one is that number. *)
Lemma sf_not_lt_eq m1 e1 s m e :
  SFltb (S754_finite false m1 e1) (S754_finite s m e) = false →
  SFltb (S754_finite s m e) (S754_finite false m1 e1) = false →
  S754_finite s m e = S754_finite false m1 e1.
Proof.
  destruct s; [discriminate|]. unfold SFltb.
  rewrite (SFcompare_pos_antisym m1 e1 m e).
  destruct (SFcompare (S754_finite false m1 e1) (S754_finite false m e))
    as [[]|] eqn:Hc; try discriminate.
  intros _ _. symmetry. apply SFcompare_pos_eq, Hc.
Qed.

(** Between two positive numbers, [<] or [=] excludes [>]. *)
Lemma sf_lt_le m1 e1 m e :
  SFltb (S754_finite false m1 e1) (S754_finite false m e) = false →
  SFleb (S754_finite false m e) (S754_finite false m1 e1) = true.
Proof.
  unfold SFltb, SFleb. rewrite (SFcompare_pos_antisym m1 e1 m e).
  destruct (SFcompare (S754_finite false m1 e1) (S754_finite false m e))
    as [[]|] eqn:Hc; try discriminate; reflexivity.
Qed.

Lemma clamp_nan p : is_nan p = true → clamp p = nan.
Proof.
  intros Hp. unfold clamp, Math_max. rewrite Hp, orb_true_r. reflexivity.
Qed.

Lemma eq_one p :
  is_nan p = false → (1 <? p) = false → (p <? 1) = false → p = 1.
Proof.
  intros Hp H1 H2. apply Prim2SF_inj. rewrite SF_one. revert Hp H1 H2.
  rewrite is_nan_spec, !FloatAxioms.ltb_spec, SF_one.
  destruct (Prim2SF p) as [s|s| |s m e]; try discriminate;
    try (destruct s; discriminate).
  intros _. apply sf_not_lt_eq.
Qed.

Lemma clamp_cases p : is_nan p = false →
  clamp p = if 0 <? p then (if 1 <? p then 1 else p) else 0.
Proof.
  intros Hp. unfold clamp. rewrite Math_max_0 by exact Hp.
  destruct (0 <? p) eqn:H0.
  - rewrite Math_min_1 by exact Hp. destruct (1 <? p) eqn:H1; [reflexivity|].
    destruct (p <? 1) eqn:H2; [reflexivity|].
    symmetry. apply eq_one; assumption.
  - rewrite Math_min_1 by reflexivity. reflexivity.
Qed.

Lemma is_finite_spec x :
  is_finite x =
  match Prim2SF x with
  | S754_zero _ | S754_finite _ _ _ => true
  | _ => false
  end.
Proof.
  unfold is_finite, is_infinity.
  rewrite is_nan_spec, FloatAxioms.eqb_spec, abs_spec, SF_inf.
  destruct (Prim2SF x) as [s|s| |s m e]; reflexivity.
Qed.

Lemma clamp_is_nan p : is_nan (clamp p) = is_nan p.
Proof.
  destruct (is_nan p) eqn:Hp.
  - rewrite clamp_nan by exact Hp. reflexivity.
  - rewrite clamp_cases by exact Hp.
    destruct (0 <? p); [destruct (1 <? p)|]; first [exact Hp | reflexivity].
Qed.

Lemma clamp_is_finite p : is_finite (clamp p) = negb (is_nan p).
Proof.
  destruct (is_nan p) eqn:Hp.
  - rewrite clamp_nan by exact Hp. reflexivity.
  - rewrite clamp_cases by exact Hp.
    destruct (0 <? p) eqn:H0; [destruct (1 <? p) eqn:H1|]; try reflexivity.
    rewrite is_finite_spec. revert Hp H0 H1.
    rewrite is_nan_spec, !FloatAxioms.ltb_spec, SF_zero, SF_one.
    destruct (Prim2SF p) as [s|s| |s m e]; try discriminate; try reflexivity.
    destruct s; discriminate.
Qed.

(** The bounds can be applied in either order. *)
Lemma clamp_max_min p :
  is_nan p = false → clamp p = Math_max 0 (Math_min 1 p).
Proof.
  intros Hp. rewrite clamp_cases by exact Hp. rewrite Math_min_1 by exact Hp.
  destruct (1 <? p) eqn:H1.
  - rewrite (lt_1_0 _ H1). rewrite Math_max_0 by reflexivity. reflexivity.
  - destruct (p <? 1) eqn:H2.
    + rewrite Math_max_0 by exact Hp. destruct (0 <? p); reflexivity.
    + rewrite (eq_1_pos _ Hp H1 H2), (eq_one _ Hp H1 H2).
      rewrite Math_max_0 by reflexivity. reflexivity.
Qed.

Lemma clamp_range p :
  is_nan p = false → (0 <=? clamp p) = true ∧ (clamp p <=? 1) = true.
Proof.
  intros Hp. rewrite clamp_cases by exact Hp.
  destruct (0 <? p) eqn:H0; [destruct (1 <? p) eqn:H1|];
    try (split; reflexivity).
  revert Hp H0 H1.
  rewrite is_nan_spec, !FloatAxioms.ltb_spec, !FloatAxioms.leb_spec,
    SF_zero, SF_one.
  destruct (Prim2SF p) as [s|s| |s m e]; try discriminate;
    try (destruct s; discriminate).
  destruct s; [discriminate|]. intros _ _ H1. split; [reflexivity|].
  apply sf_lt_le, H1.
Qed.

Lemma eqb_not_ltb x y : (x =? y) = true → (x <? y) = false.
Proof.
  rewrite FloatAxioms.eqb_spec, FloatAxioms.ltb_spec. unfold SFeqb, SFltb.
  destruct (SFcompare (Prim2SF x) (Prim2SF y)) as [[]|];
    (discriminate || reflexivity).
Qed.

Lemma mul_zero_total tp total :
  is_finite tp = true → (total =? 0) = true →
  ((tp * total) =? 0) = true ∧ ∀ w, (w <? tp * total) = (w <? 0).
Proof.
  rewrite is_finite_spec, !FloatAxioms.eqb_spec, SF_zero. intros Htp Htot.
  assert (∃ s, Prim2SF (tp * total) = S754_zero s) as [s Hs].
  { rewrite mul_spec. unfold SF64mul.
    destruct (Prim2SF total) as [st|st| |st mt et]; try discriminate;
      try (destruct st; discriminate).
    destruct (Prim2SF tp) as [s|s| |s m e]; try discriminate;
      eexists; reflexivity. }
  split.
  - rewrite Hs. reflexivity.
  - intros w. rewrite !FloatAxioms.ltb_spec, SF_zero, Hs.
    destruct (Prim2SF w) as [sw|sw| |sw mw ew]; reflexivity.
Qed.

(** IEEE equality: two numbers equal to a third are equal. *)
Lemma SFcompare_finite_Eq s m e s' m' e' :
  SFcompare (S754_finite s m e) (S754_finite s' m' e') = Some Eq →
  s = s' ∧ m = m' ∧ e = e'.
Proof.
  unfold SFcompare. change (Pos.compare_cont Eq) with Pos.compare.
  destruct s, s'; try discriminate;
    destruct (e ?= e')%Z eqn:He; try discriminate;
    destruct (m ?= m')%positive eqn:Hm; try discriminate;
    intros _; apply Z.compare_eq in He; apply Pos.compare_eq in Hm;
    subst; auto.
Qed.

Lemma SFcompare_finite_refl s m e :
  SFcompare (S754_finite s m e) (S754_finite s m e) = Some Eq.
Proof.
  unfold SFcompare. rewrite Z.compare_refl, Pos.compare_cont_refl.
  destruct s; reflexivity.
Qed.

Lemma SFeqb_both x a b :
  SFeqb x a = true → SFeqb x b = true → SFeqb a b = true.
Proof.
  unfold SFeqb.
  destruct (SFcompare x a) as [[]|] eqn:Ha; try discriminate.
  destruct (SFcompare x b) as [[]|] eqn:Hb; try discriminate.
  intros _ _.
  destruct x as [sx|sx| |sx mx ex], a as [sa|sa| |sa ma ea];
    try discriminate; try (destruct sx; discriminate);
    try (destruct sa; discriminate);
    destruct b as [sb|sb| |sb mb eb];
    try discriminate; try (destruct sx; discriminate);
    try (destruct sb; discriminate).
  - reflexivity.
  - destruct sx, sa, sb; try discriminate; reflexivity.
  - apply SFcompare_finite_Eq in Ha as (-> & -> & ->).
    apply SFcompare_finite_Eq in Hb as (-> & -> & ->).
    rewrite SFcompare_finite_refl. reflexivity.
Qed.

Lemma eqb_both x a b : (x =? a) = true → (x =? b) = true → (a =? b) = true.
Proof. rewrite !FloatAxioms.eqb_spec. apply SFeqb_both. Qed.

Lemma eqb_refl_l x a : (x =? a) = true → (x =? x) = true.
Proof.
  rewrite !FloatAxioms.eqb_spec. unfold SFeqb.
  destruct (Prim2SF x) as [sx|sx| |sx mx ex]; intros Hxa.
  - reflexivity.
  - destruct sx; reflexivity.
  - discriminate.
  - rewrite SFcompare_finite_refl. reflexivity.
Qed.

Lemma eqb_sym x a : (x =? a) = true → (a =? x) = true.
Proof.
  intros Hxa. apply (eqb_both x a x Hxa). apply (eqb_refl_l x a Hxa).
Qed.

(** Likewise for [===]. *)
Lemma strict_eq_both v k1 k2 :
  strict_eq v k1 = true → strict_eq v k2 = true → strict_eq k1 k2 = true.
Proof.
  destruct v, k1; try discriminate; destruct k2; try discriminate; simpl;
    try reflexivity; rewrite ?bool_decide_eq_true; try congruence.
  apply eqb_both.
Qed.

Lemma strict_eq_sym a b : strict_eq a b = true → strict_eq b a = true.
Proof.
  destruct a, b; try discriminate; simpl; try reflexivity;
    rewrite ?bool_decide_eq_true; try congruence.
  apply eqb_sym.
Qed.

End number_facts.

(** * Facts about the array methods *)

Section array_facts.

Implicit Types (x y : loc) (a l : list loc).

Lemma indexOf_from_notin i x a : x ∉ a → indexOf_from i x a = (-1)%Z.
Proof.
  revert i. induction a as [|y a IH]; intros i Hx; [reflexivity|].
  apply not_elem_of_cons in Hx as [Hne Hx]. simpl.
  rewrite bool_decide_eq_false_2 by congruence. apply IH, Hx.
Qed.

Lemma indexOf_from_first i x l1 l2 :
  x ∉ l1 → indexOf_from i x (l1 ++ x :: l2) = (i + Z.of_nat (length l1))%Z.
Proof.
  revert i. induction l1 as [|y l1 IH]; intros i Hx; simpl.
  - rewrite bool_decide_eq_true_2 by reflexivity. lia.
  - apply not_elem_of_cons in Hx as [Hne Hx].
    rewrite bool_decide_eq_false_2 by congruence. rewrite IH by exact Hx. lia.
Qed.

Lemma splice_one_at l1 x l2 :
  splice (Z.of_nat (length l1)) 1 (l1 ++ x :: l2) = l1 ++ l2.
Proof.
  unfold splice. rewrite length_app. simpl length.
  rewrite (proj2 (Z.ltb_ge _ _)) by lia.
  rewrite Z.min_l by lia. rewrite Nat2Z.id.
  rewrite take_app_length. f_equal.
  rewrite drop_app_ge by lia.
  replace (length l1 + 1 - length l1) with 1 by lia. reflexivity.
Qed.

(** Removing an element that is there removes its first occurrence and
    nothing else. *)
Lemma remove_item_elem_of x a :
  x ∈ a →
  ∃ l1 l2, a = l1 ++ x :: l2 ∧ (x ∉ l1) ∧ remove_item x a = l1 ++ l2.
Proof.
  intros Hx. apply list_elem_of_split_l in Hx as (l1 & l2 & Ha & Hl1).
  subst a.
  exists l1, l2. split; [reflexivity|]. split; [exact Hl1|].
  unfold remove_item, indexOf. rewrite indexOf_from_first by exact Hl1.
  rewrite Z.add_0_l. apply splice_one_at.
Qed.

(** [indexOf] answers [-1] for an element that is not there, and
    [splice(-1, 1)] drops the last element. *)
Lemma remove_item_not_elem_of x a :
  x ∉ a → remove_item x a = take (length a - 1) a.
Proof.
  intros Hx. unfold remove_item, indexOf.
  rewrite indexOf_from_notin by exact Hx. unfold splice.
  replace (-1 <? 0)%Z with true by reflexivity.
  destruct a as [|y a]; [reflexivity|].
  rewrite Z.max_l by (simpl length; lia).
  replace (Z.to_nat (Z.of_nat (length (y :: a)) + -1))
    with (length (y :: a) - 1) by (simpl length; lia).
  rewrite drop_ge by (simpl length; lia). apply app_nil_r.
Qed.

Lemma remove_item_sublist x a : remove_item x a `sublist_of` a.
Proof.
  destruct (decide (x ∈ a)) as [Hx|Hx].
  - apply remove_item_elem_of in Hx as (l1 & l2 & -> & _ & ->).
    apply sublist_app; [reflexivity|]. apply sublist_cons, reflexivity.
  - rewrite remove_item_not_elem_of by exact Hx. apply sublist_take.
Qed.

(** Occurrences: one less of the element removed, the others as before. *)
Lemma remove_item_count x a y :
  x ∈ a →
  count_occ Nat.eq_dec (remove_item x a) y =
  if decide (y = x) then count_occ Nat.eq_dec a y - 1
  else count_occ Nat.eq_dec a y.
Proof.
  intros Hx. apply remove_item_elem_of in Hx as (l1 & l2 & -> & _ & ->).
  rewrite !count_occ_app. simpl.
  destruct (Nat.eq_dec x y) as [->|Hne].
  - rewrite decide_True by reflexivity. lia.
  - rewrite decide_False by congruence. reflexivity.
Qed.

End array_facts.

(** * Facts about the heap monad *)

Section heap_facts.

Implicit Types (h : heap) (r x : loc) (a xs : list loc).

Lemma run_bind {A B} (m : M A) (k : A → M B) h v h' :
  m h = Some (v, h') → (m ≫= k) h = k v h'.
Proof. intros Hm. unfold mbind, M_bind. rewrite Hm. reflexivity. Qed.

Lemma read_arr_run h r a : h !! r = Some (CArr a) → read_arr r h = Some (a, h).
Proof. intros Hr. unfold read_arr. rewrite Hr. reflexivity. Qed.

Lemma read_obj_run h r o : h !! r = Some (CObj o) → read_obj r h = Some (o, h).
Proof. intros Hr. unfold read_obj. rewrite Hr. reflexivity. Qed.

Lemma record_of_lookup h x o : h !! x = Some (CObj o) → record_of h x = o.
Proof. intros Hx. unfold record_of. rewrite Hx. reflexivity. Qed.

Lemma read_record_run h x : is_record h x → read_obj x h = Some (record_of h x, h).
Proof.
  intros [o Ho]. rewrite (record_of_lookup _ _ _ Ho). apply read_obj_run, Ho.
Qed.

Lemma mapM_read_obj_run h xs :
  Forall (is_record h) xs →
  mapM read_obj xs h = Some (record_of h <$> xs, h).
Proof.
  induction 1 as [|x xs Hx _ IH]; [reflexivity|]. simpl.
  rewrite (run_bind _ _ _ _ _ (read_record_run _ _ Hx)).
  rewrite (run_bind _ _ _ _ _ IH). reflexivity.
Qed.

Lemma read_records_run h r a :
  h !! r = Some (CArr a) → Forall (is_record h) a →
  read_records r h = Some (record_of h <$> a, h).
Proof.
  intros Hr Ha. unfold read_records.
  rewrite (run_bind _ _ _ _ _ (read_arr_run _ _ _ Hr)).
  apply mapM_read_obj_run, Ha.
Qed.

Lemma call_run {A} h (f : obj → A) x :
  is_record h x → call (Some f) x h = Some (f (record_of h x), h).
Proof.
  intros Hx. unfold call.
  rewrite (run_bind _ _ _ _ _ (read_record_run _ _ Hx)). reflexivity.
Qed.

(** The filter that computes [nextDataset]. *)
Lemma filterM_matches_run h acc k xs :
  Forall (is_record h) xs →
  filterM (λ item, v ← call (Some acc) item; mret (strict_eq v k)) xs h =
  Some (filter (λ x, matches h acc k x = true) xs, h).
Proof.
  induction 1 as [|x xs Hx _ IH]; [reflexivity|]. cbn [filterM].
  rewrite (run_bind _ _ _ (strict_eq (acc (record_of h x)) k) h).
  2:{ rewrite (run_bind _ _ _ _ _ (call_run _ _ _ Hx)). reflexivity. }
  rewrite (run_bind _ _ _ _ _ IH). rewrite filter_cons.
  change (strict_eq (acc (record_of h x)) k) with (matches h acc k x).
  destruct (matches h acc k x) eqn:Hk.
  - rewrite decide_True by reflexivity. reflexivity.
  - rewrite decide_False by discriminate. reflexivity.
Qed.

(** With no accessor at this depth the filter throws on its first
    element, and only an empty array passes. *)
Lemma filterM_undefined_run h (k : value) xs :
  filterM (λ item, v ← call (A := value) None item; mret (strict_eq v k)) xs h =
  match xs with [] => Some ([], h) | _ => None end.
Proof. destruct xs; reflexivity. Qed.

Lemma is_record_insert h r (c : cell) x :
  is_record h x → x ≠ r → is_record (<[r := c]> h) x.
Proof. intros [o Ho] Hne. exists o. rewrite lookup_insert_ne by congruence. exact Ho. Qed.

Lemma record_of_insert h r (c : cell) x :
  x ≠ r → record_of (<[r := c]> h) x = record_of h x.
Proof. intros Hne. unfold record_of. rewrite lookup_insert_ne by congruence. reflexivity. Qed.

Lemma fresh_not_in_dom h : h !! fresh (dom h) = None.
Proof. apply not_elem_of_dom, is_fresh. Qed.

Lemma lookup_Some_not_fresh h x (c : cell) : h !! x = Some c → x ≠ fresh (dom h).
Proof. intros Hx ->. rewrite fresh_not_in_dom in Hx. discriminate. Qed.

Lemma dom_overwrite h r (c c' : cell) :
  h !! r = Some c → dom (<[r := c']> h) = dom h.
Proof.
  intros Hr. rewrite dom_insert_L. apply subseteq_union_1_L.
  apply singleton_subseteq_l, elem_of_dom. eauto.
Qed.

End heap_facts.

(** * One leaf-adjacent branch *)

Section branch_facts.

Variable merge : list obj → aggsT → obj.
Variable aggs : aggsT.
Variable drawDepth : nat.
Variable groupBy : list (obj → value).
Variable threshold : list obj → float.
Variable thresholdKey : accessorT.

Implicit Types (h : heap) (fin cur next x : loc).
Implicit Types (fs cs items removed : list loc).

Lemma below_insert h r (c : cell) tv x :
  x ≠ r → below thresholdKey (<[r := c]> h) tv x = below thresholdKey h tv x.
Proof. intros Hne. unfold below. rewrite record_of_insert by exact Hne. reflexivity. Qed.

(** One turn of the loop over [nextDataset]. *)
Lemma remove_below_run h fin fs tv x removed :
  h !! fin = Some (CArr fs) → is_record h x →
  remove_below thresholdKey fin tv x removed h =
  Some (if below thresholdKey h tv x then removed ++ [x] else removed,
        <[fin := CArr (if below thresholdKey h tv x
                       then remove_item x fs else fs)]> h).
Proof.
  intros Hfin Hx. unfold remove_below.
  rewrite (run_bind _ _ _ _ _ (call_run _ _ _ Hx)).
  change (thresholdKey (record_of h x) <? tv)%float
    with (below thresholdKey h tv x).
  destruct (below thresholdKey h tv x).
  - unfold Array_indexOf.
    rewrite (run_bind _ _ _ (indexOf x fs) h)
      by (rewrite (run_bind _ _ _ _ _ (read_arr_run _ _ _ Hfin)); reflexivity).
    unfold Array_splice.
    rewrite (run_bind _ _ _ tt (<[fin := CArr (remove_item x fs)]> h))
      by (rewrite (run_bind _ _ _ _ _ (read_arr_run _ _ _ Hfin)); reflexivity).
    reflexivity.
  - rewrite insert_id by exact Hfin. reflexivity.
Qed.

(** The whole loop: what is removed, and what is left. *)
Lemma removal_loop_run h fin fs tv items acc :
  h !! fin = Some (CArr fs) → Forall (is_record h) items →
  while_rev (remove_below thresholdKey fin tv) items acc h =
  Some (acc ++ removed_of thresholdKey h tv items,
        <[fin := CArr (kept_after thresholdKey h tv items fs)]> h).
Proof.
  intros Hfin. induction 1 as [|x items Hx _ IH].
  - cbn. rewrite app_nil_r, insert_id by exact Hfin. reflexivity.
  - cbn [while_rev]. rewrite (run_bind _ _ _ _ _ IH).
    assert (x ≠ fin) as Hne by (destruct Hx as [o Ho]; congruence).
    rewrite (remove_below_run _ fin (kept_after thresholdKey h tv items fs))
      by (rewrite ?lookup_insert_eq; auto using is_record_insert).
    rewrite below_insert by exact Hne. rewrite insert_insert_eq.
    unfold removed_of. rewrite filter_cons. cbn [kept_after foldr].
    fold (kept_after thresholdKey h tv items fs).
    destruct (below thresholdKey h tv x) eqn:Hb.
    + rewrite decide_True by reflexivity.
      rewrite reverse_cons, app_assoc. reflexivity.
    + rewrite decide_False by discriminate. reflexivity.
Qed.

Lemma removed_of_nil_kept h tv items fs :
  removed_of thresholdKey h tv items = [] →
  kept_after thresholdKey h tv items fs = fs.
Proof.
  unfold removed_of. intros Hnil.
  assert (filter (λ x, below thresholdKey h tv x = true) items = []) as Hf.
  { apply (f_equal reverse) in Hnil. rewrite reverse_involutive in Hnil.
    exact Hnil. }
  clear Hnil. induction items as [|x items IH]; [reflexivity|].
  rewrite filter_cons in Hf. cbn [kept_after foldr].
  destruct (below thresholdKey h tv x) eqn:Hb.
  - rewrite decide_True in Hf by reflexivity. discriminate.
  - rewrite decide_False in Hf by discriminate. apply IH, Hf.
Qed.

Lemma elem_of_removed_of h tv items x :
  x ∈ removed_of thresholdKey h tv items ↔
  x ∈ items ∧ below thresholdKey h tv x = true.
Proof.
  unfold removed_of. rewrite elem_of_reverse, list_elem_of_filter. tauto.
Qed.

(** The guard of the code fires on [NaN] only: a clamped number is never
    infinite. *)
Lemma guard_is_nan p :
  negb (isFinite (clamp p)) || isNaN (clamp p) = is_nan p.
Proof.
  unfold isFinite, isNaN. rewrite clamp_is_finite, clamp_is_nan.
  destruct (is_nan p); reflexivity.
Qed.

Lemma alloc_run h (c : cell) :
  alloc c h = Some (fresh (dom h), <[fresh (dom h) := c]> h).
Proof. reflexivity. Qed.

Lemma set_field_run h x o k v :
  h !! x = Some (CObj o) →
  set_field x k v h = Some (tt, <[x := CObj (<[k := v]> o)]> h).
Proof.
  intros Hx. unfold set_field.
  rewrite (run_bind _ _ _ _ _ (read_obj_run _ _ _ Hx)). reflexivity.
Qed.

Lemma Array_push_run h fin fs x :
  h !! fin = Some (CArr fs) →
  Array_push fin x h = Some (tt, <[fin := CArr (fs ++ [x])]> h).
Proof.
  intros Hfin. unfold Array_push.
  rewrite (run_bind _ _ _ _ _ (read_arr_run _ _ _ Hfin)). reflexivity.
Qed.

(** The views of a heap do not change when a cell that is no element of
    [items] is written. *)
Lemma records_insert h r (c : cell) items :
  r ∉ items → record_of (<[r := c]> h) <$> items = record_of h <$> items.
Proof.
  intros Hr. apply list_fmap_ext. intros i x Hi.
  apply record_of_insert. intros ->. apply Hr.
  apply list_elem_of_lookup. eauto.
Qed.

Lemma removed_of_insert h r (c : cell) tv items :
  r ∉ items →
  removed_of thresholdKey (<[r := c]> h) tv items =
  removed_of thresholdKey h tv items.
Proof.
  intros Hr. unfold removed_of. f_equal.
  induction items as [|x items IH]; [reflexivity|].
  apply not_elem_of_cons in Hr as [Hne Hr]. rewrite !filter_cons.
  rewrite below_insert by congruence. rewrite IH by exact Hr. reflexivity.
Qed.

Lemma kept_after_insert h r (c : cell) tv items fs :
  r ∉ items →
  kept_after thresholdKey (<[r := c]> h) tv items fs =
  kept_after thresholdKey h tv items fs.
Proof.
  intros Hr. induction items as [|x items IH]; [reflexivity|].
  apply not_elem_of_cons in Hr as [Hne Hr]. cbn [kept_after foldr].
  fold (kept_after thresholdKey (<[r := c]> h) tv items fs).
  fold (kept_after thresholdKey h tv items fs).
  rewrite below_insert by congruence. rewrite IH by exact Hr. reflexivity.
Qed.

(** The leaf-adjacent case of [thresholdByDepth], once [nextDataset] is
    there. *)
Lemma aggregate_branch_run h fin fs next items total :
  h !! fin = Some (CArr fs) → h !! next = Some (CArr items) →
  Forall (is_record h) items →
  aggregate_branch merge aggs threshold thresholdKey fin total next h =
  Some (tt, aggregate_heap merge aggs threshold thresholdKey
              h fin fs items total).
Proof.
  intros Hfin Hnext Hitems. unfold aggregate_branch, aggregate_heap.
  rewrite (run_bind _ _ _ _ _ (read_records_run _ _ _ Hnext Hitems)).
  cbv zeta.
  change (Math_min 1 (Math_max 0 ?p)) with (clamp p).
  set (p := threshold (record_of h <$> items)).
  rewrite guard_is_nan, clamp_is_nan.
  destruct (is_nan p); [reflexivity|].
  set (tv := (clamp p * total)%float).
  rewrite (run_bind _ _ _ _ _ (read_arr_run _ _ _ Hnext)).
  rewrite (run_bind _ _ _ _ _
             (removal_loop_run h fin fs tv items [] Hfin Hitems)).
  rewrite app_nil_l.
  destruct (removed_of thresholdKey h tv items) as [|r0 rs] eqn:Hrem.
  { cbn. rewrite (removed_of_nil_kept _ _ _ _ Hrem).
    rewrite insert_id by exact Hfin. reflexivity. }
  set (F := kept_after thresholdKey h tv items fs).
  set (removed := r0 :: rs) in *.
  replace (0 <? length removed) with true by reflexivity.
  assert (Forall (λ x, is_record h x ∧ x ≠ fin) removed) as Hrec.
  { apply Forall_forall. intros x Hx.
    assert (x ∈ items) as Hin.
    { apply (elem_of_removed_of h tv items x). rewrite Hrem. exact Hx. }
    rewrite Forall_forall in Hitems. specialize (Hitems x Hin).
    split; [exact Hitems|]. destruct Hitems as [o Ho]. congruence. }
  assert (fin ∉ removed) as Hfr.
  { intros Hin. rewrite Forall_forall in Hrec.
    destruct (Hrec fin Hin) as [_ Hne]. congruence. }
  rewrite (run_bind _ _ _ (record_of h <$> removed)
             (<[fin := CArr F]> h)).
  2:{ rewrite mapM_read_obj_run.
      - rewrite records_insert by exact Hfr. reflexivity.
      - eapply Forall_impl; [exact Hrec|]. intros x [Hx Hne].
        apply is_record_insert; assumption. }
  rewrite (run_bind _ _ _ _ _ (alloc_run _ _)).
  rewrite (dom_overwrite _ _ _ _ Hfin).
  set (m := fresh (dom h)).
  assert (h !! m = None) as Hm by apply fresh_not_in_dom.
  assert (fin ≠ m) as Hne by congruence.
  erewrite run_bind by (apply set_field_run, lookup_insert_eq).
  rewrite insert_insert_eq.
  erewrite run_bind by (apply set_field_run, lookup_insert_eq).
  rewrite insert_insert_eq.
  rewrite (Array_push_run _ fin F).
  2:{ rewrite lookup_insert_ne by congruence. apply lookup_insert_eq. }
  rewrite (insert_insert_ne _ m fin) by congruence.
  rewrite insert_insert_eq. reflexivity.
Qed.

Lemma Array_filter_run h cur cs acc k :
  h !! cur = Some (CArr cs) → Forall (is_record h) cs →
  Array_filter (λ item, v ← call (Some acc) item; mret (strict_eq v k))
    cur h =
  Some (fresh (dom h),
        <[fresh (dom h) :=
            CArr (filter (λ x, matches h acc k x = true) cs)]> h).
Proof.
  intros Hcur Hcs. unfold Array_filter.
  rewrite (run_bind _ _ _ _ _ (read_arr_run _ _ _ Hcur)).
  rewrite (run_bind _ _ _ _ _ (filterM_matches_run _ acc k _ Hcs)).
  reflexivity.
Qed.

Lemma filter_records h (P : loc → Prop) `{∀ x, Decision (P x)} cs :
  Forall (is_record h) cs → Forall (is_record h) (filter P cs).
Proof.
  intros Hcs. apply Forall_forall. intros x Hx.
  apply list_elem_of_filter in Hx as [_ Hx].
  rewrite Forall_forall in Hcs. auto.
Qed.

(** [thresholdByDepth] on a branch at the leaf-adjacent depth: the
    filter allocates [nextDataset], then the branch is aggregated. *)
Lemma thresholdByDepth_leaf_run h fin fs cur cs total b depth acc :
  depth + 1 = drawDepth → groupBy !! depth = Some acc →
  h !! fin = Some (CArr fs) → h !! cur = Some (CArr cs) →
  Forall (is_record h) cs →
  thresholdByDepth merge aggs drawDepth groupBy threshold thresholdKey
    fin total cur b depth h =
  Some (tt,
        aggregate_heap merge aggs threshold thresholdKey
          (<[fresh (dom h) :=
               CArr (filter (λ x, matches h acc (key b) x = true) cs)]> h)
          fin fs (filter (λ x, matches h acc (key b) x = true) cs) total).
Proof.
  intros Hd Hacc Hfin Hcur Hcs. destruct b as [k leaves].
  cbn [thresholdByDepth key].
  rewrite (proj2 (Nat.leb_gt drawDepth depth)) by lia.
  cbv zeta. rewrite Hacc.
  rewrite (run_bind _ _ _ _ _ (Array_filter_run _ _ _ acc k Hcur Hcs)).
  rewrite (proj2 (Nat.eqb_eq (depth + 1) drawDepth)) by exact Hd.
  set (items := filter (λ x, matches h acc k x = true) cs).
  assert (Forall (is_record h) items) as Hitems
    by apply filter_records, Hcs.
  assert (fin ≠ fresh (dom h)) as Hne
    by apply (lookup_Some_not_fresh _ _ _ Hfin).
  apply aggregate_branch_run.
  - rewrite lookup_insert_ne by congruence. exact Hfin.
  - apply lookup_insert_eq.
  - eapply Forall_impl; [exact Hitems|]. intros x Hx.
    apply is_record_insert; [exact Hx|].
    destruct Hx as [o Ho]. apply (lookup_Some_not_fresh _ _ _ Ho).
Qed.

(** Without an accessor for the depth, [groupBy] being too short, the
    filter throws on the first record. *)
Lemma thresholdByDepth_throws h fin total cur x cs b depth :
  depth < drawDepth → groupBy !! depth = None →
  h !! cur = Some (CArr (x :: cs)) →
  thresholdByDepth merge aggs drawDepth groupBy threshold thresholdKey
    fin total cur b depth h = None.
Proof.
  intros Hd Hacc Hcur. destruct b as [k leaves]. cbn [thresholdByDepth key].
  rewrite (proj2 (Nat.leb_gt drawDepth depth)) by lia.
  cbv zeta. rewrite Hacc. unfold Array_filter, mbind at 1, M_bind at 1.
  rewrite (run_bind _ _ _ _ _ (read_arr_run _ _ _ Hcur)).
  unfold mbind at 1, M_bind at 1. rewrite filterM_undefined_run. reflexivity.
Qed.

(** The heap after [thresholdByDepth] on a leaf-adjacent branch, in terms
    of the heap before it: the array [nextDataset] is new; without a
    threshold or without a record below it nothing else happens; otherwise
    [finalDataset] loses the records below the threshold value and gets the
    one new record that merges them. *)
Lemma leaf_branch_run h fin fs cur cs total b depth acc :
  depth + 1 = drawDepth → groupBy !! depth = Some acc →
  h !! fin = Some (CArr fs) → h !! cur = Some (CArr cs) →
  Forall (is_record h) cs →
  let items := filter (λ x, matches h acc (key b) x = true) cs in
  let h1 := <[fresh (dom h) := CArr items]> h in
  let p := threshold (record_of h <$> items) in
  let tv := (clamp p * total)%float in
  thresholdByDepth merge aggs drawDepth groupBy threshold thresholdKey
    fin total cur b depth h =
  Some (tt,
        if is_nan p then h1
        else match removed_of thresholdKey h tv items with
             | [] => h1
             | removed =>
                 <[fin := CArr (kept_after thresholdKey h tv items fs
                                ++ [fresh (dom h1)])]>
                   (<[fresh (dom h1) :=
                        CObj (stamp (clamp p)
                                (merge (record_of h <$> removed) aggs))]> h1)
             end).
Proof.
  intros Hd Hacc Hfin Hcur Hcs items h1 p tv.
  rewrite (thresholdByDepth_leaf_run h fin fs cur cs total b depth acc)
    by assumption.
  fold items. fold h1. unfold aggregate_heap. cbv zeta.
  assert (∀ x, x ∈ items → x ≠ fresh (dom h)) as Hfresh.
  { intros x Hx. apply list_elem_of_filter in Hx as [_ Hx].
    rewrite Forall_forall in Hcs. destruct (Hcs x Hx) as [o Ho].
    apply (lookup_Some_not_fresh _ _ _ Ho). }
  assert (fresh (dom h) ∉ items) as Hni.
  { intros Hin. apply (Hfresh _ Hin). reflexivity. }
  assert (record_of h1 <$> items = record_of h <$> items) as ->
    by apply records_insert, Hni.
  assert (∀ v, removed_of thresholdKey h1 v items =
               removed_of thresholdKey h v items) as Hremoved
    by (intros v; apply removed_of_insert, Hni).
  assert (∀ v, kept_after thresholdKey h1 v items fs =
               kept_after thresholdKey h v items fs) as Hkept
    by (intros v; apply kept_after_insert, Hni).
  rewrite Hremoved, Hkept. fold p. fold tv. rewrite clamp_is_nan.
  destruct (is_nan p); [reflexivity|].
  destruct (removed_of thresholdKey h tv items) as [|r0 rs] eqn:Hrem;
    [reflexivity|].
  replace (record_of h1 <$> r0 :: rs) with (record_of h <$> r0 :: rs);
    [reflexivity|].
  symmetry. apply records_insert.
  intros Hin. rewrite <- Hrem in Hin.
  apply elem_of_removed_of in Hin as [Hin _]. apply (Hfresh _ Hin).
  reflexivity.
Qed.

(** What the loop leaves of [finalDataset] is a part of it, in its order. *)
Lemma kept_after_sublist h tv items fs :
  kept_after thresholdKey h tv items fs `sublist_of` fs.
Proof.
  induction items as [|x items IH]; [reflexivity|].
  cbn [kept_after foldr]. fold (kept_after thresholdKey h tv items fs).
  destruct (below thresholdKey h tv x); [|exact IH].
  etransitivity; [apply remove_item_sublist|exact IH].
Qed.

(** A leaf-adjacent branch whose threshold function answers [NaN] is
    skipped: the heap only gets the new array [nextDataset]. *)
Lemma nan_threshold_skips_branch h fin fs cur cs total b depth acc :
  depth + 1 = drawDepth → groupBy !! depth = Some acc →
  h !! fin = Some (CArr fs) → h !! cur = Some (CArr cs) →
  Forall (is_record h) cs →
  let nextDataset := filter (λ x, matches h acc (key b) x = true) cs in
  is_nan (threshold (record_of h <$> nextDataset)) = true →
  thresholdByDepth merge aggs drawDepth groupBy threshold thresholdKey
    fin total cur b depth h =
  Some (tt, <[fresh (dom h) := CArr nextDataset]> h).
Proof.
  intros Hd Hacc Hfin Hcur Hcs items Hnan.
  rewrite (leaf_branch_run h fin fs cur cs total b depth acc) by assumption.
  fold items. rewrite Hnan. reflexivity.
Qed.

(** Occurrences in a filtered list. *)
Lemma count_occ_filter (P : loc → Prop) `{∀ x, Decision (P x)} cs y :
  count_occ Nat.eq_dec (filter P cs) y =
  if decide (P y) then count_occ Nat.eq_dec cs y else 0.
Proof.
  induction cs as [|x cs IH]; [destruct (decide (P y)); reflexivity|].
  rewrite filter_cons. destruct (decide (P x)) as [HPx|HPx]; simpl;
    rewrite IH; destruct (Nat.eq_dec x y) as [Heq|Hne]; try reflexivity;
    subst y; destruct (decide (P x)); try reflexivity; contradiction.
Qed.

(** When every record to remove is in [finalDataset] as often as in
    [nextDataset], every [indexOf] of the loop finds its record, and the
    loop removes the records below the threshold value and no other. *)
Lemma kept_after_count h tv items fs :
  (∀ x, x ∈ items → below thresholdKey h tv x = true →
        count_occ Nat.eq_dec items x ≤ count_occ Nat.eq_dec fs x) →
  ∀ y, count_occ Nat.eq_dec (kept_after thresholdKey h tv items fs) y =
       count_occ Nat.eq_dec fs y -
       count_occ Nat.eq_dec
         (filter (λ x, below thresholdKey h tv x = true) items) y.
Proof.
  induction items as [|x items IH]; intros Hpre y.
  { cbn. lia. }
  assert (∀ z, count_occ Nat.eq_dec (kept_after thresholdKey h tv items fs) z =
               count_occ Nat.eq_dec fs z -
               count_occ Nat.eq_dec
                 (filter (λ x, below thresholdKey h tv x = true) items) z)
    as IH'.
  { apply IH. intros z Hz Hb. specialize (Hpre z (list_elem_of_further _ _ _ Hz) Hb).
    simpl in Hpre. destruct (Nat.eq_dec x z); lia. }
  cbn [kept_after foldr]. fold (kept_after thresholdKey h tv items fs).
  rewrite filter_cons.
  destruct (below thresholdKey h tv x) eqn:Hb.
  - rewrite decide_True by reflexivity.
    specialize (Hpre x (list_elem_of_here _ _) Hb).
    assert (count_occ Nat.eq_dec
              (filter (λ x, below thresholdKey h tv x = true) items) x
            = count_occ Nat.eq_dec items x) as Hall.
    { rewrite count_occ_filter. rewrite decide_True by exact Hb. reflexivity. }
    assert (x ∈ kept_after thresholdKey h tv items fs) as Hin.
    { apply list_elem_of_In, (count_occ_In Nat.eq_dec).
      rewrite IH', Hall. simpl in Hpre.
      destruct (Nat.eq_dec x x); [lia|congruence]. }
    rewrite (remove_item_count _ _ _ Hin), IH'. simpl.
    destruct (decide (y = x)) as [->|Hne].
    + destruct (Nat.eq_dec x x); [|congruence].
      rewrite Hall. simpl in Hpre.
      destruct (Nat.eq_dec x x); [lia|congruence].
    + destruct (Nat.eq_dec x y); [congruence|reflexivity].
  - rewrite decide_False by discriminate. apply IH'.
Qed.

End branch_facts.

(** * The walk over the tree *)

(** Induction on a branch with the hypothesis for all its children. *)
Lemma branch_ind_values (P : branch → Prop) :
  (∀ k leaves, Forall P leaves → P (Branch k leaves)) → ∀ b, P b.
Proof.
  intros Hstep. fix IH 1. intros [k leaves]. apply Hstep.
  induction leaves as [|leaf leaves IHl]; constructor; [apply IH|exact IHl].
Qed.

Section tree_facts.

Variable merge : list obj → aggsT → obj.
Variable aggs : aggsT.
Variable drawDepth : nat.
Variable groupBy : list (obj → value).
Variable threshold : list obj → float.
Variable thresholdKey : accessorT.

Implicit Types (h : heap) (fin cur next x : loc).
Implicit Types (fs cs items : list loc).

Lemma never_below_removed_nil h total items p :
  never_below thresholdKey h total items → is_nan p = false →
  removed_of thresholdKey h (clamp p * total)%float items = [].
Proof.
  intros Hnb Hp. unfold removed_of.
  replace (filter _ items) with (@nil loc); [reflexivity|].
  symmetry. induction items as [|x items IH]; [reflexivity|].
  rewrite filter_cons, decide_False.
  - apply IH. intros y q Hy. apply Hnb. right. exact Hy.
  - rewrite (Hnb x p) by (exact Hp || left). discriminate.
Qed.

(** What a leaf-adjacent branch does to the heap: nothing, or one new
    record and a new content of [finalDataset]. *)
Lemma aggregate_heap_frame h fin fs items total :
  h !! fin = Some (CArr fs) →
  let h' := aggregate_heap merge aggs threshold thresholdKey
              h fin fs items total in
  ∃ fs', h' !! fin = Some (CArr fs') ∧
    (∀ l c, h !! l = Some c → l ≠ fin → h' !! l = Some c) ∧
    (never_below thresholdKey h total items → fs' = fs).
Proof.
  intros Hfin. unfold aggregate_heap. cbv zeta.
  set (p := threshold (record_of h <$> items)).
  rewrite clamp_is_nan. destruct (is_nan p) eqn:Hp.
  { exists fs. auto. }
  destruct (removed_of thresholdKey h (clamp p * total)%float items)
    as [|r0 rs] eqn:Hrem.
  { exists fs. auto. }
  eexists. split; [apply lookup_insert_eq|]. split.
  - intros l c Hl Hne. rewrite lookup_insert_ne by congruence.
    rewrite lookup_insert_ne; [exact Hl|].
    intros <-. rewrite fresh_not_in_dom in Hl. discriminate.
  - intros Hnb. rewrite (never_below_removed_nil _ _ _ _ Hnb Hp) in Hrem.
    discriminate.
Qed.

Lemma never_below_agree h h' total cs :
  (∀ x, x ∈ cs → record_of h' x = record_of h x) →
  never_below thresholdKey h total cs → never_below thresholdKey h' total cs.
Proof.
  intros Hag Hnb x p Hx Hp. unfold below. rewrite Hag by exact Hx.
  apply Hnb; assumption.
Qed.

Lemma never_below_filter h total (P : loc → Prop) `{∀ x, Decision (P x)} cs :
  never_below thresholdKey h total cs →
  never_below thresholdKey h total (filter P cs).
Proof.
  intros Hnb x p Hx. apply Hnb.
  apply list_elem_of_filter in Hx as [_ Hx]. exact Hx.
Qed.

(** A record of [h] is the same record in a heap that kept every cell
    but the array [fin]. *)
Lemma frame_record h h' fin fs x :
  h !! fin = Some (CArr fs) →
  (∀ l c, h !! l = Some c → l ≠ fin → h' !! l = Some c) →
  is_record h x → is_record h' x ∧ record_of h' x = record_of h x.
Proof.
  intros Hfin Hfr [o Ho].
  assert (h' !! x = Some (CObj o)) as Ho' by (apply Hfr; congruence).
  split; [exists o; exact Ho'|].
  rewrite (record_of_lookup _ _ _ Ho), (record_of_lookup _ _ _ Ho').
  reflexivity.
Qed.

(** [thresholdByDepth] returns on every branch of every tree.  It
    writes [finalDataset] only, and does not even write it when no record
    of [currentDataset] can be below a threshold value. *)
Lemma thresholdByDepth_run b :
  ∀ depth h fin fs cur cs total,
    drawDepth ≤ length groupBy →
    h !! fin = Some (CArr fs) → h !! cur = Some (CArr cs) →
    Forall (is_record h) cs →
    ∃ h' fs',
      thresholdByDepth merge aggs drawDepth groupBy threshold thresholdKey
        fin total cur b depth h = Some (tt, h') ∧
      h' !! fin = Some (CArr fs') ∧
      (∀ l c, h !! l = Some c → l ≠ fin → h' !! l = Some c) ∧
      (never_below thresholdKey h total cs → fs' = fs).
Proof.
  induction b as [k leaves IHleaves] using branch_ind_values.
  intros depth h fin fs cur cs total Hlen Hfin Hcur Hcs.
  destruct (decide (drawDepth ≤ depth)) as [Hge|Hlt].
  { exists h, fs. cbn [thresholdByDepth].
    rewrite (proj2 (Nat.leb_le drawDepth depth)) by exact Hge. auto. }
  destruct (lookup_lt_is_Some_2 groupBy depth) as [acc Hacc]; [lia|].
  set (items := filter (λ x, matches h acc k x = true) cs).
  set (next := fresh (dom h)).
  set (h1 := <[next := CArr items]> h).
  assert (Forall (is_record h) items) as Hitems by apply filter_records, Hcs.
  assert (fin ≠ next) as Hne by apply (lookup_Some_not_fresh _ _ _ Hfin).
  assert (h1 !! fin = Some (CArr fs)) as Hfin1
    by (unfold h1; rewrite lookup_insert_ne by congruence; exact Hfin).
  assert (∀ l c, h !! l = Some c → h1 !! l = Some c) as Hh1.
  { intros l c Hl. unfold h1. rewrite lookup_insert_ne; [exact Hl|].
    intros <-. unfold next in Hl. rewrite fresh_not_in_dom in Hl.
    discriminate. }
  assert (∀ x, is_record h x → record_of h1 x = record_of h x) as Hrec1.
  { intros x [o Ho]. rewrite (record_of_lookup _ _ _ Ho).
    apply record_of_lookup, Hh1, Ho. }
  assert (never_below thresholdKey h total cs →
          never_below thresholdKey h1 total items) as Hnb1.
  { intros Hnb. apply (never_below_agree h).
    - intros x Hx. apply Hrec1. rewrite Forall_forall in Hitems. auto.
    - apply never_below_filter, Hnb. }
  destruct (decide (depth + 1 = drawDepth)) as [Hleaf|Hinner].
  - (* the leaf-adjacent depth *)
    rewrite (thresholdByDepth_leaf_run _ _ _ _ _ _ _ _ fs cur cs _ _ _ acc)
      by assumption.
    cbn [key]. fold items. fold next. fold h1.
    destruct (aggregate_heap_frame h1 fin fs items total Hfin1)
      as (fs' & Hfin' & Hframe & Hquiet).
    eexists _, fs'. split; [reflexivity|]. split; [exact Hfin'|]. split.
    + intros l c Hl Hlf. apply Hframe; auto.
    + intros Hnb. apply Hquiet, Hnb1, Hnb.
  - (* above it: the children, from the last to the first *)
    cbn [thresholdByDepth key].
    rewrite (proj2 (Nat.leb_gt drawDepth depth)) by lia.
    cbv zeta. rewrite Hacc.
    rewrite (run_bind _ _ _ _ _ (Array_filter_run _ _ _ acc k Hcur Hcs)).
    rewrite (proj2 (Nat.eqb_neq (depth + 1) drawDepth)) by exact Hinner.
    fold items. fold next. fold h1.
    assert (h1 !! next = Some (CArr items)) as Hnext1
      by apply lookup_insert_eq.
    assert (Forall (is_record h1) items) as Hitems1.
    { eapply Forall_impl; [exact Hitems|]. intros x [o Ho].
      exists o. apply Hh1, Ho. }
    assert (∃ h' fs',
      while_rev
        (λ leaf (_ : unit),
           thresholdByDepth merge aggs drawDepth groupBy threshold
             thresholdKey fin total next leaf (depth + 1))
        leaves tt h1 = Some (tt, h') ∧
      h' !! fin = Some (CArr fs') ∧
      (∀ l c, h1 !! l = Some c → l ≠ fin → h' !! l = Some c) ∧
      (never_below thresholdKey h1 total items → fs' = fs))
      as (h' & fs' & Hrun & Hfin' & Hframe & Hquiet).
    { clear Hcur Hcs Hacc. induction IHleaves as [|leaf leaves IHleaf _ IHl].
      - exists h1, fs. auto.
      - destruct IHl as (h2 & fs2 & Hrun2 & Hfin2 & Hframe2 & Hquiet2).
        assert (h2 !! next = Some (CArr items)) as Hnext2
          by (apply Hframe2; [exact Hnext1|congruence]).
        assert (∀ x, x ∈ items →
                  is_record h2 x ∧ record_of h2 x = record_of h1 x) as Hrec2.
        { intros x Hx. apply (frame_record h1 h2 fin fs); auto.
          rewrite Forall_forall in Hitems1. auto. }
        assert (Forall (is_record h2) items) as Hitems2.
        { apply Forall_forall. intros x Hx. apply Hrec2, Hx. }
        destruct (IHleaf (depth + 1) h2 fin fs2 next items total
                    Hlen Hfin2 Hnext2 Hitems2)
          as (h3 & fs3 & Hrun3 & Hfin3 & Hframe3 & Hquiet3).
        exists h3, fs3. split; [|split; [exact Hfin3|split]].
        + cbn [while_rev]. rewrite (run_bind _ _ _ _ _ Hrun2). exact Hrun3.
        + intros l c Hl Hlf. apply Hframe3; auto.
        + intros Hnb. rewrite Hquiet3, Hquiet2; auto.
          apply (never_below_agree h1); [|exact Hnb].
          intros x Hx. apply Hrec2, Hx. }
    exists h', fs'. split; [exact Hrun|]. split; [exact Hfin'|]. split.
    + intros l c Hl Hlf. apply Hframe; auto.
    + intros Hnb. apply Hquiet, Hnb1, Hnb.
Qed.

End tree_facts.

(** * The method [_thresholdFunction] *)

Section thresholdFunction_facts.

Variable array_sum : list obj → accessorT → float.
Variable merge : list obj → aggsT → obj.

Implicit Types (h : heap) (data x : loc) (ds : list loc).
Implicit Types (this : Treemap) (tree : list branch).

Lemma Array_slice_run h data ds :
  h !! data = Some (CArr ds) →
  Array_slice data h = Some (fresh (dom h), <[fresh (dom h) := CArr ds]> h).
Proof.
  intros Hdata. unfold Array_slice.
  rewrite (run_bind _ _ _ _ _ (read_arr_run _ _ _ Hdata)). reflexivity.
Qed.

(** With both functions present the method returns, on every tree: a new
    array, every cell of the caller's heap as it was, and the elements of
    the input when no record can be below a threshold value. *)
Lemma thresholdFunction_run this data tree h ds threshold thresholdKey :
  _threshold this = Some threshold →
  _thresholdKey this = Some thresholdKey →
  _drawDepth this ≤ length (_groupBy this) →
  h !! data = Some (CArr ds) → Forall (is_record h) ds →
  ∃ h' out,
    _thresholdFunction array_sum merge this data tree h =
      Some (fresh (dom h), h') ∧
    h' !! fresh (dom h) = Some (CArr out) ∧
    (∀ l c, h !! l = Some c → h' !! l = Some c) ∧
    (never_below thresholdKey h
       (array_sum (record_of h <$> ds) thresholdKey) ds → out = ds).
Proof.
  intros Hthr Hkey Hlen Hdata Hds. unfold _thresholdFunction.
  rewrite Hthr, Hkey.
  rewrite (run_bind _ _ _ _ _ (Array_slice_run _ _ _ Hdata)).
  set (fin := fresh (dom h)). set (h0 := <[fin := CArr ds]> h).
  assert (∀ l c, h !! l = Some c → h0 !! l = Some c ∧ l ≠ fin) as Hh0.
  { intros l c Hl.
    assert (l ≠ fin) as Hne by apply (lookup_Some_not_fresh _ _ _ Hl).
    split; [|exact Hne]. unfold h0.
    rewrite lookup_insert_ne by congruence. exact Hl. }
  assert (h0 !! fin = Some (CArr ds)) as Hfin0 by apply lookup_insert_eq.
  assert (∀ x, x ∈ ds →
            is_record h0 x ∧ record_of h0 x = record_of h x) as Hrec0.
  { intros x Hx. rewrite Forall_forall in Hds.
    destruct (Hds x Hx) as [o Ho]. destruct (Hh0 _ _ Ho) as [Ho0 _].
    split; [exists o; exact Ho0|].
    rewrite (record_of_lookup _ _ _ Ho), (record_of_lookup _ _ _ Ho0).
    reflexivity. }
  assert (Forall (is_record h0) ds) as Hds0.
  { apply Forall_forall. intros x Hx. apply Hrec0, Hx. }
  rewrite (run_bind _ _ _ _ _ (read_records_run _ _ _ Hfin0 Hds0)).
  assert (record_of h0 <$> ds = record_of h <$> ds) as ->.
  { apply list_fmap_ext. intros i x Hi. apply Hrec0.
    apply list_elem_of_lookup. eauto. }
  cbv zeta. set (total := array_sum (record_of h <$> ds) thresholdKey).
  assert (∃ h' out,
    while_rev
      (λ b (_ : unit),
         thresholdByDepth merge (_aggs this) (_drawDepth this)
           (_groupBy this) threshold thresholdKey fin total data b 0)
      tree tt h0 = Some (tt, h') ∧
    h' !! fin = Some (CArr out) ∧
    (∀ l c, h0 !! l = Some c → l ≠ fin → h' !! l = Some c) ∧
    (never_below thresholdKey h0 total ds → out = ds))
    as (h' & out & Hrun & Hfin' & Hframe & Hquiet).
  { induction tree as [|b tree IH].
    - exists h0, ds. auto.
    - destruct IH as (h2 & out2 & Hrun2 & Hfin2 & Hframe2 & Hquiet2).
      assert (h2 !! data = Some (CArr ds)) as Hdata2.
      { destruct (Hh0 _ _ Hdata). apply Hframe2; assumption. }
      assert (∀ x, x ∈ ds →
                is_record h2 x ∧ record_of h2 x = record_of h0 x) as Hrec2.
      { intros x Hx. apply (frame_record h0 h2 fin ds); auto.
        apply Hrec0, Hx. }
      assert (Forall (is_record h2) ds) as Hds2.
      { apply Forall_forall. intros x Hx. apply Hrec2, Hx. }
      destruct (thresholdByDepth_run merge (_aggs this) (_drawDepth this)
                  (_groupBy this) threshold thresholdKey b 0 h2 fin out2
                  data ds total Hlen Hfin2 Hdata2 Hds2)
        as (h3 & out3 & Hrun3 & Hfin3 & Hframe3 & Hquiet3).
      exists h3, out3. split; [|split; [exact Hfin3|split]].
      + cbn [while_rev]. rewrite (run_bind _ _ _ _ _ Hrun2). exact Hrun3.
      + intros l c Hl Hlf. apply Hframe3; auto.
      + intros Hnb. rewrite Hquiet3, Hquiet2; auto.
        apply (never_below_agree thresholdKey h0); [|exact Hnb].
        intros x Hx. apply Hrec2, Hx. }
  rewrite (run_bind _ _ _ _ _ Hrun).
  exists h', out. split; [reflexivity|]. split; [exact Hfin'|]. split.
  - intros l c Hl. destruct (Hh0 _ _ Hl). apply Hframe; assumption.
  - intros Hnb. apply Hquiet.
    apply (never_below_agree thresholdKey h); [|exact Hnb].
    intros x Hx. apply Hrec0, Hx.
Qed.

End thresholdFunction_facts.

(** * The whole walk on the tree of a nested dataset *)

Section walk_facts.

Variable merge : list obj → aggsT → obj.
Variable aggs : aggsT.
Variable drawDepth : nat.
Variable groupBy : list (obj → value).
Variable threshold : list obj → float.
Variable thresholdKey : accessorT.

Implicit Types (h : heap) (fin cur next x y : loc).
Implicit Types (fs cs items : list loc).

(** The views of two heaps agree on a list whose records they agree on. *)
Lemma matches_filter_agree h h0 acc k cs :
  (∀ x, x ∈ cs → record_of h x = record_of h0 x) →
  filter (λ x, matches h acc k x = true) cs =
  filter (λ x, matches h0 acc k x = true) cs.
Proof.
  induction cs as [|x cs IH]; intros Hag; [reflexivity|].
  rewrite !filter_cons.
  assert (matches h acc k x = matches h0 acc k x) as Hm
    by (unfold matches; rewrite (Hag x) by left; reflexivity).
  rewrite IH by (intros y Hy; apply Hag; right; exact Hy).
  destruct (decide (matches h acc k x = true)),
    (decide (matches h0 acc k x = true)); congruence.
Qed.

Lemma records_agree h h0 items :
  (∀ x, x ∈ items → record_of h x = record_of h0 x) →
  record_of h <$> items = record_of h0 <$> items.
Proof.
  intros Hag. apply list_fmap_ext. intros i x Hi. apply Hag.
  apply list_elem_of_lookup. eauto.
Qed.

Lemma below_agree h h0 tv x :
  record_of h x = record_of h0 x →
  below thresholdKey h tv x = below thresholdKey h0 tv x.
Proof. intros Hx. unfold below. rewrite Hx. reflexivity. Qed.

Lemma removed_of_agree h h0 tv items :
  (∀ x, x ∈ items → record_of h x = record_of h0 x) →
  removed_of thresholdKey h tv items = removed_of thresholdKey h0 tv items.
Proof.
  intros Hag. unfold removed_of. f_equal.
  induction items as [|x items IH]; [reflexivity|].
  rewrite !filter_cons.
  assert (below thresholdKey h tv x = below thresholdKey h0 tv x) as Hb
    by (apply below_agree, Hag; left).
  rewrite IH by (intros y Hy; apply Hag; right; exact Hy).
  destruct (decide (below thresholdKey h tv x = true)),
    (decide (below thresholdKey h0 tv x = true)); congruence.
Qed.

Lemma kept_after_agree h h0 tv items fs :
  (∀ x, x ∈ items → record_of h x = record_of h0 x) →
  kept_after thresholdKey h tv items fs =
  kept_after thresholdKey h0 tv items fs.
Proof.
  intros Hag. induction items as [|x items IH]; [reflexivity|].
  cbn [kept_after foldr].
  fold (kept_after thresholdKey h tv items fs).
  fold (kept_after thresholdKey h0 tv items fs).
  rewrite (below_agree h h0) by (apply Hag; left).
  rewrite IH; [reflexivity|]. intros y Hy. apply Hag. right. exact Hy.
Qed.

(** [removed_in], case by case. *)
Lemma removed_in_deep h total cs b depth x :
  drawDepth ≤ depth →
  removed_in drawDepth groupBy threshold thresholdKey h total cs b depth x
  = false.
Proof.
  intros Hge. destruct b as [k leaves]. cbn [removed_in].
  rewrite (proj2 (Nat.leb_le drawDepth depth)) by exact Hge. reflexivity.
Qed.

Lemma removed_in_leaf h total cs b depth acc x :
  depth + 1 = drawDepth → groupBy !! depth = Some acc →
  let items := filter (λ y, matches h acc (key b) y = true) cs in
  removed_in drawDepth groupBy threshold thresholdKey h total cs b depth x
  = negb (is_nan (threshold (record_of h <$> items)))
    && bool_decide (x ∈ items)
    && below thresholdKey h
         (clamp (threshold (record_of h <$> items)) * total)%float x.
Proof.
  intros Hd Hacc. destruct b as [k leaves]. cbn [removed_in key].
  rewrite (proj2 (Nat.leb_gt drawDepth depth)) by lia. rewrite Hacc.
  rewrite (proj2 (Nat.eqb_eq (depth + 1) drawDepth)) by exact Hd.
  reflexivity.
Qed.

Lemma removed_in_inner h total cs k leaves depth acc x :
  depth + 1 < drawDepth → groupBy !! depth = Some acc →
  removed_in drawDepth groupBy threshold thresholdKey h total cs
    (Branch k leaves) depth x
  = existsb
      (λ leaf,
         removed_in drawDepth groupBy threshold thresholdKey h total
           (filter (λ y, matches h acc k y = true) cs) leaf (depth + 1) x)
      leaves.
Proof.
  intros Hd Hacc. cbn [removed_in key].
  rewrite (proj2 (Nat.leb_gt drawDepth depth)) by lia. rewrite Hacc.
  rewrite (proj2 (Nat.eqb_neq (depth + 1) drawDepth)) by lia.
  reflexivity.
Qed.

(** A record a branch removes is one of [currentDataset] with the key of
    the branch. *)
Lemma removed_in_matches h total b :
  ∀ cs depth x,
    removed_in drawDepth groupBy threshold thresholdKey h total cs b depth x
    = true →
    x ∈ cs ∧
    ∃ acc, groupBy !! depth = Some acc ∧ matches h acc (key b) x = true.
Proof.
  induction b as [k leaves IH] using branch_ind_values.
  intros cs depth x Hrem.
  destruct (decide (drawDepth ≤ depth)) as [Hge|Hlt].
  { rewrite removed_in_deep in Hrem by exact Hge. discriminate. }
  destruct (groupBy !! depth) as [acc|] eqn:Hacc.
  2:{ cbn [removed_in] in Hrem.
      rewrite (proj2 (Nat.leb_gt drawDepth depth)), Hacc in Hrem by lia.
      discriminate. }
  destruct (decide (depth + 1 = drawDepth)) as [Hleaf|Hinner].
  - rewrite (removed_in_leaf _ _ _ _ _ acc) in Hrem by assumption.
    apply andb_prop in Hrem as [Hrem _].
    apply andb_prop in Hrem as [_ Hin].
    apply bool_decide_eq_true in Hin.
    apply list_elem_of_filter in Hin as [Hm Hin]. eauto.
  - rewrite (removed_in_inner _ _ _ _ _ _ acc) in Hrem by (assumption || lia).
    apply existsb_exists in Hrem as (leaf & Hleaf & Hrem).
    rewrite Forall_forall in IH.
    apply (IH leaf (proj2 (list_elem_of_In _ _) Hleaf)) in Hrem as [Hin _].
    apply list_elem_of_filter in Hin as [Hm Hin]. eauto.
Qed.

(** The walk over a list of sibling branches with different keys.  When
    [finalDataset] holds the records these branches can reach as often as
    [currentDataset] does, every [indexOf] of the walk finds its record, and
    afterwards a record of the heap is in [finalDataset] as often as before,
    or not at all when one of the branches removes it. *)
Lemma siblings_run forest :
  distinct_keys forest →
  ∀ depth h h0 fin fs cur cs total,
    drawDepth ≤ length groupBy →
    h !! fin = Some (CArr fs) → h !! cur = Some (CArr cs) → cur ≠ fin →
    Forall (is_record h) cs →
    (∀ x, x ∈ cs → record_of h x = record_of h0 x) →
    (∀ x acc b, x ∈ cs → groupBy !! depth = Some acc → b ∈ forest →
       matches h0 acc (key b) x = true →
       count_occ Nat.eq_dec fs x = count_occ Nat.eq_dec cs x) →
    ∃ h' fs',
      while_rev
        (λ b (_ : unit),
           thresholdByDepth merge aggs drawDepth groupBy threshold
             thresholdKey fin total cur b depth)
        forest tt h = Some (tt, h') ∧
      h' !! fin = Some (CArr fs') ∧
      (∀ l c, h !! l = Some c → l ≠ fin → h' !! l = Some c) ∧
      (∀ y, is_Some (h !! y) →
         count_occ Nat.eq_dec fs' y =
         if existsb
              (λ b, removed_in drawDepth groupBy threshold thresholdKey
                      h0 total cs b depth y)
              forest
         then 0 else count_occ Nat.eq_dec fs y).
Proof.
  induction 1 as [|k leaves bs Hdist Hleaves IHleaves Hbs IHbs];
    intros depth h h0 fin fs cur cs total Hlen Hfin Hcur Hcf Hcs Hag Hinv.
  { exists h, fs. cbn. auto. }
  (* the later siblings come first *)
  destruct (IHbs depth h h0 fin fs cur cs total Hlen Hfin Hcur Hcf Hcs Hag)
    as (h2 & fs2 & Hrun2 & Hfin2 & Hframe2 & Hcount2).
  { intros x acc b Hx Hacc Hb. apply (Hinv x acc b Hx Hacc). right. exact Hb. }
  cbn [while_rev]. rewrite (run_bind _ _ _ _ _ Hrun2). clear Hrun2 IHbs.
  assert (∀ y, is_Some (h !! y) → is_Some (h2 !! y)) as Hold2.
  { intros y [c Hy]. destruct (decide (y = fin)) as [->|Hne]; [eauto|].
    exists c. apply Hframe2; assumption. }
  assert (h2 !! cur = Some (CArr cs)) as Hcur2
    by (apply Hframe2; [exact Hcur|exact Hcf]).
  assert (∀ x, x ∈ cs → is_record h2 x ∧ record_of h2 x = record_of h x)
    as Hrec2.
  { intros x Hx. apply (frame_record h h2 fin fs); auto.
    rewrite Forall_forall in Hcs. auto. }
  assert (Forall (is_record h2) cs) as Hcs2.
  { apply Forall_forall. intros x Hx. apply Hrec2, Hx. }
  assert (∀ x, x ∈ cs → record_of h2 x = record_of h0 x) as Hag2.
  { intros x Hx. rewrite (proj2 (Hrec2 x Hx)). apply Hag, Hx. }
  set (b := Branch k leaves).
  destruct (decide (drawDepth ≤ depth)) as [Hge|Hlt].
  { exists h2, fs2. split.
    - unfold b. cbn [thresholdByDepth].
      rewrite (proj2 (Nat.leb_le drawDepth depth)) by exact Hge. reflexivity.
    - split; [exact Hfin2|]. split; [exact Hframe2|].
      intros y Hy. cbn [existsb]. rewrite removed_in_deep by exact Hge.
      apply Hcount2, Hy. }
  destruct (lookup_lt_is_Some_2 groupBy depth) as [acc Hacc]; [lia|].
  set (items := filter (λ x, matches h0 acc k x = true) cs).
  assert (filter (λ x, matches h2 acc k x = true) cs = items) as Hitems2
    by apply matches_filter_agree, Hag2.
  assert (∀ x, x ∈ items → x ∈ cs ∧ matches h0 acc k x = true) as Hitems.
  { intros x Hx. apply list_elem_of_filter in Hx. tauto. }
  (* the records of this branch are all still there *)
  assert (∀ x, x ∈ items →
            count_occ Nat.eq_dec fs2 x = count_occ Nat.eq_dec items x)
    as Hthere.
  { intros x Hx. destruct (Hitems x Hx) as [Hxcs Hm].
    assert (is_Some (h !! x)) as Hsome.
    { rewrite Forall_forall in Hcs. destruct (Hcs x Hxcs) as [o Ho]. eauto. }
    rewrite (Hcount2 x Hsome).
    assert (existsb
              (λ b', removed_in drawDepth groupBy threshold thresholdKey
                       h0 total cs b' depth x) bs = false) as ->.
    { apply not_true_is_false. intros Hex.
      apply existsb_exists in Hex as (b' & Hb' & Hrem).
      apply removed_in_matches in Hrem as (_ & acc' & Hacc' & Hm').
      rewrite Hacc in Hacc'. injection Hacc' as <-.
      unfold matches in Hm, Hm'.
      pose proof (strict_eq_both _ _ _ Hm Hm') as Heq.
      rewrite Forall_forall in Hdist.
      rewrite (Hdist b' (proj2 (list_elem_of_In _ _) Hb')) in Heq.
      discriminate. }
    rewrite (Hinv x acc b Hxcs Hacc (list_elem_of_here _ _) Hm).
    unfold items. rewrite count_occ_filter.
    rewrite decide_True by exact Hm. reflexivity. }
  assert (∀ x, x ∈ items → record_of h2 x = record_of h0 x) as Hagi.
  { intros x Hx. apply Hag2, Hitems, Hx. }
  set (next := fresh (dom h2)).
  set (h3 := <[next := CArr items]> h2).
  assert (∀ l c, h2 !! l = Some c → h3 !! l = Some c) as Hh3.
  { intros l c Hl. unfold h3. rewrite lookup_insert_ne; [exact Hl|].
    symmetry. apply (lookup_Some_not_fresh _ _ _ Hl). }
  assert (∀ l c, h !! l = Some c → l ≠ fin → h3 !! l = Some c) as Hframe3.
  { intros l c Hl Hne. apply Hh3, Hframe2; assumption. }
  destruct (decide (depth + 1 = drawDepth)) as [Hleaf|Hinner].
  - (* the leaf-adjacent depth *)
    rewrite (leaf_branch_run merge aggs drawDepth groupBy threshold
               thresholdKey h2 fin fs2 cur cs total b depth acc)
      by assumption.
    change (key b) with k. rewrite Hitems2. fold next. fold h3.
    rewrite (records_agree h2 h0 items Hagi).
    rewrite (removed_of_agree h2 h0 _ items Hagi).
    rewrite (kept_after_agree h2 h0 _ items fs2 Hagi).
    set (p := threshold (record_of h0 <$> items)).
    set (tv := (clamp p * total)%float).
    assert (∀ y, removed_in drawDepth groupBy threshold thresholdKey
                   h0 total cs b depth y =
                 negb (is_nan p) && bool_decide (y ∈ items)
                 && below thresholdKey h0 tv y) as Hrem_b.
    { intros y. apply (removed_in_leaf h0 total cs b depth acc y Hleaf Hacc). }
    assert (∃ h' fs',
      (if is_nan p then h3
       else match removed_of thresholdKey h0 tv items with
            | [] => h3
            | removed =>
                <[fin := CArr (kept_after thresholdKey h0 tv items fs2
                               ++ [fresh (dom h3)])]>
                  (<[fresh (dom h3) :=
                       CObj (stamp (clamp p)
                               (merge (record_of h2 <$> removed) aggs))]> h3)
            end) = h' ∧
      h' !! fin = Some (CArr fs') ∧
      (∀ l c, h3 !! l = Some c → l ≠ fin → h' !! l = Some c) ∧
      (∀ y, is_Some (h3 !! y) →
         count_occ Nat.eq_dec fs' y =
         if removed_in drawDepth groupBy threshold thresholdKey
              h0 total cs b depth y
         then 0 else count_occ Nat.eq_dec fs2 y))
      as (h' & fs' & Hh' & Hfin' & Hframe' & Hcount').
    { assert (h3 !! fin = Some (CArr fs2)) as Hfin3 by apply Hh3, Hfin2.
      destruct (is_nan p) eqn:Hp.
      { exists h3, fs2. split; [reflexivity|]. split; [exact Hfin3|].
        split; [auto|]. intros y _. rewrite Hrem_b. reflexivity. }
      destruct (removed_of thresholdKey h0 tv items) as [|r0 rs] eqn:Hrem.
      { exists h3, fs2. split; [reflexivity|]. split; [exact Hfin3|].
        split; [auto|]. intros y _. rewrite Hrem_b.
        destruct (bool_decide (y ∈ items)) eqn:Hy; [|reflexivity].
        destruct (below thresholdKey h0 tv y) eqn:Hb; [|reflexivity].
        exfalso. apply bool_decide_eq_true in Hy.
        assert (y ∈ removed_of thresholdKey h0 tv items) as Hin
          by (apply elem_of_removed_of; auto).
        rewrite Hrem in Hin. apply elem_of_nil in Hin. exact Hin. }
      set (m := fresh (dom h3)).
      set (K := kept_after thresholdKey h0 tv items fs2).
      eexists _, (K ++ [m]). split; [reflexivity|].
      split; [apply lookup_insert_eq|]. split.
      { intros l c Hl Hne. rewrite lookup_insert_ne by congruence.
        rewrite lookup_insert_ne; [exact Hl|].
        symmetry. apply (lookup_Some_not_fresh _ _ _ Hl). }
      intros y [c Hy].
      assert (m ≠ y) as Hmy
        by (symmetry; apply (lookup_Some_not_fresh _ _ _ Hy)).
      rewrite count_occ_app. cbn [count_occ].
      destruct (Nat.eq_dec m y) as [Heq|_]; [congruence|].
      rewrite Nat.add_0_r. unfold K.
      rewrite kept_after_count.
      2:{ intros x Hx _. rewrite (Hthere x Hx). lia. }
      rewrite count_occ_filter, Hrem_b. simpl negb. rewrite andb_true_l.
      destruct (below thresholdKey h0 tv y) eqn:Hb.
      - rewrite decide_True by reflexivity. rewrite andb_true_r.
        destruct (bool_decide (y ∈ items)) eqn:Hyi.
        + apply bool_decide_eq_true in Hyi. rewrite (Hthere y Hyi). lia.
        + apply bool_decide_eq_false in Hyi.
          rewrite (proj1 (count_occ_not_In Nat.eq_dec items y)); [lia|].
          intros Hin. apply Hyi, list_elem_of_In, Hin.
      - rewrite decide_False by discriminate. rewrite andb_false_r. lia. }
    exists h', fs'. rewrite <- Hh'. split; [reflexivity|].
    rewrite Hh'. split; [exact Hfin'|]. split.
    + intros l c Hl Hne. apply Hframe'; auto.
    + intros y Hy. cbn [existsb].
      assert (is_Some (h3 !! y)) as Hy3.
      { destruct (Hold2 y Hy) as [c Hc]. exists c. apply Hh3, Hc. }
      rewrite (Hcount' y Hy3), (Hcount2 y Hy).
      destruct (removed_in drawDepth groupBy threshold thresholdKey
                  h0 total cs b depth y); reflexivity.
  - (* above it: the children, which have different keys *)
    unfold b at 1. cbn [thresholdByDepth key].
    rewrite (proj2 (Nat.leb_gt drawDepth depth)) by lia.
    cbv zeta. rewrite Hacc.
    rewrite (run_bind _ _ _ _ _ (Array_filter_run _ _ _ acc k Hcur2 Hcs2)).
    rewrite (proj2 (Nat.eqb_neq (depth + 1) drawDepth)) by exact Hinner.
    rewrite Hitems2. fold next. fold h3.
    assert (h3 !! fin = Some (CArr fs2)) as Hfin3 by apply Hh3, Hfin2.
    assert (h3 !! next = Some (CArr items)) as Hnext3
      by apply lookup_insert_eq.
    assert (∀ x, x ∈ items →
              is_record h3 x ∧ record_of h3 x = record_of h0 x) as Hrec3.
    { intros x Hx. destruct (Hitems x Hx) as [Hxcs _].
      destruct (Hrec2 x Hxcs) as [[o Ho] _].
      pose proof (Hh3 _ _ Ho) as Ho3. split; [exists o; exact Ho3|].
      rewrite (record_of_lookup _ _ _ Ho3), <- (record_of_lookup _ _ _ Ho).
      apply Hag2, Hxcs. }
    destruct (IHleaves (depth + 1) h3 h0 fin fs2 next items total Hlen
                Hfin3 Hnext3)
      as (h' & fs' & Hrun' & Hfin' & Hframe' & Hcount').
    { symmetry. apply (lookup_Some_not_fresh _ _ _ Hfin2). }
    { apply Forall_forall. intros x Hx. apply Hrec3, Hx. }
    { intros x Hx. apply Hrec3, Hx. }
    { intros x acc' leaf Hx _ _ _. apply Hthere, Hx. }
    exists h', fs'. split; [exact Hrun'|]. split; [exact Hfin'|]. split.
    + intros l c Hl Hne. apply Hframe'; auto.
    + intros y Hy. cbn [existsb].
      assert (is_Some (h3 !! y)) as Hy3.
      { destruct (Hold2 y Hy) as [c Hc]. exists c. apply Hh3, Hc. }
      rewrite (Hcount' y Hy3), (Hcount2 y Hy).
      unfold b. rewrite (removed_in_inner h0 total cs k leaves depth acc y)
        by (assumption || lia).
      fold items.
      destruct (existsb _ leaves); reflexivity.
Qed.

(** Among siblings with different keys, a key names one branch. *)
Lemma distinct_keys_unique forest :
  distinct_keys forest →
  ∀ b b', b ∈ forest → b' ∈ forest →
    strict_eq (key b) (key b') = true → b = b'.
Proof.
  induction 1 as [|k leaves bs Hdist _ _ _ IH]; intros b b' Hb Hb' Heq.
  { apply elem_of_nil in Hb. destruct Hb. }
  rewrite Forall_forall in Hdist.
  apply elem_of_cons in Hb as [->|Hb]; apply elem_of_cons in Hb' as [->|Hb'].
  - reflexivity.
  - cbn [key] in Heq. rewrite (Hdist b' Hb') in Heq. discriminate.
  - apply strict_eq_sym in Heq. cbn [key] in Heq.
    rewrite (Hdist b Hb) in Heq. discriminate.
  - apply IH; assumption.
Qed.

Lemma distinct_keys_leaves forest k leaves :
  distinct_keys forest → Branch k leaves ∈ forest → distinct_keys leaves.
Proof.
  induction 1 as [|k0 leaves0 bs _ Hleaves _ _ IH]; intros Hin.
  { apply elem_of_nil in Hin. destruct Hin. }
  apply elem_of_cons in Hin as [Heq|Hin]; [|apply IH, Hin].
  injection Heq as -> ->. exact Hleaves.
Qed.

(** Of the siblings, only the branch with the key of a record can remove
    the record. *)
Lemma removed_by_siblings forest h total cs depth acc b x :
  distinct_keys forest → b ∈ forest →
  groupBy !! depth = Some acc → matches h acc (key b) x = true →
  existsb
    (λ b', removed_in drawDepth groupBy threshold thresholdKey
             h total cs b' depth x)
    forest
  = removed_in drawDepth groupBy threshold thresholdKey h total cs b depth x.
Proof.
  intros Hdist Hb Hacc Hm.
  destruct (removed_in drawDepth groupBy threshold thresholdKey
              h total cs b depth x) eqn:Hrem.
  - apply existsb_exists. exists b. split; [|exact Hrem].
    apply list_elem_of_In, Hb.
  - apply not_true_is_false. intros Hex.
    apply existsb_exists in Hex as (b' & Hb' & Hrem').
    apply list_elem_of_In in Hb'.
    pose proof Hrem' as Hm'.
    apply removed_in_matches in Hm' as (_ & acc' & Hacc' & Hm').
    rewrite Hacc in Hacc'. injection Hacc' as <-.
    unfold matches in Hm, Hm'.
    pose proof (strict_eq_both _ _ _ Hm Hm') as Heq.
    rewrite (distinct_keys_unique forest Hdist b b' Hb Hb' Heq) in Hrem.
    congruence.
Qed.

(** What the walk reaches is a part of what it started with, deeper. *)
Lemma reaches_elem_of h forest cs depth b cs' depth' :
  reaches drawDepth groupBy h forest cs depth b cs' depth' →
  ∀ x, x ∈ cs' → x ∈ cs.
Proof.
  induction 1 as [|forest cs depth k leaves acc b cs' depth' _ _ _ _ IH];
    intros x Hx; [exact Hx|].
  apply IH in Hx. apply list_elem_of_filter in Hx as [_ Hx]. exact Hx.
Qed.

(** A record of the [nextDataset] of a leaf-adjacent branch the walk
    reaches is removed by the walk exactly when that branch removes it. *)
Lemma removed_by_reached h total forest cs depth b cs' depth' :
  reaches drawDepth groupBy h forest cs depth b cs' depth' →
  distinct_keys forest →
  ∀ acc x,
    groupBy !! depth' = Some acc →
    x ∈ filter (λ y, matches h acc (key b) y = true) cs' →
    existsb
      (λ b', removed_in drawDepth groupBy threshold thresholdKey
               h total cs b' depth x)
      forest
    = removed_in drawDepth groupBy threshold thresholdKey
        h total cs' b depth' x.
Proof.
  induction 1
    as [forest cs depth b Hb _
       |forest cs depth k leaves acc0 b cs' depth' Hin Hd Hacc0 Hreach IH];
    intros Hdist acc x Hacc Hx.
  - apply list_elem_of_filter in Hx as [Hm _].
    apply (removed_by_siblings forest h total cs depth acc b x); assumption.
  - assert (x ∈ filter (λ y, matches h acc0 k y = true) cs) as Hxk.
    { apply (reaches_elem_of _ _ _ _ _ _ _ Hreach).
      apply list_elem_of_filter in Hx as [_ Hx]. exact Hx. }
    apply list_elem_of_filter in Hxk as [Hmk _].
    rewrite (removed_by_siblings forest h total cs depth acc0
               (Branch k leaves) x Hdist Hin Hacc0 Hmk).
    rewrite (removed_in_inner h total cs k leaves depth acc0 x Hd Hacc0).
    apply (IH (distinct_keys_leaves forest k leaves Hdist Hin) acc x Hacc Hx).
Qed.

End walk_facts.

Section walk_of_the_method.

Variable array_sum : list obj → accessorT → float.
Variable merge : list obj → aggsT → obj.

Implicit Types (h : heap) (data x : loc) (ds : list loc).
Implicit Types (this : Treemap) (tree : list branch).

(** The whole method on the tree of a nested dataset: a record of the
    input is in the output as often as in the input, or not at all when a
    leaf-adjacent branch removes it.  So every branch finds
    [finalDataset] holding its records as often as its [nextDataset] does,
    and every removal finds the record it is after. *)
Lemma thresholdFunction_removes this data tree h ds threshold thresholdKey :
  _threshold this = Some threshold →
  _thresholdKey this = Some thresholdKey →
  _drawDepth this ≤ length (_groupBy this) →
  h !! data = Some (CArr ds) → Forall (is_record h) ds →
  distinct_keys tree →
  let totalSum := array_sum (record_of h <$> ds) thresholdKey in
  ∃ out h',
    _thresholdFunction array_sum merge this data tree h = Some (out, h') ∧
    ∃ final,
      h' !! out = Some (CArr final) ∧
      ∀ x, x ∈ ds →
        count_occ Nat.eq_dec final x =
        if existsb
             (λ b, removed_in (_drawDepth this) (_groupBy this) threshold
                     thresholdKey h totalSum ds b 0 x)
             tree
        then 0 else count_occ Nat.eq_dec ds x.
Proof.
  intros Hthr Hkey Hlen Hdata Hds Hdist totalSum. unfold _thresholdFunction.
  rewrite Hthr, Hkey.
  rewrite (run_bind _ _ _ _ _ (Array_slice_run _ _ _ Hdata)).
  set (fin := fresh (dom h)). set (h0 := <[fin := CArr ds]> h).
  assert (∀ l c, h !! l = Some c → h0 !! l = Some c ∧ l ≠ fin) as Hh0.
  { intros l c Hl.
    assert (l ≠ fin) as Hne by apply (lookup_Some_not_fresh _ _ _ Hl).
    split; [|exact Hne]. unfold h0.
    rewrite lookup_insert_ne by congruence. exact Hl. }
  assert (h0 !! fin = Some (CArr ds)) as Hfin0 by apply lookup_insert_eq.
  assert (∀ x, x ∈ ds →
            is_record h0 x ∧ record_of h0 x = record_of h x) as Hrec0.
  { intros x Hx. rewrite Forall_forall in Hds.
    destruct (Hds x Hx) as [o Ho]. destruct (Hh0 _ _ Ho) as [Ho0 _].
    split; [exists o; exact Ho0|].
    rewrite (record_of_lookup _ _ _ Ho), (record_of_lookup _ _ _ Ho0).
    reflexivity. }
  assert (Forall (is_record h0) ds) as Hds0.
  { apply Forall_forall. intros x Hx. apply Hrec0, Hx. }
  rewrite (run_bind _ _ _ _ _ (read_records_run _ _ _ Hfin0 Hds0)).
  assert (record_of h0 <$> ds = record_of h <$> ds) as ->.
  { apply list_fmap_ext. intros i x Hi. apply Hrec0.
    apply list_elem_of_lookup. eauto. }
  cbv zeta. fold totalSum.
  destruct (Hh0 _ _ Hdata) as [Hdata0 Hne].
  destruct (siblings_run merge (_aggs this) (_drawDepth this) (_groupBy this)
              threshold thresholdKey tree Hdist 0 h0 h fin ds data ds
              totalSum Hlen Hfin0 Hdata0 Hne Hds0)
    as (h' & final & Hrun & Hfin' & _ & Hcount).
  { intros x Hx. apply Hrec0, Hx. }
  { reflexivity. }
  rewrite (run_bind _ _ _ _ _ Hrun).
  exists fin, h'. split; [reflexivity|]. exists final. split; [exact Hfin'|].
  intros x Hx. apply Hcount. destruct (Hrec0 x Hx) as [[o Ho] _]. eauto.
Qed.

End walk_of_the_method.

(** * The claims about [_thresholdFunction] *)

Section method_claims.

Variable array_sum : list obj → accessorT → float.
Variable merge : list obj → aggsT → obj.

Implicit Types (h : heap) (data x : loc) (ds : list loc).
Implicit Types (this : Treemap) (tree : list branch).

(** C2. When the threshold function or the accessor [thresholdKey] is
    absent, [_thresholdFunction] is a no-op: it returns the very array it
    was given and leaves the heap as it was, so the records, their order
    and their number are those of the input and no aggregate is added. *)
Theorem absent_threshold_is_noop this data tree h :
  _threshold this = None ∨ _thresholdKey this = None →
  _thresholdFunction array_sum merge this data tree h = Some (data, h).
Proof.
  intros [Hnone|Hnone]; unfold _thresholdFunction; rewrite Hnone.
  - reflexivity.
  - destruct (_threshold this); reflexivity.
Qed.

(** C9. When both functions are present, [_thresholdFunction] returns
    a new array: its reference is none of the caller's heap, so it does
    not alias the input array, and after the call the input array holds
    the same records in the same order; every write went to the copy, and
    every cell the caller had is as it was. *)
Theorem input_array_not_mutated this data tree h ds threshold thresholdKey :
  _threshold this = Some threshold →
  _thresholdKey this = Some thresholdKey →
  _drawDepth this ≤ length (_groupBy this) →
  h !! data = Some (CArr ds) → Forall (is_record h) ds →
  ∃ out h',
    _thresholdFunction array_sum merge this data tree h = Some (out, h') ∧
    out ≠ data ∧ h !! out = None ∧
    h' !! data = Some (CArr ds) ∧
    (∀ l c, h !! l = Some c → h' !! l = Some c).
Proof.
  intros Hthr Hkey Hlen Hdata Hds.
  destruct (thresholdFunction_run array_sum merge this data tree h ds
              threshold thresholdKey Hthr Hkey Hlen Hdata Hds)
    as (h' & out & Hrun & _ & Hframe & _).
  exists (fresh (dom h)), h'. split; [exact Hrun|]. split.
  - symmetry. apply (lookup_Some_not_fresh _ _ _ Hdata).
  - split; [apply fresh_not_in_dom|]. split; [apply Hframe, Hdata|].
    exact Hframe.
Qed.

(** C5. When the total weight of the input is zero, the threshold value of
    every branch is zero and a weight is below it exactly when it is below
    zero; so, when no weight is negative, the method returns an array with
    the records of the input in the order of the input: nothing is removed
    and no aggregate is added. *)
Theorem zero_total_removes_nothing
    this data tree h ds threshold thresholdKey :
  _threshold this = Some threshold →
  _thresholdKey this = Some thresholdKey →
  _drawDepth this ≤ length (_groupBy this) →
  h !! data = Some (CArr ds) → Forall (is_record h) ds →
  let totalSum := array_sum (record_of h <$> ds) thresholdKey in
  (totalSum =? 0)%float = true →
  (∀ x, x ∈ ds → (thresholdKey (record_of h x) <? 0)%float = false) →
  (∀ p, is_nan p = false →
     (clamp p * totalSum =? 0)%float = true ∧
     ∀ w, (w <? clamp p * totalSum)%float = (w <? 0)%float) ∧
  ∃ out h',
    _thresholdFunction array_sum merge this data tree h = Some (out, h') ∧
    h' !! out = Some (CArr ds) ∧
    (∀ l c, h !! l = Some c → h' !! l = Some c).
Proof.
  intros Hthr Hkey Hlen Hdata Hds totalSum Hzero Hpos.
  assert (∀ p, is_nan p = false →
            (clamp p * totalSum =? 0)%float = true ∧
            ∀ w, (w <? clamp p * totalSum)%float = (w <? 0)%float) as Htv.
  { intros p Hp. apply mul_zero_total; [|exact Hzero].
    rewrite clamp_is_finite, Hp. reflexivity. }
  split; [exact Htv|].
  destruct (thresholdFunction_run array_sum merge this data tree h ds
              threshold thresholdKey Hthr Hkey Hlen Hdata Hds)
    as (h' & out & Hrun & Hout & Hframe & Hquiet).
  exists (fresh (dom h)), h'. split; [exact Hrun|]. split; [|exact Hframe].
  rewrite Hout, Hquiet; [reflexivity|].
  intros x p Hx Hp. unfold below. fold totalSum.
  rewrite (proj2 (Htv p Hp)). apply Hpos, Hx.
Qed.

(** C4. In a run of the method on a nested tree, for every leaf-adjacent
    branch the walk reaches whose threshold result is a number, a record of
    [nextDataset] is removed from the output if and only if its weight is
    strictly less than [thresholdValue], the clamped fraction times the
    total over the whole input; a record whose weight equals
    [thresholdValue] is kept. *)
Theorem removed_iff_below_threshold
    this data tree h ds threshold thresholdKey :
  _threshold this = Some threshold →
  _thresholdKey this = Some thresholdKey →
  _drawDepth this ≤ length (_groupBy this) →
  h !! data = Some (CArr ds) → Forall (is_record h) ds →
  distinct_keys tree →
  let totalSum := array_sum (record_of h <$> ds) thresholdKey in
  ∃ out h' final,
    _thresholdFunction array_sum merge this data tree h = Some (out, h') ∧
    h' !! out = Some (CArr final) ∧
    ∀ b currentDataset depth acc,
      reaches (_drawDepth this) (_groupBy this) h tree ds 0
        b currentDataset depth →
      depth + 1 = _drawDepth this → _groupBy this !! depth = Some acc →
      let nextDataset :=
        filter (λ x, matches h acc (key b) x = true) currentDataset in
      let p := threshold (record_of h <$> nextDataset) in
      let thresholdValue := (Math_min 1 (Math_max 0 p) * totalSum)%float in
      is_nan p = false →
      ∀ x, x ∈ nextDataset →
        (x ∉ final ↔
         (thresholdKey (record_of h x) <? thresholdValue)%float = true) ∧
        ((thresholdKey (record_of h x) =? thresholdValue)%float = true →
         x ∈ final).
Proof.
  intros Hthr Hkey Hlen Hdata Hds Hdist totalSum.
  destruct (thresholdFunction_removes array_sum merge this data tree h ds
              threshold thresholdKey Hthr Hkey Hlen Hdata Hds Hdist)
    as (out & h' & Hrun & final & Hfinal & Hcount).
  exists out, h', final. split; [exact Hrun|]. split; [exact Hfinal|].
  intros b cs depth acc Hreach Hleaf Hacc items p tv Hp x Hx.
  assert (x ∈ ds) as Hxds.
  { apply (reaches_elem_of _ _ _ _ _ _ _ _ _ Hreach).
    apply list_elem_of_filter in Hx as [_ Hx]. exact Hx. }
  assert (count_occ Nat.eq_dec final x =
          if (thresholdKey (record_of h x) <? tv)%float
          then 0 else count_occ Nat.eq_dec ds x) as Hc.
  { rewrite (Hcount x Hxds). fold totalSum.
    rewrite (removed_by_reached (_drawDepth this) (_groupBy this) threshold
               thresholdKey h totalSum tree ds 0 b cs depth Hreach Hdist
               acc x Hacc Hx).
    rewrite (removed_in_leaf (_drawDepth this) (_groupBy this) threshold
               thresholdKey h totalSum cs b depth acc x Hleaf Hacc).
    fold items. fold p. rewrite Hp.
    rewrite (bool_decide_eq_true_2 _ Hx). reflexivity. }
  assert (0 < count_occ Nat.eq_dec ds x) as Hpos
    by (apply (count_occ_In Nat.eq_dec), list_elem_of_In, Hxds).
  assert (x ∉ final ↔ (thresholdKey (record_of h x) <? tv)%float = true)
    as Hiff.
  { rewrite list_elem_of_In, (count_occ_In Nat.eq_dec), Hc.
    destruct (thresholdKey (record_of h x) <? tv)%float.
    - split; [reflexivity|lia].
    - split; [lia|discriminate]. }
  split; [exact Hiff|]. intros Heq.
  destruct (decide (x ∈ final)) as [Hin|Hnin]; [exact Hin|]. exfalso.
  apply Hiff in Hnin. rewrite (eqb_not_ltb _ _ Heq) in Hnin. discriminate.
Qed.

End method_claims.

Lemma absent_threshold_is_noop_witness :
  _thresholdFunction d3_sum merge_model (scenario_this None) 0 scenario_tree
    scenario_heap = Some (0, scenario_heap).
Proof. apply absent_threshold_is_noop. left. reflexivity. Defined.

Lemma scenario_records : Forall (is_record scenario_heap) [1; 2; 3].
Proof. repeat constructor; eexists; reflexivity. Qed.

Lemma input_array_not_mutated_witness :
  ∃ out h',
    _thresholdFunction d3_sum merge_model
      (scenario_this (Some (λ _, 0.5%float))) 0 scenario_tree scenario_heap =
      Some (out, h') ∧
    out ≠ 0 ∧ scenario_heap !! out = None ∧
    h' !! 0 = Some (CArr [1; 2; 3]) ∧
    (∀ l c, scenario_heap !! l = Some c → h' !! l = Some c).
Proof.
  apply (input_array_not_mutated d3_sum merge_model
           (scenario_this (Some (λ _, 0.5%float))) 0 scenario_tree
           scenario_heap [1; 2; 3] (λ _, 0.5%float) (number_field "v")).
  - reflexivity.
  - reflexivity.
  - simpl. lia.
  - reflexivity.
  - exact scenario_records.
Defined.

Lemma zero_total_removes_nothing_witness :
  (∀ p, is_nan p = false →
     (clamp p * 0 =? 0)%float = true ∧
     ∀ w, (w <? clamp p * 0)%float = (w <? 0)%float) ∧
  ∃ out h',
    _thresholdFunction d3_sum merge_model
      (scenario_this (Some (λ _, 0.5%float))) 0 scenario_tree zero_heap =
      Some (out, h') ∧
    h' !! out = Some (CArr [1; 2]) ∧
    (∀ l c, zero_heap !! l = Some c → h' !! l = Some c).
Proof.
  apply (zero_total_removes_nothing d3_sum merge_model
           (scenario_this (Some (λ _, 0.5%float))) 0 scenario_tree
           zero_heap [1; 2] (λ _, 0.5%float) (number_field "v")).
  - reflexivity.
  - reflexivity.
  - simpl. lia.
  - reflexivity.
  - repeat constructor; eexists; reflexivity.
  - reflexivity.
  - intros x Hx.
    repeat (apply elem_of_cons in Hx as [->|Hx]; [reflexivity|]).
    apply elem_of_nil in Hx. destruct Hx.
Defined.

Lemma scenario_tree_distinct : distinct_keys scenario_tree.
Proof. repeat constructor; reflexivity. Qed.

Lemma removed_iff_below_threshold_witness :
  ∃ out h' final,
    _thresholdFunction d3_sum merge_model
      (scenario_this (Some (λ _, 0.5%float))) 0 scenario_tree scenario_heap =
      Some (out, h') ∧
    h' !! out = Some (CArr final) ∧
    (1 ∉ final) ∧ (2 ∉ final) ∧ 3 ∈ final.
Proof.
  destruct (removed_iff_below_threshold d3_sum merge_model
              (scenario_this (Some (λ _, 0.5%float))) 0 scenario_tree
              scenario_heap [1; 2; 3] (λ _, 0.5%float) (number_field "v"))
    as (out & h' & final & Hrun & Hfinal & Hall).
  - reflexivity.
  - reflexivity.
  - simpl. lia.
  - reflexivity.
  - exact scenario_records.
  - exact scenario_tree_distinct.
  - exists out, h', final. split; [exact Hrun|]. split; [exact Hfinal|].
    assert (∀ x, x ∈ [1; 2] →
              (x ∉ final ↔
               (number_field "v" (record_of scenario_heap x) <? 30.5)%float
               = true)) as Ha.
    { intros x Hx.
      apply (Hall (Branch (VStr "a") []) [1; 2; 3] 0 (field "k")).
      - apply reaches_here; [|simpl; lia].
        apply list_elem_of_In. simpl. auto.
      - reflexivity.
      - reflexivity.
      - reflexivity.
      - exact Hx. }
    assert (3 ∉ final ↔
            (number_field "v" (record_of scenario_heap 3) <? 30.5)%float
            = true) as Hb.
    { apply (Hall (Branch (VStr "b") []) [1; 2; 3] 0 (field "k")).
      - apply reaches_here; [|simpl; lia].
        apply list_elem_of_In. simpl. auto.
      - reflexivity.
      - reflexivity.
      - reflexivity.
      - change (3 ∈ [3]). apply list_elem_of_In. simpl. auto. }
    split; [|split].
    + apply Ha; [|reflexivity]. apply list_elem_of_In. simpl. auto.
    + apply Ha; [|reflexivity]. apply list_elem_of_In. simpl. auto.
    + destruct (decide (3 ∈ final)) as [Hin|Hnin]; [exact Hin|].
      apply Hb in Hnin. discriminate Hnin.
Defined.

(** * The claims about one leaf-adjacent branch *)

Section branch_claims.

Variable merge : list obj → aggsT → obj.
Variable aggs : aggsT.
Variable drawDepth : nat.
Variable groupBy : list (obj → value).
Variable threshold : list obj → float.
Variable thresholdKey : accessorT.

Implicit Types (h : heap) (fin cur next x y : loc).
Implicit Types (fs cs items : list loc).

(** C8. On a leaf-adjacent branch whose [nextDataset] is empty and whose
    threshold function answers [NaN] on the empty array, [thresholdByDepth]
    returns without a [TypeError]; the only change of the heap is the new
    empty array [nextDataset], so [finalDataset] is as it was and no
    aggregate record is made. *)
Theorem empty_branch_nan_is_skipped h fin fs cur cs total b depth acc :
  depth + 1 = drawDepth → groupBy !! depth = Some acc →
  h !! fin = Some (CArr fs) → h !! cur = Some (CArr cs) →
  Forall (is_record h) cs →
  filter (λ x, matches h acc (key b) x = true) cs = [] →
  is_nan (threshold []) = true →
  ∃ h',
    thresholdByDepth merge aggs drawDepth groupBy threshold thresholdKey
      fin total cur b depth h = Some (tt, h') ∧
    h' = <[fresh (dom h) := CArr []]> h ∧
    h' !! fin = Some (CArr fs) ∧
    (∀ l o, h' !! l = Some (CObj o) → h !! l = Some (CObj o)).
Proof.
  intros Hd Hacc Hfin Hcur Hcs Hempty Hnan.
  rewrite (leaf_branch_run merge aggs drawDepth groupBy threshold thresholdKey
             h fin fs cur cs total b depth acc) by assumption.
  rewrite Hempty. cbn [fmap list_fmap]. rewrite Hnan.
  eexists. split; [reflexivity|]. split; [reflexivity|]. split.
  - rewrite lookup_insert_ne; [exact Hfin|].
    symmetry. apply (lookup_Some_not_fresh _ _ _ Hfin).
  - intros l o Hl. destruct (decide (l = fresh (dom h))) as [->|Hne].
    + rewrite lookup_insert_eq in Hl. discriminate.
    + rewrite lookup_insert_ne in Hl by congruence. exact Hl.
Qed.

(** C3. A leaf-adjacent branch adds at most one record to
    [finalDataset]: what the call leaves in the array is a part [kept] of
    what was there, in the same order, followed by [agg], which is empty
    or one new record.  The record is made exactly when [removedItems] is
    not empty; it carries [_isAggregation = true] and [_threshold] equal to
    the clamped fraction [thresholdPercent] of the branch; it is the last
    element of the array, and it is the only record the call creates. *)
Theorem at_most_one_aggregate h fin fs cur cs total b depth acc :
  depth + 1 = drawDepth → groupBy !! depth = Some acc →
  h !! fin = Some (CArr fs) → h !! cur = Some (CArr cs) →
  Forall (is_record h) cs →
  let nextDataset := filter (λ x, matches h acc (key b) x = true) cs in
  let p := threshold (record_of h <$> nextDataset) in
  let thresholdPercent := Math_min 1 (Math_max 0 p) in
  let removedItems :=
    if is_nan p then []
    else removed_of thresholdKey h (thresholdPercent * total)%float
           nextDataset in
  ∃ h' kept agg,
    thresholdByDepth merge aggs drawDepth groupBy threshold thresholdKey
      fin total cur b depth h = Some (tt, h') ∧
    h' !! fin = Some (CArr (kept ++ agg)) ∧
    kept `sublist_of` fs ∧
    length agg ≤ 1 ∧
    (agg = [] ↔ removedItems = []) ∧
    (∀ m, m ∈ agg →
       h !! m = None ∧
       ∃ o, h' !! m = Some (CObj o) ∧
            o !! "_isAggregation" = Some (VBool true) ∧
            o !! "_threshold" = Some (VNum thresholdPercent)) ∧
    (∀ l o, h' !! l = Some (CObj o) → h !! l = Some (CObj o) ∨ l ∈ agg).
Proof.
  intros Hd Hacc Hfin Hcur Hcs items p tp removedItems.
  rewrite (leaf_branch_run merge aggs drawDepth groupBy threshold thresholdKey
             h fin fs cur cs total b depth acc) by assumption.
  fold items. fold p. change (clamp p) with tp.
  set (next := fresh (dom h)). set (h1 := <[next := CArr items]> h).
  assert (fin ≠ next) as Hne by apply (lookup_Some_not_fresh _ _ _ Hfin).
  assert (h1 !! fin = Some (CArr fs)) as Hfin1
    by (unfold h1; rewrite lookup_insert_ne by congruence; exact Hfin).
  assert (∀ l o, h1 !! l = Some (CObj o) → h !! l = Some (CObj o)) as Hobj1.
  { intros l o Hl. unfold h1 in Hl.
    destruct (decide (l = next)) as [->|Hln].
    - rewrite lookup_insert_eq in Hl. discriminate.
    - rewrite lookup_insert_ne in Hl by congruence. exact Hl. }
  assert (h1 !! fresh (dom h1) = None) as Hm1 by apply fresh_not_in_dom.
  assert (∃ h' kept agg,
            (if is_nan p then h1
             else match removed_of thresholdKey h (tp * total)%float items with
                  | [] => h1
                  | removed =>
                      <[fin := CArr (kept_after thresholdKey h
                                       (tp * total)%float items fs
                                     ++ [fresh (dom h1)])]>
                        (<[fresh (dom h1) :=
                             CObj (stamp tp
                                     (merge (record_of h <$> removed) aggs))]>
                           h1)
                  end) = h' ∧
            h' !! fin = Some (CArr (kept ++ agg)) ∧
            kept `sublist_of` fs ∧ length agg ≤ 1 ∧
            (agg = [] ↔ removedItems = []) ∧
            (∀ m, m ∈ agg →
               h !! m = None ∧
               ∃ o, h' !! m = Some (CObj o) ∧
                    o !! "_isAggregation" = Some (VBool true) ∧
                    o !! "_threshold" = Some (VNum tp)) ∧
            (∀ l o, h' !! l = Some (CObj o) →
                    h !! l = Some (CObj o) ∨ l ∈ agg))
    as (h' & kept & agg & Hh' & Hrest).
  { unfold removedItems. destruct (is_nan p).
    { exists h1, fs, []. rewrite app_nil_r.
      split; [reflexivity|]. split; [exact Hfin1|]. split; [reflexivity|].
      split; [simpl; lia|]. split; [tauto|]. split.
      - intros m Hm. apply elem_of_nil in Hm. destruct Hm.
      - intros l o Hl. left. apply Hobj1, Hl. }
    destruct (removed_of thresholdKey h (tp * total)%float items)
      as [|r0 rs] eqn:Hrem.
    { exists h1, fs, []. rewrite app_nil_r.
      split; [reflexivity|]. split; [exact Hfin1|]. split; [reflexivity|].
      split; [simpl; lia|]. split; [tauto|]. split.
      - intros m Hm. apply elem_of_nil in Hm. destruct Hm.
      - intros l o Hl. left. apply Hobj1, Hl. }
    set (m := fresh (dom h1)) in *.
    assert (fin ≠ m) as Hfm by congruence.
    eexists _, (kept_after thresholdKey h (tp * total)%float items fs), [m].
    split; [reflexivity|]. split; [apply lookup_insert_eq|].
    split; [apply kept_after_sublist|]. split; [simpl; lia|].
    split; [split; discriminate|]. split.
    - intros m' Hm'. apply list_elem_of_singleton in Hm'. subst m'. split.
      + destruct (h !! m) as [c|] eqn:Hhm; [|reflexivity].
        assert (h1 !! m = Some c) as Hc.
        { unfold h1. rewrite lookup_insert_ne; [exact Hhm|].
          intros <-. unfold next in Hhm.
          rewrite fresh_not_in_dom in Hhm. discriminate. }
        congruence.
      + eexists. split.
        * rewrite lookup_insert_ne by congruence. apply lookup_insert_eq.
        * unfold stamp. split.
          -- rewrite lookup_insert_ne by discriminate. apply lookup_insert_eq.
          -- apply lookup_insert_eq.
    - intros l o Hl. destruct (decide (l = fin)) as [->|Hlf].
      { rewrite lookup_insert_eq in Hl. discriminate. }
      rewrite lookup_insert_ne in Hl by congruence.
      destruct (decide (l = m)) as [->|Hlm].
      { right. apply list_elem_of_singleton. reflexivity. }
      rewrite lookup_insert_ne in Hl by congruence. left. apply Hobj1, Hl. }
  exists h', kept, agg. rewrite Hh'. split; [reflexivity|]. exact Hrest.
Qed.

(** On a leaf-adjacent branch whose threshold result is a number, a
    record of [nextDataset] is out of [finalDataset] after the call if and
    only if its weight is strictly less than [thresholdValue]; a record
    whose weight equals [thresholdValue] is still there.  [finalDataset] is
    taken to hold the records of the branch as often as [nextDataset] does,
    which is how the walk over a nested tree finds it ([siblings_run]). *)
Lemma branch_removes_below_threshold h fin fs cur cs totalSum b depth acc :
  depth + 1 = drawDepth → groupBy !! depth = Some acc →
  h !! fin = Some (CArr fs) → h !! cur = Some (CArr cs) →
  Forall (is_record h) cs →
  let nextDataset := filter (λ x, matches h acc (key b) x = true) cs in
  let p := threshold (record_of h <$> nextDataset) in
  let thresholdValue := (Math_min 1 (Math_max 0 p) * totalSum)%float in
  is_nan p = false →
  (∀ x, x ∈ nextDataset →
        count_occ Nat.eq_dec fs x = count_occ Nat.eq_dec nextDataset x) →
  ∃ h' out,
    thresholdByDepth merge aggs drawDepth groupBy threshold thresholdKey
      fin totalSum cur b depth h = Some (tt, h') ∧
    h' !! fin = Some (CArr out) ∧
    (∀ x, x ∈ nextDataset →
       (x ∉ out ↔
        (thresholdKey (record_of h x) <? thresholdValue)%float = true)) ∧
    (∀ x, x ∈ nextDataset →
       (thresholdKey (record_of h x) =? thresholdValue)%float = true →
       x ∈ out).
Proof.
  intros Hd Hacc Hfin Hcur Hcs items p tv Hp Hcount.
  rewrite (leaf_branch_run merge aggs drawDepth groupBy threshold thresholdKey
             h fin fs cur cs totalSum b depth acc)
    by assumption.
  fold items p. change (clamp p * totalSum)%float with tv.
  rewrite Hp.
  set (h1 := <[fresh (dom h) := CArr items]> h).
  set (K := kept_after thresholdKey h tv items fs).
  match goal with |- ∃ h' out, Some (tt, ?H) = _ ∧ _ => set (h' := H) end.
  assert (∀ x, x ∈ items → is_record h x) as Hrec.
  { intros x Hx. apply list_elem_of_filter in Hx as [_ Hx].
    rewrite Forall_forall in Hcs. auto. }
  assert (∀ x, x ∈ items →
            (x ∉ K ↔ below thresholdKey h tv x = true)) as HK.
  { intros x Hx.
    assert (count_occ Nat.eq_dec K x =
            count_occ Nat.eq_dec fs x -
            count_occ Nat.eq_dec
              (filter (λ x, below thresholdKey h tv x = true) items) x) as Hc.
    { apply kept_after_count. intros z Hz _. rewrite Hcount by exact Hz. lia. }
    rewrite count_occ_filter, (Hcount x Hx) in Hc.
    assert (0 < count_occ Nat.eq_dec items x) as Hpos
      by (apply (count_occ_In Nat.eq_dec), list_elem_of_In, Hx).
    rewrite list_elem_of_In, (count_occ_In Nat.eq_dec).
    destruct (decide (below thresholdKey h tv x = true)) as [Hb|Hb].
    - split; [intros _; exact Hb|]. lia.
    - split; [lia|]. intros Hb'. congruence. }
  assert (∃ out, h' !! fin = Some (CArr out) ∧
                 ∀ x, x ∈ items → (x ∈ out ↔ x ∈ K)) as (out & Hout & Hmem).
  { unfold h'.
    assert (fin ≠ fresh (dom h)) as Hne
      by apply (lookup_Some_not_fresh _ _ _ Hfin).
    destruct (removed_of thresholdKey h tv items) as [|r0 rs] eqn:Hrem.
    - exists fs. split.
      + unfold h1. rewrite lookup_insert_ne by congruence. exact Hfin.
      + intros x Hx. unfold K. rewrite (removed_of_nil_kept _ _ _ _ _ Hrem).
        reflexivity.
    - exists (K ++ [fresh (dom h1)]). split; [apply lookup_insert_eq|].
      intros x Hx. rewrite elem_of_app, list_elem_of_singleton.
      split; [|tauto]. intros [Hk|Heq]; [exact Hk|]. exfalso.
      destruct (Hrec x Hx) as [o Ho].
      assert (h1 !! x = Some (CObj o)) as Ho1.
      { unfold h1. rewrite lookup_insert_ne; [exact Ho|].
        symmetry. apply (lookup_Some_not_fresh _ _ _ Ho). }
      apply (lookup_Some_not_fresh _ _ _ Ho1). exact Heq. }
  exists h', out. split; [reflexivity|]. split; [exact Hout|]. split.
  - intros x Hx. rewrite (Hmem x Hx). apply HK, Hx.
  - intros x Hx Heq. apply (Hmem x Hx).
    destruct (decide (x ∈ K)) as [Hin|Hnin]; [exact Hin|]. exfalso.
    apply (HK x Hx) in Hnin. unfold below in Hnin.
    rewrite (eqb_not_ltb _ _ Heq) in Hnin. discriminate.
Qed.

(** One turn of the loop removes by identity: when the
    record [x] is below the threshold value and is in the array, the turn
    of the loop for [x] deletes the first occurrence of the reference [x]
    and nothing else.  A different record [y] stays where it is and as
    often as it was, also when it has the very fields of [x]. *)
Lemma turn_removes_the_item h fin fs tv x removedItems :
  h !! fin = Some (CArr fs) → is_record h x →
  (thresholdKey (record_of h x) <? tv)%float = true →
  x ∈ fs →
  ∃ before after,
    fs = before ++ x :: after ∧ (x ∉ before) ∧
    remove_below thresholdKey fin tv x removedItems h =
      Some (removedItems ++ [x], <[fin := CArr (before ++ after)]> h) ∧
    ∀ y, y ≠ x → record_of h y = record_of h x →
      count_occ Nat.eq_dec (before ++ after) y = count_occ Nat.eq_dec fs y.
Proof.
  intros Hfin Hx Hb Hin.
  destruct (remove_item_elem_of x fs Hin) as (l1 & l2 & Hfs & Hl1 & Hrm).
  exists l1, l2. split; [exact Hfs|]. split; [exact Hl1|]. split.
  - rewrite (remove_below_run thresholdKey h fin fs tv x removedItems Hfin Hx).
    unfold below. rewrite Hb, Hrm. reflexivity.
  - intros y Hne _. rewrite <- Hrm, (remove_item_count _ _ _ Hin).
    rewrite decide_False by exact Hne. reflexivity.
Qed.

End branch_claims.

Lemma scenario_copied_records : Forall (is_record scenario_copied) [1; 2; 3].
Proof. repeat constructor; eexists; reflexivity. Qed.

Lemma empty_branch_nan_is_skipped_witness :
  ∃ h',
    thresholdByDepth merge_model ∅ 1 [field "k"] share_threshold
      (number_field "v") 4 61 0 (Branch (VStr "z") []) 0 scenario_copied =
      Some (tt, h') ∧
    h' = <[fresh (dom scenario_copied) := CArr []]> scenario_copied ∧
    h' !! 4 = Some (CArr [1; 2; 3]) ∧
    (∀ l o, h' !! l = Some (CObj o) → scenario_copied !! l = Some (CObj o)).
Proof.
  apply (empty_branch_nan_is_skipped merge_model ∅ 1 [field "k"]
           share_threshold (number_field "v") scenario_copied 4 [1; 2; 3]
           0 [1; 2; 3] 61 (Branch (VStr "z") []) 0 (field "k")).
  - reflexivity.
  - reflexivity.
  - reflexivity.
  - reflexivity.
  - exact scenario_copied_records.
  - reflexivity.
  - reflexivity.
Defined.

Lemma at_most_one_aggregate_witness :
  ∃ h' kept agg,
    thresholdByDepth merge_model ∅ 1 [field "k"] (λ _, 0.5%float)
      (number_field "v") 4 61 0 (Branch (VStr "a") []) 0 scenario_copied =
      Some (tt, h') ∧
    h' !! 4 = Some (CArr (kept ++ agg)) ∧
    kept `sublist_of` [1; 2; 3] ∧
    length agg ≤ 1 ∧
    (agg = [] ↔ [2; 1] = []) ∧
    (∀ m, m ∈ agg →
       scenario_copied !! m = None ∧
       ∃ o, h' !! m = Some (CObj o) ∧
            o !! "_isAggregation" = Some (VBool true) ∧
            o !! "_threshold" = Some (VNum 0.5)) ∧
    (∀ l o, h' !! l = Some (CObj o) →
            scenario_copied !! l = Some (CObj o) ∨ l ∈ agg).
Proof.
  apply (at_most_one_aggregate merge_model ∅ 1 [field "k"] (λ _, 0.5%float)
           (number_field "v") scenario_copied 4 [1; 2; 3] 0 [1; 2; 3] 61
           (Branch (VStr "a") []) 0 (field "k")).
  - reflexivity.
  - reflexivity.
  - reflexivity.
  - reflexivity.
  - exact scenario_copied_records.
Defined.

Lemma branch_removes_below_threshold_example :
  ∃ h' out,
    thresholdByDepth merge_model ∅ 1 [field "k"] (λ _, 0.5%float)
      (number_field "v") 4 61 0 (Branch (VStr "a") []) 0 scenario_copied =
      Some (tt, h') ∧
    h' !! 4 = Some (CArr out) ∧
    (∀ x, x ∈ [1; 2] →
       (x ∉ out ↔
        (number_field "v" (record_of scenario_copied x) <? 30.5)%float
        = true)) ∧
    (∀ x, x ∈ [1; 2] →
       (number_field "v" (record_of scenario_copied x) =? 30.5)%float = true →
       x ∈ out).
Proof.
  apply (branch_removes_below_threshold merge_model ∅ 1 [field "k"]
           (λ _, 0.5%float) (number_field "v") scenario_copied 4 [1; 2; 3]
           0 [1; 2; 3] 61 (Branch (VStr "a") []) 0 (field "k")).
  - reflexivity.
  - reflexivity.
  - reflexivity.
  - reflexivity.
  - exact scenario_copied_records.
  - reflexivity.
  - intros x Hx. change (x ∈ [1; 2]) in Hx.
    repeat (apply elem_of_cons in Hx as [->|Hx]; [reflexivity|]).
    apply elem_of_nil in Hx. destruct Hx.
Defined.

Lemma turn_removes_the_item_example :
  ∃ before after,
    [1; 2] = before ++ 2 :: after ∧ (2 ∉ before) ∧
    remove_below (number_field "v") 0 5 2 [] twins_heap =
      Some ([] ++ [2], <[0 := CArr (before ++ after)]> twins_heap) ∧
    ∀ y, y ≠ 2 → record_of twins_heap y = record_of twins_heap 2 →
      count_occ Nat.eq_dec (before ++ after) y =
      count_occ Nat.eq_dec [1; 2] y.
Proof.
  apply (turn_removes_the_item (number_field "v") twins_heap 0 [1; 2] 5 2 []).
  - reflexivity.
  - eexists. reflexivity.
  - reflexivity.
  - apply list_elem_of_In. simpl. auto.
Defined.

(** * The scenarios *)

(** C6. Scenario 1: for the data [{k:"a",v:10}, {k:"a",v:1}, {k:"b",v:50}]
    with [drawDepth = 1], grouping by [k], the threshold function
    [() => 0.5] and the weight [v], the total is 61 and the threshold value
    30.5; the two records of group "a" are removed and merged into one
    record, which gets [_isAggregation = true] and [_threshold = 0.5] and
    has the summed value 11 as soon as [merge] sums the field [v]; the
    record of group "b" is kept; the output holds that record and the
    merged one, and nothing else. *)
Theorem scenario_1 (merge : list obj → aggsT → obj) :
  merge [record_kv "a" 1; record_kv "a" 10] ∅ !! "v" = Some (VNum 11) →
  d3_sum (record_of scenario_heap <$> [1; 2; 3]) (number_field "v")
    = 61%float ∧
  (0.5 * 61 = 30.5)%float ∧
  ∃ out h' aggregate o,
    _thresholdFunction d3_sum merge (scenario_this (Some (λ _, 0.5%float)))
      0 scenario_tree scenario_heap = Some (out, h') ∧
    h' !! out = Some (CArr [3; aggregate]) ∧
    h' !! 3 = Some (CObj (record_kv "b" 50)) ∧
    scenario_heap !! aggregate = None ∧
    h' !! aggregate = Some (CObj o) ∧
    o !! "v" = Some (VNum 11) ∧
    o !! "_isAggregation" = Some (VBool true) ∧
    o !! "_threshold" = Some (VNum 0.5).
Proof.
  intros Hmerge. split; [reflexivity|]. split; [reflexivity|].
  set (merged := merge [record_kv "a" 1; record_kv "a" 10] ∅) in *.
  exists 4, (scenario_final merged), 7, (stamp 0.5 merged).
  split; [vm_compute; reflexivity|].
  split; [reflexivity|]. split; [reflexivity|]. split; [reflexivity|].
  split; [reflexivity|]. unfold stamp. split.
  - rewrite !lookup_insert_ne by discriminate. exact Hmerge.
  - split.
    + rewrite lookup_insert_ne by discriminate. apply lookup_insert_eq.
    + apply lookup_insert_eq.
Qed.

Lemma scenario_1_witness :
  d3_sum (record_of scenario_heap <$> [1; 2; 3]) (number_field "v")
    = 61%float ∧
  (0.5 * 61 = 30.5)%float ∧
  ∃ out h' aggregate o,
    _thresholdFunction d3_sum merge_model
      (scenario_this (Some (λ _, 0.5%float)))
      0 scenario_tree scenario_heap = Some (out, h') ∧
    h' !! out = Some (CArr [3; aggregate]) ∧
    h' !! 3 = Some (CObj (record_kv "b" 50)) ∧
    scenario_heap !! aggregate = None ∧
    h' !! aggregate = Some (CObj o) ∧
    o !! "v" = Some (VNum 11) ∧
    o !! "_isAggregation" = Some (VBool true) ∧
    o !! "_threshold" = Some (VNum 0.5).
Proof. apply (scenario_1 merge_model). reflexivity. Defined.

(** C1. The code at the threshold result [Infinity]: the clamp comes
    before the guard, [Math.min(1, Math.max(0, Infinity))] is 1, a finite
    number, so the guard does not fire and the branch is not skipped.  On
    the data of scenario 1 every record is below [1 * 61] and both groups
    are merged: no record of the input is left in the output, and the two
    merged records carry [_threshold = 1]. *)
Theorem infinite_threshold_is_clamped_not_skipped
    (merge : list obj → aggsT → obj) :
  Math_min 1 (Math_max 0 infinity) = 1%float ∧
  negb (isFinite (Math_min 1 (Math_max 0 infinity)))
    || isNaN (Math_min 1 (Math_max 0 infinity)) = false ∧
  ∃ h' merged_b merged_a,
    _thresholdFunction d3_sum merge (scenario_this (Some (λ _, infinity)))
      0 scenario_tree scenario_heap = Some (4, h') ∧
    h' !! 4 = Some (CArr [6; 8]) ∧
    h' !! 6 = Some (CObj (stamp 1 merged_b)) ∧
    h' !! 8 = Some (CObj (stamp 1 merged_a)) ∧
    scenario_heap !! 6 = None ∧ scenario_heap !! 8 = None.
Proof.
  split; [reflexivity|]. split; [reflexivity|].
  exists (scenario_final_infinity (merge [record_kv "b" 50] ∅)
            (merge [record_kv "a" 1; record_kv "a" 10] ∅)).
  eexists _, _. split; [vm_compute; reflexivity|].
  repeat split; reflexivity.
Qed.

(** * The accessor [sum] *)

(** C10. A call [sum(v)] sets the accessor [_sum] and the accessor
    [_thresholdKey] to the same function, [v] itself when it is a function
    and [accessor(v)] otherwise; the constructor sets both to
    [accessor("value")]; so after the constructor and any sequence of calls
    of [sum] the weight of the threshold is the weight of the hierarchy. *)
Theorem sum_sets_threshold_key (accessor : value → accessorT) :
  (∀ a arguments this,
     let this' := (sum accessor (a :: arguments) this).1 in
     let f := match a with ArgFunction f => f | ArgValue v => accessor v end in
     _sum this' = f ∧ _thresholdKey this' = Some f) ∧
  (∀ super,
     _sum (constructor accessor super) = accessor (VStr "value") ∧
     _thresholdKey (constructor accessor super)
       = Some (accessor (VStr "value"))) ∧
  (∀ calls super,
     let this := sum_calls accessor calls (constructor accessor super) in
     _thresholdKey this = Some (_sum this)).
Proof.
  split; [intros a arguments this; split; reflexivity|].
  split; [intros super; split; reflexivity|].
  intros calls super. cbv zeta.
  assert (∀ this, _thresholdKey this = Some (_sum this) →
            _thresholdKey (sum_calls accessor calls this)
              = Some (_sum (sum_calls accessor calls this))) as Hinv.
  { induction calls as [|arguments calls IH]; intros this Hthis.
    - exact Hthis.
    - cbn [sum_calls foldl]. apply IH.
      destruct arguments as [|a arguments]; [exact Hthis|reflexivity]. }
  apply Hinv. reflexivity.
Qed.

(** * More facts about numbers *)

Section nan_facts.

Local Open Scope float_scope.

Lemma mul_nan_r a b : is_nan b = true → is_nan (a * b) = true.
Proof.
  rewrite !is_nan_spec, mul_spec. unfold SF64mul.
  destruct (Prim2SF b) as [s|s| |s m e]; try discriminate. intros _.
  destruct (Prim2SF a) as [s|s| |s m e]; reflexivity.
Qed.

Lemma ltb_nan_r w t : is_nan t = true → (w <? t) = false.
Proof.
  rewrite is_nan_spec, FloatAxioms.ltb_spec.
  destruct (Prim2SF t) as [s|s| |s m e]; try discriminate. intros _.
  destruct (Prim2SF w) as [s|s| |s m e]; reflexivity.
Qed.

Lemma ltb_nan_l w t : is_nan w = true → (w <? t) = false.
Proof.
  rewrite is_nan_spec, FloatAxioms.ltb_spec.
  destruct (Prim2SF w) as [s|s| |s m e]; try discriminate. reflexivity.
Qed.

End nan_facts.

Lemma run_bind_None {A B} (m : M A) (k : A → M B) h :
  m h = None → (m ≫= k) h = None.
Proof. intros Hm. unfold mbind, M_bind. rewrite Hm. reflexivity. Qed.

(** * The shape of the output of the walk *)

Section shape_facts.

Variable merge : list obj → aggsT → obj.
Variable aggs : aggsT.
Variable drawDepth : nat.
Variable groupBy : list (obj → value).
Variable threshold : list obj → float.
Variable thresholdKey : accessorT.

Implicit Types (h : heap) (fin cur next x : loc).
Implicit Types (fs cs items : list loc).

Lemma is_aggregate_frame h h' fin fs m :
  h !! fin = Some (CArr fs) →
  (∀ l c, h !! l = Some c → l ≠ fin → h' !! l = Some c) →
  is_aggregate h m → is_aggregate h' m.
Proof.
  intros Hfin Hframe (o & t & Hm & Hrest). exists o, t.
  split; [|exact Hrest]. apply Hframe; [exact Hm|]. congruence.
Qed.

Lemma walk_step_refl h fin fs :
  h !! fin = Some (CArr fs) → walk_step h fin fs h fs.
Proof.
  intros Hfin. split; [exact Hfin|]. split; [auto|]. split; [auto|].
  exists fs, []. rewrite app_nil_r. split; [reflexivity|].
  split; [reflexivity|constructor].
Qed.

Lemma walk_step_trans h fin fs h1 fs1 h2 fs2 :
  h !! fin = Some (CArr fs) →
  walk_step h fin fs h1 fs1 → walk_step h1 fin fs1 h2 fs2 →
  walk_step h fin fs h2 fs2.
Proof.
  intros Hfin (Hfin1 & Hframe1 & Hlen1 & k1 & n1 & -> & Hk1 & Hn1)
    (Hfin2 & Hframe2 & Hlen2 & k2 & n2 & -> & Hk2 & Hn2).
  split; [exact Hfin2|]. split; [auto|]. split.
  { intros Hne. destruct (Hlen1 Hne) as [Hne1 Hle1].
    destruct (Hlen2 Hne1) as [Hne2 Hle2]. split; [exact Hne2|lia]. }
  apply sublist_app_r in Hk2 as (ka & kb & -> & Hka & Hkb).
  exists ka, (kb ++ n2). split; [symmetry; apply app_assoc|].
  split; [etransitivity; eassumption|].
  apply Forall_app. split.
  - apply Forall_forall. intros m Hm.
    rewrite Forall_forall in Hn1.
    destruct (Hn1 m (elem_of_sublist _ _ _ Hm Hkb)) as [Hnew Hagg].
    split; [exact Hnew|].
    apply (is_aggregate_frame h1 h2 fin (k1 ++ n1)); assumption.
  - eapply Forall_impl; [exact Hn2|]. intros m [Hnew Hagg].
    split; [|exact Hagg].
    destruct (h !! m) as [c|] eqn:Hm; [|reflexivity].
    destruct (decide (m = fin)) as [->|Hne]; [congruence|].
    rewrite (Hframe1 _ _ Hm Hne) in Hnew. discriminate.
Qed.

Lemma remove_item_length x (a : list loc) :
  length (remove_item x a) = length a - 1.
Proof.
  destruct (decide (x ∈ a)) as [Hx|Hx].
  - apply remove_item_elem_of in Hx as (l1 & l2 & -> & _ & ->).
    rewrite !length_app. simpl. lia.
  - rewrite remove_item_not_elem_of by exact Hx. rewrite length_take. lia.
Qed.

(** Every turn of the loop that removes makes [finalDataset] one shorter,
    as long as it has an element. *)
Lemma kept_after_length h tv items fs :
  length (kept_after thresholdKey h tv items fs) =
  length fs -
  length (filter (λ x, below thresholdKey h tv x = true) items).
Proof.
  induction items as [|x items IH]; [cbn; lia|].
  cbn [kept_after foldr]. fold (kept_after thresholdKey h tv items fs).
  rewrite filter_cons. destruct (below thresholdKey h tv x) eqn:Hb.
  - rewrite decide_True by reflexivity. rewrite remove_item_length, IH.
    simpl. lia.
  - rewrite decide_False by discriminate. exact IH.
Qed.

(** The step of a leaf-adjacent branch. *)
Lemma leaf_branch_step h fin fs cur cs total b depth acc :
  depth + 1 = drawDepth → groupBy !! depth = Some acc →
  h !! fin = Some (CArr fs) → h !! cur = Some (CArr cs) →
  Forall (is_record h) cs →
  ∃ h' fs',
    thresholdByDepth merge aggs drawDepth groupBy threshold thresholdKey
      fin total cur b depth h = Some (tt, h') ∧
    walk_step h fin fs h' fs' ∧
    (never_below thresholdKey h total
       (filter (λ x, matches h acc (key b) x = true) cs) → fs' = fs).
Proof.
  intros Hd Hacc Hfin Hcur Hcs.
  rewrite (leaf_branch_run merge aggs drawDepth groupBy threshold thresholdKey
             h fin fs cur cs total b depth acc) by assumption.
  cbv zeta.
  set (items := filter (λ x, matches h acc (key b) x = true) cs).
  set (next := fresh (dom h)). set (h1 := <[next := CArr items]> h).
  set (p := threshold (record_of h <$> items)).
  assert (fin ≠ next) as Hne by apply (lookup_Some_not_fresh _ _ _ Hfin).
  assert (h1 !! fin = Some (CArr fs)) as Hfin1
    by (unfold h1; rewrite lookup_insert_ne by congruence; exact Hfin).
  assert (∀ l c, h !! l = Some c → h1 !! l = Some c) as Hh1.
  { intros l c Hl. unfold h1. rewrite lookup_insert_ne; [exact Hl|].
    intros <-. unfold next in Hl. rewrite fresh_not_in_dom in Hl.
    discriminate. }
  assert (walk_step h fin fs h1 fs) as Hquiet.
  { split; [exact Hfin1|]. split; [auto|]. split; [auto|].
    exists fs, []. rewrite app_nil_r. split; [reflexivity|].
    split; [reflexivity|constructor]. }
  destruct (is_nan p) eqn:Hp.
  { exists h1, fs. auto. }
  destruct (removed_of thresholdKey h (clamp p * total)%float items)
    as [|r0 rs] eqn:Hrem.
  { exists h1, fs. auto. }
  set (m := fresh (dom h1)).
  assert (h1 !! m = None) as Hm1 by apply fresh_not_in_dom.
  assert (fin ≠ m) as Hfm by congruence.
  eexists _, _. split; [reflexivity|]. split.
  - split; [apply lookup_insert_eq|]. split.
    + intros l c Hl Hlf. rewrite lookup_insert_ne by congruence.
      rewrite lookup_insert_ne; [apply Hh1, Hl|].
      intros <-. rewrite (Hh1 _ _ Hl) in Hm1. discriminate.
    + split.
      { intros Hfs. split; [intros Hnil; destruct (app_cons_not_nil _ _ _ (eq_sym Hnil))|].
        rewrite length_app, kept_after_length. cbn [length].
        assert (0 < length fs) by (destruct fs; [congruence|simpl; lia]).
        assert (0 < length (filter (λ x, below thresholdKey h
                                           (clamp p * total)%float x = true)
                              items)).
        { unfold removed_of in Hrem. rewrite <- length_reverse, Hrem.
          simpl. lia. }
        lia. }
      eexists _, [m]. split; [reflexivity|].
      split; [apply kept_after_sublist|].
      constructor; [|constructor]. split.
      * destruct (h !! m) as [c|] eqn:Hhm; [|reflexivity].
        rewrite (Hh1 _ _ Hhm) in Hm1. discriminate.
      * eexists _, (clamp p). split.
        { rewrite lookup_insert_ne by congruence. apply lookup_insert_eq. }
        unfold stamp. split.
        { rewrite lookup_insert_ne by discriminate. apply lookup_insert_eq. }
        split; [apply lookup_insert_eq|]. apply clamp_range, Hp.
  - intros Hnb.
    rewrite (never_below_removed_nil thresholdKey h total items p Hnb Hp)
      in Hrem.
    discriminate.
Qed.

(** [thresholdByDepth] on every branch of every tree: what is left of
    [finalDataset] is a part of it, in its order, followed by new
    aggregates; nothing changes when no record with the key of the branch
    can be below a threshold value. *)
Lemma thresholdByDepth_walk b :
  ∀ depth h fin fs cur cs total,
    drawDepth ≤ length groupBy →
    h !! fin = Some (CArr fs) → h !! cur = Some (CArr cs) →
    Forall (is_record h) cs →
    ∃ h' fs',
      thresholdByDepth merge aggs drawDepth groupBy threshold thresholdKey
        fin total cur b depth h = Some (tt, h') ∧
      walk_step h fin fs h' fs' ∧
      ((∀ acc, groupBy !! depth = Some acc →
          never_below thresholdKey h total
            (filter (λ x, matches h acc (key b) x = true) cs)) →
       fs' = fs).
Proof.
  induction b as [k leaves IHleaves] using branch_ind_values.
  intros depth h fin fs cur cs total Hlen Hfin Hcur Hcs.
  destruct (decide (drawDepth ≤ depth)) as [Hge|Hlt].
  { exists h, fs. cbn [thresholdByDepth].
    rewrite (proj2 (Nat.leb_le drawDepth depth)) by exact Hge.
    split; [reflexivity|]. split; [apply walk_step_refl, Hfin|auto]. }
  destruct (lookup_lt_is_Some_2 groupBy depth) as [acc Hacc]; [lia|].
  destruct (decide (depth + 1 = drawDepth)) as [Hleaf|Hinner].
  { destruct (leaf_branch_step h fin fs cur cs total (Branch k leaves)
                depth acc Hleaf Hacc Hfin Hcur Hcs)
      as (h' & fs' & Hrun & Hstep & Hquiet).
    exists h', fs'. split; [exact Hrun|]. split; [exact Hstep|].
    intros Hnb. apply Hquiet, Hnb, Hacc. }
  set (items := filter (λ x, matches h acc k x = true) cs).
  set (next := fresh (dom h)).
  set (h1 := <[next := CArr items]> h).
  assert (Forall (is_record h) items) as Hitems by apply filter_records, Hcs.
  assert (fin ≠ next) as Hne by apply (lookup_Some_not_fresh _ _ _ Hfin).
  assert (h1 !! fin = Some (CArr fs)) as Hfin1
    by (unfold h1; rewrite lookup_insert_ne by congruence; exact Hfin).
  assert (∀ l c, h !! l = Some c → h1 !! l = Some c) as Hh1.
  { intros l c Hl. unfold h1. rewrite lookup_insert_ne; [exact Hl|].
    intros <-. unfold next in Hl. rewrite fresh_not_in_dom in Hl.
    discriminate. }
  assert (∀ x, is_record h x → record_of h1 x = record_of h x) as Hrec1.
  { intros x [o Ho]. rewrite (record_of_lookup _ _ _ Ho).
    apply record_of_lookup, Hh1, Ho. }
  assert (walk_step h fin fs h1 fs) as Hstep1.
  { split; [exact Hfin1|]. split; [auto|]. split; [auto|].
    exists fs, []. rewrite app_nil_r. split; [reflexivity|].
    split; [reflexivity|constructor]. }
  cbn [thresholdByDepth key].
  rewrite (proj2 (Nat.leb_gt drawDepth depth)) by lia.
  cbv zeta. rewrite Hacc.
  rewrite (run_bind _ _ _ _ _ (Array_filter_run _ _ _ acc k Hcur Hcs)).
  rewrite (proj2 (Nat.eqb_neq (depth + 1) drawDepth)) by exact Hinner.
  fold items. fold next. fold h1.
  assert (h1 !! next = Some (CArr items)) as Hnext1 by apply lookup_insert_eq.
  assert (Forall (is_record h1) items) as Hitems1.
  { eapply Forall_impl; [exact Hitems|]. intros x [o Ho].
    exists o. apply Hh1, Ho. }
  assert (∃ h' fs',
    while_rev
      (λ leaf (_ : unit),
         thresholdByDepth merge aggs drawDepth groupBy threshold
           thresholdKey fin total next leaf (depth + 1))
      leaves tt h1 = Some (tt, h') ∧
    walk_step h1 fin fs h' fs' ∧
    (never_below thresholdKey h1 total items → fs' = fs))
    as (h' & fs' & Hrun & Hstep & Hquiet).
  { clear Hcur Hcs Hacc. induction IHleaves as [|leaf leaves IHleaf _ IHl].
    - exists h1, fs. split; [reflexivity|].
      split; [apply walk_step_refl, Hfin1|auto].
    - destruct IHl as (h2 & fs2 & Hrun2 & Hstep2 & Hquiet2).
      pose proof Hstep2 as (Hfin2 & Hframe2 & _).
      assert (h2 !! next = Some (CArr items)) as Hnext2
        by (apply Hframe2; [exact Hnext1|congruence]).
      assert (∀ x, x ∈ items →
                is_record h2 x ∧ record_of h2 x = record_of h1 x) as Hrec2.
      { intros x Hx. apply (frame_record h1 h2 fin fs); auto.
        rewrite Forall_forall in Hitems1. auto. }
      assert (Forall (is_record h2) items) as Hitems2.
      { apply Forall_forall. intros x Hx. apply Hrec2, Hx. }
      destruct (IHleaf (depth + 1) h2 fin fs2 next items total
                  Hlen Hfin2 Hnext2 Hitems2)
        as (h3 & fs3 & Hrun3 & Hstep3 & Hquiet3).
      exists h3, fs3. split; [|split].
      + cbn [while_rev]. rewrite (run_bind _ _ _ _ _ Hrun2). exact Hrun3.
      + apply (walk_step_trans h1 fin fs h2 fs2); assumption.
      + intros Hnb. rewrite Hquiet3, Hquiet2; auto.
        intros acc' _. apply never_below_filter.
        apply (never_below_agree thresholdKey h1); [|exact Hnb].
        intros x Hx. apply Hrec2, Hx. }
  exists h', fs'. split; [exact Hrun|]. split.
  - apply (walk_step_trans h fin fs h1 fs); assumption.
  - intros Hnb. apply Hquiet.
    apply (never_below_agree thresholdKey h).
    + intros x Hx. apply Hrec1. rewrite Forall_forall in Hitems. auto.
    + apply Hnb. reflexivity.
Qed.

End shape_facts.

Section method_shape.

Variable array_sum : list obj → accessorT → float.
Variable merge : list obj → aggsT → obj.

Implicit Types (h : heap) (data x : loc) (ds : list loc).
Implicit Types (this : Treemap) (tree : list branch).

(** The whole method: the returned array is new and holds a part of the
    input, in its order, followed by new aggregates; it holds the input
    when no record with the key of a branch of the tree can be below a
    threshold value. *)
Lemma thresholdFunction_walk this data tree h ds threshold thresholdKey :
  _threshold this = Some threshold →
  _thresholdKey this = Some thresholdKey →
  _drawDepth this ≤ length (_groupBy this) →
  h !! data = Some (CArr ds) → Forall (is_record h) ds →
  let fin := fresh (dom h) in
  let total := array_sum (record_of h <$> ds) thresholdKey in
  ∃ h' out,
    _thresholdFunction array_sum merge this data tree h = Some (fin, h') ∧
    walk_step (<[fin := CArr ds]> h) fin ds h' out ∧
    ((∀ b acc, b ∈ tree → _groupBy this !! 0 = Some acc →
        never_below thresholdKey h total
          (filter (λ x, matches h acc (key b) x = true) ds)) →
     out = ds).
Proof.
  intros Hthr Hkey Hlen Hdata Hds fin total. unfold _thresholdFunction.
  rewrite Hthr, Hkey.
  rewrite (run_bind _ _ _ _ _ (Array_slice_run _ _ _ Hdata)).
  fold fin. set (h0 := <[fin := CArr ds]> h).
  assert (∀ l c, h !! l = Some c → h0 !! l = Some c ∧ l ≠ fin) as Hh0.
  { intros l c Hl.
    assert (l ≠ fin) as Hne by apply (lookup_Some_not_fresh _ _ _ Hl).
    split; [|exact Hne]. unfold h0.
    rewrite lookup_insert_ne by congruence. exact Hl. }
  assert (h0 !! fin = Some (CArr ds)) as Hfin0 by apply lookup_insert_eq.
  assert (∀ x, x ∈ ds →
            is_record h0 x ∧ record_of h0 x = record_of h x) as Hrec0.
  { intros x Hx. rewrite Forall_forall in Hds.
    destruct (Hds x Hx) as [o Ho]. destruct (Hh0 _ _ Ho) as [Ho0 _].
    split; [exists o; exact Ho0|].
    rewrite (record_of_lookup _ _ _ Ho), (record_of_lookup _ _ _ Ho0).
    reflexivity. }
  assert (Forall (is_record h0) ds) as Hds0.
  { apply Forall_forall. intros x Hx. apply Hrec0, Hx. }
  rewrite (run_bind _ _ _ _ _ (read_records_run _ _ _ Hfin0 Hds0)).
  assert (record_of h0 <$> ds = record_of h <$> ds) as ->.
  { apply list_fmap_ext. intros i x Hi. apply Hrec0.
    apply list_elem_of_lookup. eauto. }
  cbv zeta. fold total.
  assert (∃ h' out,
    while_rev
      (λ b (_ : unit),
         thresholdByDepth merge (_aggs this) (_drawDepth this)
           (_groupBy this) threshold thresholdKey fin total data b 0)
      tree tt h0 = Some (tt, h') ∧
    walk_step h0 fin ds h' out ∧
    ((∀ b acc, b ∈ tree → _groupBy this !! 0 = Some acc →
        never_below thresholdKey h total
          (filter (λ x, matches h acc (key b) x = true) ds)) →
     out = ds))
    as (h' & out & Hrun & Hstep & Hquiet).
  { induction tree as [|b tree IH].
    - exists h0, ds. split; [reflexivity|].
      split; [apply walk_step_refl, Hfin0|auto].
    - destruct IH as (h2 & out2 & Hrun2 & Hstep2 & Hquiet2).
      pose proof Hstep2 as (Hfin2 & Hframe2 & _).
      assert (h2 !! data = Some (CArr ds)) as Hdata2.
      { destruct (Hh0 _ _ Hdata). apply Hframe2; assumption. }
      assert (∀ x, x ∈ ds →
                is_record h2 x ∧ record_of h2 x = record_of h0 x) as Hrec2.
      { intros x Hx. apply (frame_record h0 h2 fin ds); auto.
        apply Hrec0, Hx. }
      assert (Forall (is_record h2) ds) as Hds2.
      { apply Forall_forall. intros x Hx. apply Hrec2, Hx. }
      destruct (thresholdByDepth_walk merge (_aggs this) (_drawDepth this)
                  (_groupBy this) threshold thresholdKey b 0 h2 fin out2
                  data ds total Hlen Hfin2 Hdata2 Hds2)
        as (h3 & out3 & Hrun3 & Hstep3 & Hquiet3).
      exists h3, out3. split; [|split].
      + cbn [while_rev]. rewrite (run_bind _ _ _ _ _ Hrun2). exact Hrun3.
      + apply (walk_step_trans h0 fin ds h2 out2); assumption.
      + intros Hnb.
        assert (∀ x, x ∈ ds → record_of h2 x = record_of h x) as Hag.
        { intros x Hx. destruct (Hrec2 x Hx) as [_ ->]. apply Hrec0, Hx. }
        rewrite Hquiet3, Hquiet2; [reflexivity| |].
        * intros b' acc Hb'. apply Hnb. right. exact Hb'.
        * intros acc Hacc.
          rewrite (matches_filter_agree h2 h acc (key b) ds Hag).
          apply (never_below_agree thresholdKey h).
          -- intros x Hx. apply Hag.
             apply list_elem_of_filter in Hx as [_ Hx]. exact Hx.
          -- apply (Hnb b acc); [left|exact Hacc]. }
  rewrite (run_bind _ _ _ _ _ Hrun).
  exists h', out. split; [reflexivity|]. split; [exact Hstep|exact Hquiet].
Qed.

End method_shape.

(** * Removal by identity *)

Section reached_facts.

Variable array_sum : list obj → accessorT → float.
Variable merge : list obj → aggsT → obj.

Implicit Types (h : heap) (data x : loc) (ds : list loc).
Implicit Types (this : Treemap) (tree : list branch).

(** The whole method on the tree of a nested dataset, branch by branch: a
    record of the [nextDataset] of a leaf-adjacent branch the walk reaches
    is in the output not at all when it is below the threshold value of
    the branch, and as often as in the input otherwise. *)
Lemma thresholdFunction_removes_reached
    this data tree h ds threshold thresholdKey :
  _threshold this = Some threshold →
  _thresholdKey this = Some thresholdKey →
  _drawDepth this ≤ length (_groupBy this) →
  h !! data = Some (CArr ds) → Forall (is_record h) ds →
  distinct_keys tree →
  let totalSum := array_sum (record_of h <$> ds) thresholdKey in
  ∃ out h' final,
    _thresholdFunction array_sum merge this data tree h = Some (out, h') ∧
    out = fresh (dom h) ∧
    h' !! out = Some (CArr final) ∧
    ∀ b currentDataset depth acc,
      reaches (_drawDepth this) (_groupBy this) h tree ds 0
        b currentDataset depth →
      depth + 1 = _drawDepth this → _groupBy this !! depth = Some acc →
      let nextDataset :=
        filter (λ x, matches h acc (key b) x = true) currentDataset in
      let p := threshold (record_of h <$> nextDataset) in
      is_nan p = false →
      ∀ x, x ∈ nextDataset →
        x ∈ ds ∧
        count_occ Nat.eq_dec final x =
        if (thresholdKey (record_of h x) <? clamp p * totalSum)%float
        then 0 else count_occ Nat.eq_dec ds x.
Proof.
  intros Hthr Hkey Hlen Hdata Hds Hdist totalSum.
  destruct (thresholdFunction_removes array_sum merge this data tree h ds
              threshold thresholdKey Hthr Hkey Hlen Hdata Hds Hdist)
    as (out & h' & Hrun & final & Hfinal & Hcount).
  destruct (thresholdFunction_run array_sum merge this data tree h ds
              threshold thresholdKey Hthr Hkey Hlen Hdata Hds)
    as (h2 & out2 & Hrun2 & _).
  assert (out = fresh (dom h)) as Hout by congruence.
  exists out, h', final. split; [exact Hrun|]. split; [exact Hout|].
  split; [exact Hfinal|].
  intros b cs depth acc Hreach Hleaf Hacc items p Hp x Hx.
  assert (x ∈ ds) as Hxds.
  { apply (reaches_elem_of _ _ _ _ _ _ _ _ _ Hreach).
    apply list_elem_of_filter in Hx as [_ Hx]. exact Hx. }
  split; [exact Hxds|].
  rewrite (Hcount x Hxds). fold totalSum.
  rewrite (removed_by_reached (_drawDepth this) (_groupBy this) threshold
             thresholdKey h totalSum tree ds 0 b cs depth Hreach Hdist
             acc x Hacc Hx).
  rewrite (removed_in_leaf (_drawDepth this) (_groupBy this) threshold
             thresholdKey h totalSum cs b depth acc x Hleaf Hacc).
  fold items. fold p. rewrite Hp.
  rewrite (bool_decide_eq_true_2 _ Hx). reflexivity.
Qed.

End reached_facts.

Section identity_facts.

Variable merge : list obj → aggsT → obj.
Variable aggs : aggsT.
Variable drawDepth : nat.
Variable groupBy : list (obj → value).
Variable threshold : list obj → float.
Variable thresholdKey : accessorT.

Implicit Types (h : heap) (fin cur next x y : loc).
Implicit Types (fs cs items : list loc).

(** [thresholdByDepth] on a leaf-adjacent branch whose threshold is a
    number, when [finalDataset] holds every record the branch removes at
    least as often as [nextDataset] does: a reference of the heap has lost, in
    [finalDataset], the occurrences it has among the records below the
    threshold value, and no other. *)
Lemma leaf_branch_counts h fin fs cur cs total b depth acc :
  depth + 1 = drawDepth → groupBy !! depth = Some acc →
  h !! fin = Some (CArr fs) → h !! cur = Some (CArr cs) →
  Forall (is_record h) cs →
  let items := filter (λ x, matches h acc (key b) x = true) cs in
  let p := threshold (record_of h <$> items) in
  let tv := (clamp p * total)%float in
  is_nan p = false →
  (∀ x, x ∈ items → below thresholdKey h tv x = true →
        count_occ Nat.eq_dec items x ≤ count_occ Nat.eq_dec fs x) →
  ∃ h' out,
    thresholdByDepth merge aggs drawDepth groupBy threshold thresholdKey
      fin total cur b depth h = Some (tt, h') ∧
    h' !! fin = Some (CArr out) ∧
    ∀ y, is_Some (h !! y) →
      count_occ Nat.eq_dec out y =
      count_occ Nat.eq_dec fs y -
      count_occ Nat.eq_dec
        (filter (λ x, below thresholdKey h tv x = true) items) y.
Proof.
  intros Hd Hacc Hfin Hcur Hcs items p tv Hp Hcount.
  rewrite (leaf_branch_run merge aggs drawDepth groupBy threshold thresholdKey
             h fin fs cur cs total b depth acc) by assumption.
  cbv zeta. fold items. fold p. fold tv. rewrite Hp.
  set (next := fresh (dom h)). set (h1 := <[next := CArr items]> h).
  assert (fin ≠ next) as Hne by apply (lookup_Some_not_fresh _ _ _ Hfin).
  assert (h1 !! fin = Some (CArr fs)) as Hfin1
    by (unfold h1; rewrite lookup_insert_ne by congruence; exact Hfin).
  pose proof (kept_after_count thresholdKey h tv items fs Hcount) as HK.
  destruct (removed_of thresholdKey h tv items) as [|r0 rs] eqn:Hrem.
  - exists h1, fs. split; [reflexivity|]. split; [exact Hfin1|].
    intros y _. rewrite <- HK.
    rewrite (removed_of_nil_kept thresholdKey _ _ _ _ Hrem). reflexivity.
  - eexists _, _. split; [reflexivity|]. split; [apply lookup_insert_eq|].
    intros y [c Hy]. rewrite count_occ_app, HK. cbn [count_occ].
    destruct (Nat.eq_dec (fresh (dom h1)) y) as [Heq|_]; [|lia].
    exfalso. subst y.
    assert (h1 !! fresh (dom h1) = Some c) as Hc.
    { change (<[next := CArr items]> h !! fresh (dom h1) = Some c).
      rewrite lookup_insert_ne; [exact Hy|].
      intros Heq. unfold next in Heq. rewrite <- Heq in Hy.
      rewrite fresh_not_in_dom in Hy. discriminate. }
    rewrite fresh_not_in_dom in Hc. discriminate.
Qed.

End identity_facts.

(** C7. Removal from the output dataset is by identity, not by value.

    In a run of the method on a nested tree, for every leaf-adjacent
    branch the walk reaches whose threshold result is a number, a record of
    [nextDataset] that is below the threshold value is in the output not at
    all, and a record that is not below it is there as often as in the
    input: every removal found and deleted the reference of its own item.

    In [thresholdByDepth] on a leaf-adjacent branch, with any
    [finalDataset] that holds the records to remove at least as often as
    [nextDataset] does: a record below the threshold value loses the
    occurrences it has in [nextDataset]; a reference of the heap that is
    not in [nextDataset], or not below the threshold value, keeps all its
    occurrences in [finalDataset], whatever its fields are, also a
    distinct record that has the very fields of a removed one and stands
    before it in the array. *)
Theorem removal_is_by_identity
    (array_sum : list obj → accessorT → float)
    (merge : list obj → aggsT → obj) :
  (∀ this data tree h ds threshold thresholdKey,
     _threshold this = Some threshold →
     _thresholdKey this = Some thresholdKey →
     _drawDepth this ≤ length (_groupBy this) →
     h !! data = Some (CArr ds) → Forall (is_record h) ds →
     distinct_keys tree →
     let totalSum := array_sum (record_of h <$> ds) thresholdKey in
     ∃ out h' final,
       _thresholdFunction array_sum merge this data tree h = Some (out, h') ∧
       h' !! out = Some (CArr final) ∧
       ∀ b currentDataset depth acc,
         reaches (_drawDepth this) (_groupBy this) h tree ds 0
           b currentDataset depth →
         depth + 1 = _drawDepth this → _groupBy this !! depth = Some acc →
         let nextDataset :=
           filter (λ x, matches h acc (key b) x = true) currentDataset in
         let p := threshold (record_of h <$> nextDataset) in
         let thresholdValue := (Math_min 1 (Math_max 0 p) * totalSum)%float in
         is_nan p = false →
         ∀ x, x ∈ nextDataset →
           count_occ Nat.eq_dec final x =
           if (thresholdKey (record_of h x) <? thresholdValue)%float
           then 0 else count_occ Nat.eq_dec ds x) ∧
  (∀ aggs drawDepth groupBy threshold thresholdKey
     h fin fs cur cs total b depth acc,
     depth + 1 = drawDepth → groupBy !! depth = Some acc →
     h !! fin = Some (CArr fs) → h !! cur = Some (CArr cs) →
     Forall (is_record h) cs →
     let nextDataset := filter (λ x, matches h acc (key b) x = true) cs in
     let p := threshold (record_of h <$> nextDataset) in
     let thresholdValue := (Math_min 1 (Math_max 0 p) * total)%float in
     let removed x := (thresholdKey (record_of h x) <? thresholdValue)%float in
     is_nan p = false →
     (∀ x, x ∈ nextDataset → removed x = true →
        count_occ Nat.eq_dec nextDataset x ≤ count_occ Nat.eq_dec fs x) →
     ∃ h' out,
       thresholdByDepth merge aggs drawDepth groupBy threshold thresholdKey
         fin total cur b depth h = Some (tt, h') ∧
       h' !! fin = Some (CArr out) ∧
       (∀ x, x ∈ nextDataset → removed x = true →
          count_occ Nat.eq_dec out x =
          count_occ Nat.eq_dec fs x - count_occ Nat.eq_dec nextDataset x) ∧
       (∀ y, is_Some (h !! y) → (y ∉ nextDataset) ∨ removed y = false →
          count_occ Nat.eq_dec out y = count_occ Nat.eq_dec fs y)).
Proof.
  split.
  - intros this data tree h ds threshold thresholdKey
      Hthr Hkey Hlen Hdata Hds Hdist totalSum.
    destruct (thresholdFunction_removes_reached array_sum merge this data
                tree h ds threshold thresholdKey Hthr Hkey Hlen Hdata Hds
                Hdist)
      as (out & h' & final & Hrun & _ & Hfinal & Hall).
    exists out, h', final. split; [exact Hrun|]. split; [exact Hfinal|].
    intros b cs depth acc Hreach Hleaf Hacc items p tv Hp x Hx.
    apply (Hall b cs depth acc Hreach Hleaf Hacc Hp x Hx).
  - intros aggs drawDepth groupBy threshold thresholdKey
      h fin fs cur cs total b depth acc Hd Hacc Hfin Hcur Hcs
      items p tv removed Hp Hcount.
    destruct (leaf_branch_counts merge aggs drawDepth groupBy threshold
                thresholdKey h fin fs cur cs total b depth acc
                Hd Hacc Hfin Hcur Hcs Hp Hcount)
      as (h' & out & Hrun & Hout & Hall).
    exists h', out. split; [exact Hrun|]. split; [exact Hout|]. split.
    + intros x Hx Hb.
      assert (is_Some (h !! x)) as Hsome.
      { apply list_elem_of_filter in Hx as [_ Hx].
        rewrite Forall_forall in Hcs. destruct (Hcs x Hx) as [o Ho]. eauto. }
      rewrite (Hall x Hsome), count_occ_filter.
      rewrite decide_True by exact Hb. reflexivity.
    + intros y Hy Hcase. rewrite (Hall y Hy), count_occ_filter.
      destruct (decide _) as [Hb|Hb]; [|lia].
      destruct Hcase as [Hnin|Hkeep].
      * assert (count_occ Nat.eq_dec items y = 0) as Hzero.
        { apply count_occ_not_In. rewrite <- list_elem_of_In. exact Hnin. }
        fold items. rewrite Hzero. lia.
      * exfalso. assert (removed y = true) as Hremoved by exact Hb.
        rewrite Hkeep in Hremoved. discriminate.
Qed.

Lemma twins_records : Forall (is_record twins_heap) [1; 2].
Proof. repeat constructor; eexists; reflexivity. Qed.

Lemma removal_is_by_identity_witness :
  (∃ out h' final,
     _thresholdFunction d3_sum merge_model scenario_all 0 scenario_tree
       twins_heap = Some (out, h') ∧
     h' !! out = Some (CArr final) ∧
     count_occ Nat.eq_dec final 1 = 0 ∧ count_occ Nat.eq_dec final 2 = 0) ∧
  (∃ h' out,
     thresholdByDepth merge_model ∅ 1 [field "k"] (λ _, 0.5%float)
       (number_field "v") 0 10%float 3 (Branch (VStr "a") []) 0 twins_branch_heap =
       Some (tt, h') ∧
     h' !! 0 = Some (CArr out) ∧
     count_occ Nat.eq_dec out 2 = 0 ∧ count_occ Nat.eq_dec out 1 = 1).
Proof.
  destruct (removal_is_by_identity d3_sum merge_model) as [Hmethod Hbranch].
  split.
  - destruct (Hmethod scenario_all 0 scenario_tree twins_heap [1; 2]
                (λ _, 1%float) (number_field "v"))
      as (out & h' & final & Hrun & Hfinal & Hall).
    + reflexivity.
    + reflexivity.
    + simpl. lia.
    + reflexivity.
    + exact twins_records.
    + exact scenario_tree_distinct.
    + exists out, h', final. split; [exact Hrun|]. split; [exact Hfinal|].
      assert (∀ x, x ∈ [1; 2] → count_occ Nat.eq_dec final x = 0) as Hgone.
      { intros x Hx.
        rewrite (Hall (Branch (VStr "a") []) [1; 2] 0 (field "k")).
        - repeat (apply elem_of_cons in Hx as [->|Hx]; [reflexivity|]).
          apply elem_of_nil in Hx. destruct Hx.
        - apply reaches_here; [|simpl; lia].
          apply list_elem_of_In. simpl. auto.
        - reflexivity.
        - reflexivity.
        - reflexivity.
        - exact Hx. }
      split; apply Hgone; apply list_elem_of_In; simpl; auto.
  - destruct (Hbranch ∅ 1 [field "k"] (λ _, 0.5%float) (number_field "v")
                twins_branch_heap 0 [1; 2] 3 [2] 10%float (Branch (VStr "a") [])
                0 (field "k"))
      as (h' & out & Hrun & Hout & Hremoved & Hkept).
    + reflexivity.
    + reflexivity.
    + reflexivity.
    + reflexivity.
    + repeat constructor; eexists; reflexivity.
    + reflexivity.
    + intros x Hx _. change (x ∈ [2]) in Hx.
      apply list_elem_of_singleton in Hx. subst x. vm_compute. lia.
    + exists h', out. split; [exact Hrun|]. split; [exact Hout|]. split.
      * rewrite (Hremoved 2); [reflexivity| |reflexivity].
        change (2 ∈ [2]). apply list_elem_of_singleton. reflexivity.
      * rewrite (Hkept 1); [reflexivity|eexists; reflexivity|].
        left. change (1 ∉ [2]). intros Hin.
        apply list_elem_of_singleton in Hin. discriminate.
Defined.

(** * More about [_thresholdFunction] *)

Section method_extras.

Variable array_sum : list obj → accessorT → float.
Variable merge : list obj → aggsT → obj.

Implicit Types (h : heap) (data x : loc) (ds : list loc).
Implicit Types (this : Treemap) (tree : list branch).

(** X1. With [drawDepth] at least 1 and no accessor in [groupBy], the
    method throws a [TypeError] on every input that has a record and a
    branch: the filter of the first branch it visits calls
    [groupBy[0]], which is [undefined]. *)
Theorem missing_accessor_throws
    this data tree h x ds threshold thresholdKey :
  _threshold this = Some threshold →
  _thresholdKey this = Some thresholdKey →
  0 < _drawDepth this → _groupBy this = [] →
  h !! data = Some (CArr (x :: ds)) → Forall (is_record h) (x :: ds) →
  tree ≠ [] →
  _thresholdFunction array_sum merge this data tree h = None.
Proof.
  intros Hthr Hkey Hdepth Hgroup Hdata Hds Htree. unfold _thresholdFunction.
  rewrite Hthr, Hkey.
  rewrite (run_bind _ _ _ _ _ (Array_slice_run _ _ _ Hdata)).
  set (fin := fresh (dom h)). set (h0 := <[fin := CArr (x :: ds)]> h).
  assert (∀ l c, h !! l = Some c → h0 !! l = Some c) as Hh0.
  { intros l c Hl. unfold h0. rewrite lookup_insert_ne; [exact Hl|].
    symmetry. apply (lookup_Some_not_fresh _ _ _ Hl). }
  assert (Forall (is_record h0) (x :: ds)) as Hds0.
  { eapply Forall_impl; [exact Hds|]. intros y [o Ho]. exists o.
    apply Hh0, Ho. }
  rewrite (run_bind _ _ _ _ _
             (read_records_run _ _ _ (lookup_insert_eq _ _ _) Hds0)).
  cbv zeta.
  apply run_bind_None.
  induction tree as [|b tree IH]; [congruence|].
  cbn [while_rev]. destruct tree as [|b' tree].
  - cbn [while_rev]. rewrite (run_bind _ _ h0 tt h0) by reflexivity.
    apply (thresholdByDepth_throws merge (_aggs this) (_drawDepth this)
             (_groupBy this) threshold thresholdKey h0 fin _ data x ds b 0).
    + exact Hdepth.
    + rewrite Hgroup. reflexivity.
    + apply Hh0, Hdata.
  - apply run_bind_None. apply IH. discriminate.
Qed.

(** X2. With [drawDepth = 0], or on an empty tree, the method returns a
    plain copy: a new array with the elements of the input in their order,
    and no other change of the heap, whatever [groupBy] and the threshold
    function are. *)
Theorem zero_depth_copies this data tree h ds threshold thresholdKey :
  _threshold this = Some threshold →
  _thresholdKey this = Some thresholdKey →
  _drawDepth this = 0 ∨ tree = [] →
  h !! data = Some (CArr ds) → Forall (is_record h) ds →
  _thresholdFunction array_sum merge this data tree h =
    Some (fresh (dom h), <[fresh (dom h) := CArr ds]> h).
Proof.
  intros Hthr Hkey Hcase Hdata Hds. unfold _thresholdFunction.
  rewrite Hthr, Hkey.
  rewrite (run_bind _ _ _ _ _ (Array_slice_run _ _ _ Hdata)).
  set (fin := fresh (dom h)). set (h0 := <[fin := CArr ds]> h).
  assert (∀ l c, h !! l = Some c → h0 !! l = Some c) as Hh0.
  { intros l c Hl. unfold h0. rewrite lookup_insert_ne; [exact Hl|].
    symmetry. apply (lookup_Some_not_fresh _ _ _ Hl). }
  assert (Forall (is_record h0) ds) as Hds0.
  { eapply Forall_impl; [exact Hds|]. intros y [o Ho]. exists o.
    apply Hh0, Ho. }
  rewrite (run_bind _ _ _ _ _
             (read_records_run _ _ _ (lookup_insert_eq _ _ _) Hds0)).
  cbv zeta.
  rewrite (run_bind _ _ _ tt h0); [reflexivity|].
  destruct Hcase as [Hzero| ->]; [|reflexivity].
  induction tree as [|b tree IH]; [reflexivity|].
  cbn [while_rev]. rewrite (run_bind _ _ _ _ _ IH).
  destruct b as [k leaves]. cbn [thresholdByDepth]. rewrite Hzero.
  reflexivity.
Qed.

(** X3. The shape of the output: the returned array holds records of the
    input, in the order of the input, followed by records the method
    made; each of these is flagged [_isAggregation = true] and carries a
    [_threshold] that is a number from 0 to 1. *)
Theorem output_is_records_then_aggregates
    this data tree h ds threshold thresholdKey :
  _threshold this = Some threshold →
  _thresholdKey this = Some thresholdKey →
  _drawDepth this ≤ length (_groupBy this) →
  h !! data = Some (CArr ds) → Forall (is_record h) ds →
  ∃ out h' kept aggregates,
    _thresholdFunction array_sum merge this data tree h = Some (out, h') ∧
    h' !! out = Some (CArr (kept ++ aggregates)) ∧
    kept `sublist_of` ds ∧
    ∀ m, m ∈ aggregates →
      h !! m = None ∧
      ∃ o t, h' !! m = Some (CObj o) ∧
        o !! "_isAggregation" = Some (VBool true) ∧
        o !! "_threshold" = Some (VNum t) ∧
        (0 <=? t)%float = true ∧ (t <=? 1)%float = true.
Proof.
  intros Hthr Hkey Hlen Hdata Hds.
  destruct (thresholdFunction_walk array_sum merge this data tree h ds
              threshold thresholdKey Hthr Hkey Hlen Hdata Hds)
    as (h' & out & Hrun &
        (Hout & _ & _ & kept & news & -> & Hkept & Hnews) & _).
  exists (fresh (dom h)), h', kept, news.
  split; [exact Hrun|]. split; [exact Hout|]. split; [exact Hkept|].
  intros m Hm. rewrite Forall_forall in Hnews.
  destruct (Hnews m Hm) as [Hnew Hagg]. split; [|exact Hagg].
  destruct (h !! m) as [c|] eqn:Hhm; [|reflexivity].
  rewrite lookup_insert_ne in Hnew; [congruence|].
  symmetry. apply (lookup_Some_not_fresh _ _ _ Hhm).
Qed.

(** X4. Keys are compared with [===], without conversion: when the value
    the first accessor of [groupBy] gives for a record is strictly equal to
    the key of no branch of the tree (a number against the string key of
    the group, say), every [nextDataset] is empty and the method returns a
    copy of the input, nothing removed and nothing added. *)
Theorem unmatched_keys_remove_nothing
    this data tree h ds threshold thresholdKey acc :
  _threshold this = Some threshold →
  _thresholdKey this = Some thresholdKey →
  _drawDepth this ≤ length (_groupBy this) →
  h !! data = Some (CArr ds) → Forall (is_record h) ds →
  _groupBy this !! 0 = Some acc →
  (∀ x b, x ∈ ds → b ∈ tree →
     strict_eq (acc (record_of h x)) (key b) = false) →
  ∃ out h',
    _thresholdFunction array_sum merge this data tree h = Some (out, h') ∧
    h' !! out = Some (CArr ds) ∧
    (∀ l c, h !! l = Some c → h' !! l = Some c).
Proof.
  intros Hthr Hkey Hlen Hdata Hds Hacc Hkeys.
  destruct (thresholdFunction_walk array_sum merge this data tree h ds
              threshold thresholdKey Hthr Hkey Hlen Hdata Hds)
    as (h' & out & Hrun & (Hout & Hframe & _) & Hquiet).
  exists (fresh (dom h)), h'. split; [exact Hrun|]. split.
  - rewrite Hout. f_equal. f_equal. apply Hquiet.
    intros b acc' Hb Hacc'. rewrite Hacc in Hacc'. injection Hacc' as <-.
    intros x p Hx. apply list_elem_of_filter in Hx as [Hm Hx].
    unfold matches in Hm. rewrite (Hkeys x b Hx Hb) in Hm. discriminate.
  - intros l c Hl.
    assert (l ≠ fresh (dom h)) as Hne
      by apply (lookup_Some_not_fresh _ _ _ Hl).
    apply Hframe; [|exact Hne].
    rewrite lookup_insert_ne by congruence. exact Hl.
Qed.

(** X5. When the total weight of the input is [NaN], every threshold
    value is [NaN] and no weight is below it: the method returns a copy of
    the input, nothing removed and nothing added. *)
Theorem nan_total_removes_nothing
    this data tree h ds threshold thresholdKey :
  _threshold this = Some threshold →
  _thresholdKey this = Some thresholdKey →
  _drawDepth this ≤ length (_groupBy this) →
  h !! data = Some (CArr ds) → Forall (is_record h) ds →
  is_nan (array_sum (record_of h <$> ds) thresholdKey) = true →
  ∃ out h',
    _thresholdFunction array_sum merge this data tree h = Some (out, h') ∧
    h' !! out = Some (CArr ds) ∧
    (∀ l c, h !! l = Some c → h' !! l = Some c).
Proof.
  intros Hthr Hkey Hlen Hdata Hds Hnan.
  destruct (thresholdFunction_run array_sum merge this data tree h ds
              threshold thresholdKey Hthr Hkey Hlen Hdata Hds)
    as (h' & out & Hrun & Hout & Hframe & Hquiet).
  exists (fresh (dom h)), h'. split; [exact Hrun|]. split; [|exact Hframe].
  rewrite Hout, Hquiet; [reflexivity|].
  intros x p _ _. unfold below. apply ltb_nan_r, mul_nan_r, Hnan.
Qed.

(** A record a branch removes is below a threshold value. *)
Lemma removed_in_below drawDepth groupBy threshold thresholdKey h total b :
  ∀ cs depth x,
    removed_in drawDepth groupBy threshold thresholdKey h total cs b depth x
    = true →
    ∃ tv, below thresholdKey h tv x = true.
Proof.
  induction b as [k leaves IH] using branch_ind_values.
  intros cs depth x Hrem.
  destruct (decide (drawDepth ≤ depth)) as [Hge|Hlt].
  { rewrite removed_in_deep in Hrem by exact Hge. discriminate. }
  destruct (groupBy !! depth) as [acc|] eqn:Hacc.
  2:{ cbn [removed_in] in Hrem.
      rewrite (proj2 (Nat.leb_gt drawDepth depth)), Hacc in Hrem by lia.
      discriminate. }
  destruct (decide (depth + 1 = drawDepth)) as [Hleaf|Hinner].
  - rewrite (removed_in_leaf _ _ _ _ _ _ _ _ _ acc) in Hrem by assumption.
    apply andb_prop in Hrem as [_ Hb]. eauto.
  - rewrite (removed_in_inner _ _ _ _ _ _ _ _ _ _ acc) in Hrem
      by (assumption || lia).
    apply existsb_exists in Hrem as (leaf & Hleaf & Hrem).
    rewrite Forall_forall in IH.
    apply (IH leaf (proj2 (list_elem_of_In _ _) Hleaf)) in Hrem. exact Hrem.
Qed.

(** X6. A record whose weight is [NaN] (a missing or non-numeric value)
    is never removed: on the tree of a nested dataset it is in the output
    as often as in the input, whatever the thresholds are. *)
Theorem nan_weight_is_kept this data tree h ds threshold thresholdKey x :
  _threshold this = Some threshold →
  _thresholdKey this = Some thresholdKey →
  _drawDepth this ≤ length (_groupBy this) →
  h !! data = Some (CArr ds) → Forall (is_record h) ds →
  distinct_keys tree →
  x ∈ ds → is_nan (thresholdKey (record_of h x)) = true →
  ∃ out h' final,
    _thresholdFunction array_sum merge this data tree h = Some (out, h') ∧
    h' !! out = Some (CArr final) ∧
    count_occ Nat.eq_dec final x = count_occ Nat.eq_dec ds x.
Proof.
  intros Hthr Hkey Hlen Hdata Hds Hdist Hx Hnan.
  destruct (thresholdFunction_removes array_sum merge this data tree h ds
              threshold thresholdKey Hthr Hkey Hlen Hdata Hds Hdist)
    as (out & h' & Hrun & final & Hfinal & Hcount).
  exists out, h', final. split; [exact Hrun|]. split; [exact Hfinal|].
  rewrite (Hcount x Hx).
  destruct (existsb _ tree) eqn:Hex; [|reflexivity].
  apply existsb_exists in Hex as (b & _ & Hrem).
  apply removed_in_below in Hrem as [tv Hb].
  unfold below in Hb. rewrite (ltb_nan_l _ _ Hnan) in Hb. discriminate.
Qed.

(** X7. Thresholding never makes the dataset longer: the returned array
    has at most as many elements as the input (every aggregate takes the
    place of at least one element), and it is empty only when the input
    is.  This holds on every tree, nested or not. *)
Theorem output_is_no_longer this data tree h ds threshold thresholdKey :
  _threshold this = Some threshold →
  _thresholdKey this = Some thresholdKey →
  _drawDepth this ≤ length (_groupBy this) →
  h !! data = Some (CArr ds) → Forall (is_record h) ds →
  ∃ out h' final,
    _thresholdFunction array_sum merge this data tree h = Some (out, h') ∧
    h' !! out = Some (CArr final) ∧
    length final ≤ length ds ∧ (final = [] ↔ ds = []).
Proof.
  intros Hthr Hkey Hlen Hdata Hds.
  destruct (thresholdFunction_walk array_sum merge this data tree h ds
              threshold thresholdKey Hthr Hkey Hlen Hdata Hds)
    as (h' & out & Hrun & (Hout & _ & Hsize & _) & Hquiet).
  exists (fresh (dom h)), h', out. split; [exact Hrun|].
  split; [exact Hout|].
  destruct ds as [|x ds].
  - rewrite Hquiet; [split; [reflexivity|tauto]|].
    intros b acc _ _ y p Hy. rewrite filter_nil in Hy.
    apply elem_of_nil in Hy. destruct Hy.
  - destruct Hsize as [Hne Hle]; [discriminate|]. split; [exact Hle|].
    split; [contradiction|discriminate].
Qed.

(** A part of a list without repetitions is the list filtered by
    membership in the part. *)
Lemma sublist_eq_filter (P : loc → Prop) `{∀ x, Decision (P x)}
    (k l : list loc) :
  k `sublist_of` l → NoDup l → (∀ x, x ∈ l → (x ∈ k ↔ P x)) →
  k = filter P l.
Proof.
  induction 1 as [|x k l Hsub IH|x k l Hsub IH]; intros Hnd HP.
  - reflexivity.
  - apply NoDup_cons in Hnd as [Hx Hnd].
    rewrite filter_cons, decide_True by (apply HP; left).
    f_equal. apply IH; [exact Hnd|]. intros y Hy.
    rewrite <- (HP y) by (right; exact Hy).
    rewrite elem_of_cons. split; [auto|]. intros [->|Hk]; [contradiction|].
    exact Hk.
  - apply NoDup_cons in Hnd as [Hx Hnd].
    rewrite filter_cons, decide_False.
    + apply IH; [exact Hnd|]. intros y Hy. apply HP. right. exact Hy.
    + intros HPx. apply HP in HPx; [|left].
      apply Hx. apply (elem_of_sublist _ _ _ HPx Hsub).
Qed.

(** X8. On the tree of a nested dataset and an input without repeated
    records, the output is exactly the input without the records that a
    leaf-adjacent branch removes, in the order of the input, followed by
    the aggregates the method made. *)
Theorem survivors_keep_their_order
    this data tree h ds threshold thresholdKey :
  _threshold this = Some threshold →
  _thresholdKey this = Some thresholdKey →
  _drawDepth this ≤ length (_groupBy this) →
  h !! data = Some (CArr ds) → Forall (is_record h) ds →
  distinct_keys tree → NoDup ds →
  let totalSum := array_sum (record_of h <$> ds) thresholdKey in
  let removed x :=
    existsb
      (λ b, removed_in (_drawDepth this) (_groupBy this) threshold
              thresholdKey h totalSum ds b 0 x)
      tree in
  ∃ out h' aggregates,
    _thresholdFunction array_sum merge this data tree h = Some (out, h') ∧
    h' !! out =
      Some (CArr (filter (λ x, removed x = false) ds ++ aggregates)) ∧
    ∀ m, m ∈ aggregates → h !! m = None ∧ is_aggregate h' m.
Proof.
  intros Hthr Hkey Hlen Hdata Hds Hdist Hnd totalSum removed.
  destruct (thresholdFunction_walk array_sum merge this data tree h ds
              threshold thresholdKey Hthr Hkey Hlen Hdata Hds)
    as (h' & out & Hrun &
        (Hout & _ & _ & kept & news & -> & Hkept & Hnews) & _).
  destruct (thresholdFunction_removes array_sum merge this data tree h ds
              threshold thresholdKey Hthr Hkey Hlen Hdata Hds Hdist)
    as (out2 & h2 & Hrun2 & final & Hfinal & Hcount).
  rewrite Hrun in Hrun2. injection Hrun2 as <- <-.
  rewrite Hout in Hfinal. injection Hfinal as <-.
  assert (∀ m, m ∈ news → h !! m = None ∧ is_aggregate h' m) as Hnew.
  { intros m Hm. rewrite Forall_forall in Hnews.
    destruct (Hnews m Hm) as [Hm0 Hagg]. split; [|exact Hagg].
    destruct (h !! m) as [c|] eqn:Hhm; [|reflexivity].
    rewrite lookup_insert_ne in Hm0; [congruence|].
    symmetry. apply (lookup_Some_not_fresh _ _ _ Hhm). }
  exists (fresh (dom h)), h', news. split; [exact Hrun|].
  split; [|exact Hnew].
  rewrite Hout. do 3 f_equal.
  apply sublist_eq_filter; [exact Hkept|exact Hnd|].
  intros x Hx.
  assert (x ∉ news) as Hxn.
  { intros Hin. destruct (Hnew x Hin) as [Hnone _].
    rewrite Forall_forall in Hds. destruct (Hds x Hx) as [o Ho]. congruence. }
  assert (0 < count_occ Nat.eq_dec ds x) as Hpos
    by (apply (count_occ_In Nat.eq_dec), list_elem_of_In, Hx).
  specialize (Hcount x Hx). fold totalSum in Hcount. fold (removed x) in Hcount.
  rewrite count_occ_app in Hcount.
  assert (count_occ Nat.eq_dec news x = 0) as Hzero.
  { apply (count_occ_not_In Nat.eq_dec). rewrite <- list_elem_of_In.
    exact Hxn. }
  rewrite list_elem_of_In, (count_occ_In Nat.eq_dec).
  destruct (removed x); split; intros; (lia || congruence).
Qed.

End method_extras.

Lemma missing_accessor_throws_witness :
  _thresholdFunction d3_sum merge_model scenario_no_groupBy 0 scenario_tree
    scenario_heap = None.
Proof.
  apply (missing_accessor_throws d3_sum merge_model scenario_no_groupBy 0
           scenario_tree scenario_heap 1 [2; 3] (λ _, 0.5%float)
           (number_field "v")).
  - reflexivity.
  - reflexivity.
  - simpl. lia.
  - reflexivity.
  - reflexivity.
  - exact scenario_records.
  - discriminate.
Defined.

Lemma zero_depth_copies_witness :
  _thresholdFunction d3_sum merge_model scenario_depth_0 0 scenario_tree
    scenario_heap =
  Some (fresh (dom scenario_heap),
        <[fresh (dom scenario_heap) := CArr [1; 2; 3]]> scenario_heap).
Proof.
  apply (zero_depth_copies d3_sum merge_model scenario_depth_0 0
           scenario_tree scenario_heap [1; 2; 3] (λ _, 0.5%float)
           (number_field "v")).
  - reflexivity.
  - reflexivity.
  - left. reflexivity.
  - reflexivity.
  - exact scenario_records.
Defined.

Lemma output_is_records_then_aggregates_witness :
  ∃ out h' kept aggregates,
    _thresholdFunction d3_sum merge_model
      (scenario_this (Some (λ _, 0.5%float))) 0 scenario_tree scenario_heap =
      Some (out, h') ∧
    h' !! out = Some (CArr (kept ++ aggregates)) ∧
    kept `sublist_of` [1; 2; 3] ∧
    ∀ m, m ∈ aggregates →
      scenario_heap !! m = None ∧
      ∃ o t, h' !! m = Some (CObj o) ∧
        o !! "_isAggregation" = Some (VBool true) ∧
        o !! "_threshold" = Some (VNum t) ∧
        (0 <=? t)%float = true ∧ (t <=? 1)%float = true.
Proof.
  apply (output_is_records_then_aggregates d3_sum merge_model
           (scenario_this (Some (λ _, 0.5%float))) 0 scenario_tree
           scenario_heap [1; 2; 3] (λ _, 0.5%float) (number_field "v")).
  - reflexivity.
  - reflexivity.
  - simpl. lia.
  - reflexivity.
  - exact scenario_records.
Defined.

Lemma unmatched_keys_remove_nothing_witness :
  ∃ out h',
    _thresholdFunction d3_sum merge_model scenario_by_number 0 scenario_tree
      scenario_heap = Some (out, h') ∧
    h' !! out = Some (CArr [1; 2; 3]) ∧
    (∀ l c, scenario_heap !! l = Some c → h' !! l = Some c).
Proof.
  apply (unmatched_keys_remove_nothing d3_sum merge_model scenario_by_number
           0 scenario_tree scenario_heap [1; 2; 3] (λ _, 0.5%float)
           (number_field "v") (field "v")).
  - reflexivity.
  - reflexivity.
  - simpl. lia.
  - reflexivity.
  - exact scenario_records.
  - reflexivity.
  - intros x b Hx Hb.
    repeat (apply elem_of_cons in Hb as [->|Hb]);
      [| |apply elem_of_nil in Hb; destruct Hb];
      repeat (apply elem_of_cons in Hx as [->|Hx]; [reflexivity|]);
      apply elem_of_nil in Hx; destruct Hx.
Defined.

Lemma nan_total_removes_nothing_witness :
  ∃ out h',
    _thresholdFunction d3_sum merge_model
      (scenario_this (Some (λ _, 0.5%float))) 0 scenario_tree nan_heap =
      Some (out, h') ∧
    h' !! out = Some (CArr [1; 2]) ∧
    (∀ l c, nan_heap !! l = Some c → h' !! l = Some c).
Proof.
  apply (nan_total_removes_nothing d3_sum merge_model
           (scenario_this (Some (λ _, 0.5%float))) 0 scenario_tree
           nan_heap [1; 2] (λ _, 0.5%float) (number_field "v")).
  - reflexivity.
  - reflexivity.
  - simpl. lia.
  - reflexivity.
  - repeat constructor; eexists; reflexivity.
  - reflexivity.
Defined.

Lemma nan_weight_is_kept_witness :
  ∃ out h' final,
    _thresholdFunction (λ _ _, 100%float) merge_model
      (scenario_this (Some (λ _, 0.5%float))) 0 scenario_tree nan_heap =
      Some (out, h') ∧
    h' !! out = Some (CArr final) ∧
    count_occ Nat.eq_dec final 1 = count_occ Nat.eq_dec [1; 2] 1.
Proof.
  apply (nan_weight_is_kept (λ _ _, 100%float) merge_model
           (scenario_this (Some (λ _, 0.5%float))) 0 scenario_tree
           nan_heap [1; 2] (λ _, 0.5%float) (number_field "v") 1).
  - reflexivity.
  - reflexivity.
  - simpl. lia.
  - reflexivity.
  - repeat constructor; eexists; reflexivity.
  - exact scenario_tree_distinct.
  - apply list_elem_of_In. simpl. auto.
  - reflexivity.
Defined.

(** * More about one leaf-adjacent branch *)

Section branch_extras.

Variable merge : list obj → aggsT → obj.
Variable aggs : aggsT.
Variable drawDepth : nat.
Variable groupBy : list (obj → value).
Variable threshold : list obj → float.
Variable thresholdKey : accessorT.

Implicit Types (h : heap) (fin cur next x y : loc).
Implicit Types (fs cs items : list loc).

(** X9. When a record below the threshold value is not in
    [finalDataset], [indexOf] answers [-1] and [splice(-1, 1)] deletes the
    last element of [finalDataset], whatever it is; the record is pushed
    to [removedItems] all the same. *)
Theorem absent_item_removes_last h fin fs tv x removedItems :
  h !! fin = Some (CArr fs) → is_record h x →
  (thresholdKey (record_of h x) <? tv)%float = true →
  x ∉ fs →
  remove_below thresholdKey fin tv x removedItems h =
    Some (removedItems ++ [x],
          <[fin := CArr (take (length fs - 1) fs)]> h).
Proof.
  intros Hfin Hx Hb Hnin.
  rewrite (remove_below_run thresholdKey h fin fs tv x removedItems Hfin Hx).
  unfold below. rewrite Hb, (remove_item_not_elem_of _ _ Hnin). reflexivity.
Qed.

(** X10. The aggregate of a leaf-adjacent branch is what [merge] makes,
    with the configuration [aggs], of the records of [nextDataset] below
    the threshold value taken from the last to the first, the order in
    which the loop pushed them to [removedItems]; the two flags are set on
    that record, which becomes the last element of [finalDataset]. *)
Theorem aggregate_merges_removed_in_reverse
    h fin fs cur cs total b depth acc :
  depth + 1 = drawDepth → groupBy !! depth = Some acc →
  h !! fin = Some (CArr fs) → h !! cur = Some (CArr cs) →
  Forall (is_record h) cs →
  let nextDataset := filter (λ x, matches h acc (key b) x = true) cs in
  let p := threshold (record_of h <$> nextDataset) in
  let thresholdPercent := Math_min 1 (Math_max 0 p) in
  let thresholdValue := (thresholdPercent * total)%float in
  let belowItems :=
    filter (λ x, (thresholdKey (record_of h x) <? thresholdValue)%float = true)
      nextDataset in
  is_nan p = false → belowItems ≠ [] →
  ∃ h' out mergedItem,
    thresholdByDepth merge aggs drawDepth groupBy threshold thresholdKey
      fin total cur b depth h = Some (tt, h') ∧
    h' !! fin = Some (CArr out) ∧ last out = Some mergedItem ∧
    h !! mergedItem = None ∧
    h' !! mergedItem =
      Some (CObj (<["_threshold" := VNum thresholdPercent]>
                    (<["_isAggregation" := VBool true]>
                       (merge (record_of h <$> reverse belowItems) aggs)))).
Proof.
  intros Hd Hacc Hfin Hcur Hcs items p tp tv belowItems Hp Hne.
  rewrite (leaf_branch_run merge aggs drawDepth groupBy threshold thresholdKey
             h fin fs cur cs total b depth acc) by assumption.
  fold items. fold p. rewrite Hp. change (clamp p) with tp. fold tv.
  change (removed_of thresholdKey h tv items) with (reverse belowItems).
  set (h1 := <[fresh (dom h) := CArr items]> h).
  set (m := fresh (dom h1)).
  assert (h1 !! m = None) as Hm1 by apply fresh_not_in_dom.
  assert (h !! m = None) as Hm.
  { destruct (h !! m) as [c|] eqn:Hhm; [|reflexivity].
    unfold h1 in Hm1. rewrite lookup_insert_ne in Hm1; [congruence|].
    symmetry. apply (lookup_Some_not_fresh _ _ _ Hhm). }
  assert (fin ≠ m) as Hfm by congruence.
  destruct (reverse belowItems) as [|r0 rs] eqn:Hrev.
  { apply (f_equal reverse) in Hrev. rewrite reverse_involutive in Hrev.
    contradiction. }
  eexists _, _, m. split; [reflexivity|].
  split; [apply lookup_insert_eq|]. split; [apply last_snoc|].
  split; [exact Hm|].
  rewrite lookup_insert_ne by congruence. apply lookup_insert_eq.
Qed.

End branch_extras.

Lemma absent_item_removes_last_witness :
  remove_below (number_field "v") 0 20 1 [] orphan_heap =
    Some ([] ++ [1], <[0 := CArr (take (length [2; 3] - 1) [2; 3])]> orphan_heap).
Proof.
  apply (absent_item_removes_last (number_field "v") orphan_heap 0 [2; 3]
           20 1 []).
  - reflexivity.
  - eexists. reflexivity.
  - reflexivity.
  - intros Hin.
    repeat (apply elem_of_cons in Hin as [Hin|Hin]; [discriminate|]).
    apply elem_of_nil in Hin. destruct Hin.
Defined.

Lemma aggregate_merges_removed_in_reverse_witness :
  ∃ h' out mergedItem,
    thresholdByDepth merge_model ∅ 1 [field "k"] (λ _, 0.5%float)
      (number_field "v") 4 61 0 (Branch (VStr "a") []) 0 scenario_copied =
      Some (tt, h') ∧
    h' !! 4 = Some (CArr out) ∧ last out = Some mergedItem ∧
    scenario_copied !! mergedItem = None ∧
    h' !! mergedItem =
      Some (CObj (<["_threshold" := VNum 0.5]>
                    (<["_isAggregation" := VBool true]>
                       (merge_model
                          (record_of scenario_copied <$> reverse [1; 2])
                          ∅)))).
Proof.
  apply (aggregate_merges_removed_in_reverse merge_model ∅ 1 [field "k"]
           (λ _, 0.5%float) (number_field "v") scenario_copied 4 [1; 2; 3]
           0 [1; 2; 3] 61 (Branch (VStr "a") []) 0 (field "k")).
  - reflexivity.
  - reflexivity.
  - reflexivity.
  - reflexivity.
  - exact scenario_copied_records.
  - reflexivity.
  - discriminate.
Defined.

Lemma output_is_no_longer_witness :
  ∃ out h' final,
    _thresholdFunction d3_sum merge_model
      (scenario_this (Some (λ _, 0.5%float))) 0 scenario_tree scenario_heap =
      Some (out, h') ∧
    h' !! out = Some (CArr final) ∧
    length final ≤ length [1; 2; 3] ∧ (final = [] ↔ [1; 2; 3] = []).
Proof.
  apply (output_is_no_longer d3_sum merge_model
           (scenario_this (Some (λ _, 0.5%float))) 0 scenario_tree
           scenario_heap [1; 2; 3] (λ _, 0.5%float) (number_field "v")).
  - reflexivity.
  - reflexivity.
  - simpl. lia.
  - reflexivity.
  - exact scenario_records.
Defined.

Lemma survivors_keep_their_order_witness :
  ∃ out h' aggregates,
    _thresholdFunction d3_sum merge_model
      (scenario_this (Some (λ _, 0.5%float))) 0 scenario_tree scenario_heap =
      Some (out, h') ∧
    h' !! out =
      Some (CArr
              (filter
                 (λ x,
                    existsb
                      (λ b, removed_in 1 [field "k"] (λ _, 0.5%float)
                              (number_field "v") scenario_heap
                              (d3_sum (record_of scenario_heap <$> [1; 2; 3])
                                 (number_field "v"))
                              [1; 2; 3] b 0 x)
                      scenario_tree = false)
                 [1; 2; 3] ++ aggregates)) ∧
    ∀ m, m ∈ aggregates → scenario_heap !! m = None ∧ is_aggregate h' m.
Proof.
  apply (survivors_keep_their_order d3_sum merge_model
           (scenario_this (Some (λ _, 0.5%float))) 0 scenario_tree
           scenario_heap [1; 2; 3] (λ _, 0.5%float) (number_field "v")).
  - reflexivity.
  - reflexivity.
  - simpl. lia.
  - reflexivity.
  - exact scenario_records.
  - exact scenario_tree_distinct.
  - repeat constructor; intros Hin;
      repeat (apply elem_of_cons in Hin as [Hin|Hin]; [discriminate|]);
      apply elem_of_nil in Hin; destruct Hin.
Defined.

(** * [sum], the constructor and the method together *)

Section accessor_extras.

Variable array_sum : list obj → accessorT → float.
Variable merge : list obj → aggsT → obj.
Variable accessor : value → accessorT.

(** [sum] writes the two weight accessors and no other field. *)
Lemma sum_calls_frame calls this :
  _aggs (sum_calls accessor calls this) = _aggs this ∧
  _drawDepth (sum_calls accessor calls this) = _drawDepth this ∧
  _groupBy (sum_calls accessor calls this) = _groupBy this ∧
  _threshold (sum_calls accessor calls this) = _threshold this.
Proof.
  revert this. induction calls as [|arguments calls IH]; intros this.
  - repeat split.
  - change (sum_calls accessor (arguments :: calls) this)
      with (sum_calls accessor calls (sum accessor arguments this).1).
    destruct (IH (sum accessor arguments this).1) as (-> & -> & -> & ->).
    destruct arguments; repeat split.
Qed.

Lemma sum_calls_thresholdKey calls this :
  _thresholdKey this = Some (_sum this) →
  _thresholdKey (sum_calls accessor calls this) =
  Some (_sum (sum_calls accessor calls this)).
Proof.
  revert this. induction calls as [|arguments calls IH]; intros this Hthis.
  - exact Hthis.
  - change (sum_calls accessor (arguments :: calls) this)
      with (sum_calls accessor calls (sum accessor arguments this).1).
    apply IH.
    destruct arguments as [|a arguments]; [exact Hthis|reflexivity].
Qed.

(** X11. After the constructor and any calls of [sum], the accessor
    [_thresholdKey] is set, and it is the weight accessor [_sum]; the
    calls leave [_aggs], [_drawDepth], [_groupBy] and [_threshold] as they
    were.  So [_threshold] alone decides what [_thresholdFunction] does.
    Without a threshold function the method returns [data] itself.  With
    one it returns a new array, and the weights it compares are those of
    [_sum]: for every leaf-adjacent branch the walk reaches whose
    threshold result is a number, a record of [nextDataset] is in the
    output not at all when its weight by [_sum] is below the clamped
    result times the sum of the weights by [_sum] of the whole dataset,
    and as often as in the input otherwise; when no weight is below any
    threshold value the output has the elements of the input. *)
Theorem threshold_alone_switches calls super data tree h :
  let this := sum_calls accessor calls (constructor accessor super) in
  (_aggs this = _aggs super ∧ _drawDepth this = _drawDepth super ∧
   _groupBy this = _groupBy super ∧ _threshold this = _threshold super) ∧
  _thresholdKey this = Some (_sum this) ∧
  (_threshold super = None →
   _thresholdFunction array_sum merge this data tree h = Some (data, h)) ∧
  (∀ threshold ds,
     _threshold super = Some threshold →
     _drawDepth super ≤ length (_groupBy super) →
     h !! data = Some (CArr ds) → Forall (is_record h) ds →
     distinct_keys tree →
     let totalSum := array_sum (record_of h <$> ds) (_sum this) in
     ∃ out h' final,
       _thresholdFunction array_sum merge this data tree h = Some (out, h') ∧
       out ≠ data ∧
       h' !! out = Some (CArr final) ∧
       (never_below (_sum this) h totalSum ds → final = ds) ∧
       ∀ b currentDataset depth acc,
         reaches (_drawDepth super) (_groupBy super) h tree ds 0
           b currentDataset depth →
         depth + 1 = _drawDepth super → _groupBy super !! depth = Some acc →
         let nextDataset :=
           filter (λ x, matches h acc (key b) x = true) currentDataset in
         let p := threshold (record_of h <$> nextDataset) in
         let thresholdValue := (Math_min 1 (Math_max 0 p) * totalSum)%float in
         is_nan p = false →
         ∀ x, x ∈ nextDataset →
           count_occ Nat.eq_dec final x =
           if (_sum this (record_of h x) <? thresholdValue)%float
           then 0 else count_occ Nat.eq_dec ds x).
Proof.
  intros this.
  destruct (sum_calls_frame calls (constructor accessor super))
    as (Haggs & Hdepth & Hgroup & Hthr).
  fold this in Haggs, Hdepth, Hgroup, Hthr. cbn in Haggs, Hdepth, Hgroup, Hthr.
  assert (_thresholdKey this = Some (_sum this)) as Hkey
    by (apply sum_calls_thresholdKey; reflexivity).
  split; [repeat split; assumption|]. split; [exact Hkey|]. split.
  - intros Hnone. unfold _thresholdFunction. rewrite Hthr, Hnone.
    reflexivity.
  - intros threshold ds Hsome Hlen Hdata Hds Hdist totalSum.
    assert (_threshold this = Some threshold) as Hthis by congruence.
    assert (_drawDepth this ≤ length (_groupBy this)) as Hlen'
      by (rewrite Hdepth, Hgroup; exact Hlen).
    destruct (thresholdFunction_removes_reached array_sum merge this data
                tree h ds threshold (_sum this) Hthis Hkey Hlen' Hdata Hds
                Hdist)
      as (out & h' & final & Hrun & Hout & Hfinal & Hall).
    destruct (thresholdFunction_run array_sum merge this data tree h ds
                threshold (_sum this) Hthis Hkey Hlen' Hdata Hds)
      as (h2 & out2 & Hrun2 & Hout2 & _ & Hquiet).
    exists out, h', final. split; [exact Hrun|]. split.
    { rewrite Hout. symmetry. apply (lookup_Some_not_fresh _ _ _ Hdata). }
    split; [exact Hfinal|]. split.
    { intros Hnb. rewrite <- (Hquiet Hnb).
      assert (h2 = h') as -> by congruence.
      rewrite Hout, Hout2 in Hfinal. congruence. }
    intros b cs depth acc Hreach Hleaf Hacc items p tv Hp x Hx.
    rewrite <- Hdepth, <- Hgroup in Hreach.
    rewrite <- Hdepth in Hleaf. rewrite <- Hgroup in Hacc.
    apply (Hall b cs depth acc Hreach Hleaf Hacc Hp x Hx).
Qed.

End accessor_extras.

(** The constructor's accessor reads the field [value], which the
    records of scenario 1 do not have; one call of [sum] sets the weights
    to the field [v], and the thresholds are those of [v]. *)
Lemma threshold_alone_switches_witness :
  let this :=
    sum_calls (λ _, number_field "value") [[ArgFunction (number_field "v")]]
      (constructor (λ _, number_field "value")
         (scenario_this (Some (λ _, 0.5%float)))) in
  _thresholdKey this = Some (_sum this) ∧
  ∃ out h' final,
    _thresholdFunction d3_sum merge_model this 0 scenario_tree scenario_heap =
      Some (out, h') ∧
    out ≠ 0 ∧ h' !! out = Some (CArr final) ∧
    count_occ Nat.eq_dec final 1 = 0 ∧ count_occ Nat.eq_dec final 2 = 0 ∧
    count_occ Nat.eq_dec final 3 = 1.
Proof.
  intros this.
  destruct (threshold_alone_switches d3_sum merge_model
              (λ _, number_field "value") [[ArgFunction (number_field "v")]]
              (scenario_this (Some (λ _, 0.5%float))) 0 scenario_tree
              scenario_heap)
    as (_ & Hkey & _ & Hsome).
  split; [exact Hkey|].
  destruct (Hsome (λ _, 0.5%float) [1; 2; 3])
    as (out & h' & final & Hrun & Hne & Hfinal & _ & Hall).
  - reflexivity.
  - simpl. lia.
  - reflexivity.
  - exact scenario_records.
  - exact scenario_tree_distinct.
  - exists out, h', final. split; [exact Hrun|]. split; [exact Hne|].
    split; [exact Hfinal|].
    assert (reaches 1 [field "k"] scenario_heap scenario_tree [1; 2; 3] 0
              (Branch (VStr "a") []) [1; 2; 3] 0) as Ha.
    { apply reaches_here; [|simpl; lia].
      apply list_elem_of_In. simpl. auto. }
    assert (reaches 1 [field "k"] scenario_heap scenario_tree [1; 2; 3] 0
              (Branch (VStr "b") []) [1; 2; 3] 0) as Hb.
    { apply reaches_here; [|simpl; lia].
      apply list_elem_of_In. simpl. auto. }
    split; [|split].
    + rewrite (Hall _ _ 0 (field "k") Ha); try reflexivity.
      change (1 ∈ [1; 2]). apply list_elem_of_In. simpl. auto.
    + rewrite (Hall _ _ 0 (field "k") Ha); try reflexivity.
      change (2 ∈ [1; 2]). apply list_elem_of_In. simpl. auto.
    + rewrite (Hall _ _ 0 (field "k") Hb); try reflexivity.
      change (3 ∈ [3]). apply list_elem_of_In. simpl. auto.
Defined.


(** * What the walk reads *)

Section reach_extras.

Variable array_sum : list obj → accessorT → float.
Variable merge : list obj → aggsT → obj.

Lemma bind_ext_r {A B} (m : M A) (k1 k2 : A → M B) h :
  (∀ x h', k1 x h' = k2 x h') → (m ≫= k1) h = (m ≫= k2) h.
Proof.
  intros Hk. unfold mbind, M_bind. destruct (m h) as [[x h']|]; auto.
Qed.

Lemma bind_ext_l {A B} (m1 m2 : M A) (k : A → M B) h :
  m1 h = m2 h → (m1 ≫= k) h = (m2 ≫= k) h.
Proof. intros Hm. unfold mbind, M_bind. rewrite Hm. reflexivity. Qed.

Lemma while_rev_ext {A S} (f g : A → S → M S) xs :
  Forall (λ x, ∀ s h, f x s h = g x s h) xs →
  ∀ s h, while_rev f xs s h = while_rev g xs s h.
Proof.
  induction 1 as [|x xs Hx _ IH]; intros s h; [reflexivity|].
  cbn [while_rev]. unfold mbind, M_bind. rewrite IH.
  destruct (while_rev g xs s h) as [[s' h']|]; [apply Hx|reflexivity].
Qed.

Lemma while_rev_fmap {A B S} (f : B → S → M S) (g : A → B) xs s h :
  while_rev f (g <$> xs) s h = while_rev (λ x, f (g x)) xs s h.
Proof.
  revert s h. induction xs as [|x xs IH]; intros s h; [reflexivity|].
  cbn [while_rev fmap list_fmap]. unfold mbind, M_bind.
  change (list_fmap A B g xs) with (g <$> xs). rewrite IH. reflexivity.
Qed.

(** [thresholdByDepth] reads the accessors above [drawDepth] and the
    branches down to the leaf-adjacent level, and nothing else of
    [groupBy] and of the tree. *)
Lemma thresholdByDepth_reach aggs drawDepth groupBy threshold thresholdKey b :
  ∀ depth fin total cur h,
    thresholdByDepth merge aggs drawDepth (take drawDepth groupBy) threshold
      thresholdKey fin total cur (prune (drawDepth - 1 - depth) b) depth h =
    thresholdByDepth merge aggs drawDepth groupBy threshold thresholdKey
      fin total cur b depth h.
Proof.
  induction b as [k leaves IH] using branch_ind_values.
  intros depth fin total cur h.
  destruct (decide (drawDepth ≤ depth)) as [Hge|Hlt].
  { destruct (drawDepth - 1 - depth); cbn [prune thresholdByDepth];
      rewrite (proj2 (Nat.leb_le drawDepth depth)) by exact Hge;
      reflexivity. }
  destruct (decide (depth + 1 = drawDepth)) as [Hleaf|Hinner].
  { replace (drawDepth - 1 - depth) with 0 by lia.
    cbn [prune thresholdByDepth key].
    rewrite (proj2 (Nat.leb_gt drawDepth depth)) by lia.
    rewrite (proj2 (Nat.eqb_eq (depth + 1) drawDepth)) by exact Hleaf.
    rewrite lookup_take_lt by lia. reflexivity. }
  replace (drawDepth - 1 - depth) with (S (drawDepth - 1 - (depth + 1)))
    by lia.
  cbn [prune thresholdByDepth key].
  rewrite (proj2 (Nat.leb_gt drawDepth depth)) by lia.
  rewrite (proj2 (Nat.eqb_neq (depth + 1) drawDepth)) by exact Hinner.
  rewrite lookup_take_lt by lia. cbv zeta. unfold mbind at 1 3, M_bind at 1 3.
  destruct (Array_filter _ cur h) as [[next h1]|]; [|reflexivity].
  rewrite while_rev_fmap. apply while_rev_ext.
  eapply Forall_impl; [exact IH|]. intros leaf Hleaf s h2. apply Hleaf.
Qed.

(** X12. The method reads the tree down to the leaf-adjacent level and
    the first [drawDepth] accessors of [groupBy] only: cutting the tree
    below that level and dropping the later accessors changes neither what
    it returns nor the heap it leaves, on any input; so the children of a
    leaf-adjacent branch, and an accessor for the level of the records, are
    never looked at. *)
Theorem walk_stops_at_drawDepth this data tree h :
  _thresholdFunction array_sum merge (truncated this) data
    (prune (_drawDepth this - 1) <$> tree) h =
  _thresholdFunction array_sum merge this data tree h.
Proof.
  unfold _thresholdFunction. cbn [truncated _threshold _thresholdKey _aggs
    _drawDepth _groupBy].
  destruct (_threshold this) as [threshold|]; [|reflexivity].
  destruct (_thresholdKey this) as [thresholdKey|]; [|reflexivity].
  apply bind_ext_r. intros fin h0. apply bind_ext_r. intros final h1.
  cbv zeta. apply bind_ext_l. rewrite while_rev_fmap. apply while_rev_ext.
  apply Forall_forall. intros b _ s h2.
  rewrite <- (thresholdByDepth_reach (_aggs this) (_drawDepth this)
                (_groupBy this) threshold thresholdKey b 0 fin
                (array_sum final thresholdKey) data h2).
  replace (_drawDepth this - 1 - 0) with (_drawDepth this - 1) by lia.
  reflexivity.
Qed.

End reach_extras.

(** * The comparator, the layout and the labels *)

Section order_facts.

Local Open Scope float_scope.

Lemma leb_refl x : is_nan x = false → (x <=? x) = true.
Proof.
  rewrite is_nan_spec, FloatAxioms.leb_spec.
  destruct (Prim2SF x) as [s|s| |s m e]; try discriminate; intros _.
  - reflexivity.
  - destruct s; reflexivity.
  - unfold SFleb. rewrite SFcompare_finite_refl. reflexivity.
Qed.

Lemma ltb_leb x y : (x <? y) = true → (x <=? y) = true.
Proof.
  rewrite FloatAxioms.ltb_spec, FloatAxioms.leb_spec. unfold SFltb, SFleb.
  destruct (SFcompare (Prim2SF x) (Prim2SF y)) as [[]|];
    (discriminate || reflexivity).
Qed.

Lemma classify_PZero x : classify x = PZero → Prim2SF x = S754_zero false.
Proof.
  rewrite classify_spec. unfold SF64classify, SFclassify.
  destruct (Prim2SF x) as [s|s| |s m e]; try discriminate.
  - destruct s; [discriminate|reflexivity].
  - destruct s; discriminate.
  - destruct s; destruct (Z.eqb _ _); discriminate.
Qed.

(** [Math.min(a, b)] is at most [a], unless it is [NaN]. *)
Lemma Math_min_le_l a b :
  is_nan (Math_min a b) = false → (Math_min a b <=? a) = true.
Proof.
  unfold Math_min. destruct (is_nan a || is_nan b) eqn:Hn.
  { change (is_nan nan) with true. discriminate. }
  apply orb_false_elim in Hn as [Ha Hb]. intros _.
  destruct (a <? b) eqn:Hab; [apply leb_refl, Ha|].
  destruct (b <? a) eqn:Hba; [apply ltb_leb, Hba|].
  destruct (classify a) eqn:Hc; try (apply leb_refl, Ha).
  apply classify_PZero in Hc. revert Hb Hab Hba.
  rewrite is_nan_spec, !FloatAxioms.ltb_spec, FloatAxioms.leb_spec, Hc.
  destruct (Prim2SF b) as [s|s| |s m e]; try discriminate;
    destruct s; try discriminate; reflexivity.
Qed.

End order_facts.

Section array_index_facts.

Implicit Types (x : loc) (a : list loc).

(** [indexOf] finds the first index of an element that is there. *)
Lemma indexOf_elem_of x a :
  x ∈ a →
  ∃ n, indexOf x a = Z.of_nat n ∧ a !! n = Some x ∧ (x ∉ take n a).
Proof.
  intros Hx. apply list_elem_of_split_l in Hx as (l1 & l2 & -> & Hl1).
  exists (length l1). unfold indexOf.
  rewrite indexOf_from_first by exact Hl1. split; [lia|]. split.
  - apply list_lookup_middle. reflexivity.
  - rewrite take_app_length. exact Hl1.
Qed.

Lemma indexOf_first n x a :
  a !! n = Some x → (x ∉ take n a) → indexOf x a = Z.of_nat n.
Proof.
  intros Hn Hnot. rewrite <- (take_drop_middle a n x Hn). unfold indexOf.
  rewrite indexOf_from_first by exact Hnot.
  rewrite length_take_le; [lia|].
  apply lookup_lt_Some in Hn. lia.
Qed.

Lemma indexOf_found x a : (-1 <? indexOf x a)%Z = bool_decide (x ∈ a).
Proof.
  destruct (decide (x ∈ a)) as [Hx|Hx].
  - rewrite bool_decide_eq_true_2 by exact Hx.
    destruct (indexOf_elem_of x a Hx) as (n & -> & _). apply Z.ltb_lt. lia.
  - rewrite bool_decide_eq_false_2 by exact Hx. unfold indexOf.
    rewrite indexOf_from_notin by exact Hx. reflexivity.
Qed.

End array_index_facts.

(** Induction on a node with the hypothesis for all its children. *)
Lemma Node_ind_children (P : Node.t → Prop) :
  (∀ d data w x0 y0 x1 y1 children,
     match children with Some cs => Forall P cs | None => True end →
     P (Node.mk d data w x0 y0 x1 y1 children)) →
  ∀ n, P n.
Proof.
  intros Hstep. fix IH 1. intros [d data w x0 y0 x1 y1 children].
  apply Hstep. destruct children as [cs|]; [|exact I].
  induction cs as [|c cs IHcs]; constructor; [apply IH|exact IHcs].
Qed.

Section layout_facts.

Variable merge : list obj → aggsT → obj.
Variable drawDepth : nat.
Variable _filteredData : loc.

Implicit Types (h : heap) (fdata : list loc) (n : Node.t).

Lemma get_property_run h e o k :
  h !! e = Some (CObj o) →
  get_property (VRef e) k h = Some (default VUndefined (o !! k), h).
Proof. intros He. unfold get_property. rewrite He. reflexivity. Qed.

Lemma shape_of_frame h0 fdata h h' s :
  (∀ l c, h !! l = Some c → h' !! l = Some c) →
  shape_of merge h0 fdata h s → shape_of merge h0 fdata h' s.
Proof.
  intros Hframe (e & o & vs & Hd & He & Hv & Hf & Hid & Hi & Hnew & Hm & Hxy).
  exists e, o, vs. repeat (split; [assumption|]). split; [|exact Hxy].
  apply Hframe, Hm.
Qed.

(** A group below [drawDepth] becomes one shape. *)
Lemma extractLayout_group_run h0 fdata h shapeData
    d w x0 y0 x1 y1 children e o a vs :
  (∀ l c, h0 !! l = Some c → h !! l = Some c) →
  h0 !! _filteredData = Some (CArr fdata) →
  drawDepth < d →
  h0 !! e = Some (CObj o) → o !! "values" = Some (VRef a) →
  h0 !! a = Some (CArr vs) → Forall (is_record h0) vs →
  ∃ s h',
    extractLayout_node merge drawDepth _filteredData
      (Node.mk d (VRef e) w x0 y0 x1 y1 children) shapeData h =
      Some (shapeData ++ [s], h') ∧
    Shape.node s = Node.mk d (VRef e) w x0 y0 x1 y1 children ∧
    (∀ l c, h !! l = Some c → h' !! l = Some c) ∧
    shape_of merge h0 fdata h' s.
Proof.
  intros Hframe Hfd Hd He Hvalues Ha Hvs. cbn [extractLayout_node].
  rewrite (proj2 (Nat.leb_gt d drawDepth)) by exact Hd.
  rewrite (run_bind _ _ _ _ _ (get_property_run h e o "values"
                                 (Hframe _ _ He))).
  rewrite Hvalues. cbn [default].
  rewrite (run_bind _ _ _ _ _ (read_arr_run _ _ _ (Hframe _ _ Ha))).
  set (index := match vs with
                | [v] => Some (indexOf v fdata)
                | _ => None
                end).
  rewrite (run_bind _ _ _ index h).
  2:{ unfold index. destruct vs as [|v [|v' vs']]; try reflexivity.
      rewrite (run_bind _ _ h (indexOf v fdata) h); [reflexivity|].
      unfold Array_indexOf.
      rewrite (run_bind _ _ _ _ _ (read_arr_run _ _ _ (Hframe _ _ Hfd))).
      reflexivity. }
  rewrite (run_bind _ _ _ _ _ (get_property_run h e o "key" (Hframe _ _ He))).
  cbv zeta.
  assert (Forall (is_record h) vs) as Hvsh.
  { eapply Forall_impl; [exact Hvs|]. intros x [ox Hx]. exists ox.
    apply Hframe, Hx. }
  assert (record_of h <$> vs = record_of h0 <$> vs) as Hrec.
  { apply list_fmap_ext. intros i x Hi.
    assert (x ∈ vs) as Hin by (apply list_elem_of_lookup; eauto).
    rewrite Forall_forall in Hvs. destruct (Hvs x Hin) as [ox Hx].
    rewrite (record_of_lookup _ _ _ Hx).
    apply record_of_lookup, Hframe, Hx. }
  rewrite (run_bind _ _ _ _ _ (mapM_read_obj_run _ _ Hvsh)).
  rewrite (run_bind _ _ _ _ _ (alloc_run _ _)). rewrite Hrec.
  set (m := fresh (dom h)).
  assert (h !! m = None) as Hm by apply fresh_not_in_dom.
  eexists _, _. split; [reflexivity|]. split; [reflexivity|]. split.
  { intros l c Hl. rewrite lookup_insert_ne; [exact Hl|]. congruence. }
  exists e, o, vs. cbn.
  split; [reflexivity|]. split; [exact He|]. split.
  { unfold values_of. cbn. rewrite He, Hvalues, Ha. reflexivity. }
  split; [reflexivity|]. split; [reflexivity|]. split.
  { unfold index. destruct vs as [|v [|v' vs']]; try reflexivity.
    rewrite indexOf_found. reflexivity. }
  split.
  { destruct (h0 !! m) as [c|] eqn:Hm0; [|reflexivity].
    rewrite (Hframe _ _ Hm0) in Hm. discriminate. }
  split; [apply lookup_insert_eq|]. split; reflexivity.
Qed.

(** [extractLayout] on the hierarchy of a nested dataset. *)
Lemma extractLayout_node_run h0 fdata n :
  ∀ d h shapeData,
    nested h0 drawDepth d n → d ≤ drawDepth + 1 →
    (∀ l c, h0 !! l = Some c → h !! l = Some c) →
    h0 !! _filteredData = Some (CArr fdata) →
    ∃ new h',
      extractLayout_node merge drawDepth _filteredData n shapeData h =
        Some (shapeData ++ new, h') ∧
      Shape.node <$> new = nodes_below (drawDepth + 1 - d) n ∧
      (∀ l c, h !! l = Some c → h' !! l = Some c) ∧
      Forall (shape_of merge h0 fdata h') new.
Proof.
  induction n as [d0 data w x0 y0 x1 y1 children IH] using Node_ind_children.
  intros d h shapeData Hnested Hd Hframe Hfd.
  inversion Hnested as [d' data' w' x0' y0' x1' y1' cs Hle Hcs
                       |d' w' x0' y0' x1' y1' children' e o a vs
                          Hlt He Hvalues Ha Hvs]; subst.
  - (* down to [drawDepth]: the children, from the first to the last *)
    cbn [extractLayout_node].
    rewrite (proj2 (Nat.leb_le d0 drawDepth)) by exact Hle.
    replace (drawDepth + 1 - d0) with (S (drawDepth - d0)) by lia.
    cbn [nodes_below Node.children].
    assert (∀ h shapeData,
              (∀ l c, h0 !! l = Some c → h !! l = Some c) →
              ∃ new h',
                for_loop (extractLayout_node merge drawDepth _filteredData)
                  cs shapeData h = Some (shapeData ++ new, h') ∧
                Shape.node <$> new =
                  flat_map (nodes_below (drawDepth - d0)) cs ∧
                (∀ l c, h !! l = Some c → h' !! l = Some c) ∧
                Forall (shape_of merge h0 fdata h') new) as Hloop.
    { clear h shapeData Hframe Hnested.
      induction Hcs as [|c cs Hc _ IHcs]; intros h shapeData Hframe.
      - exists [], h. rewrite app_nil_r. split; [reflexivity|].
        split; [reflexivity|]. split; [auto|constructor].
      - apply Forall_cons in IH as [IHc IH].
        destruct (IHc (S d0) h shapeData Hc ltac:(lia) Hframe Hfd)
          as (new1 & h1 & Hrun1 & Hnodes1 & Hframe1 & Hshapes1).
        destruct (IHcs IH h1 (shapeData ++ new1)) as
          (new2 & h2 & Hrun2 & Hnodes2 & Hframe2 & Hshapes2); [auto|].
        exists (new1 ++ new2), h2. split; [|split; [|split]].
        + cbn [for_loop]. rewrite (run_bind _ _ _ _ _ Hrun1).
          rewrite Hrun2, app_assoc. reflexivity.
        + rewrite fmap_app, Hnodes1, Hnodes2. cbn [flat_map].
          replace (drawDepth + 1 - S d0) with (drawDepth - d0) by lia.
          reflexivity.
        + auto.
        + apply Forall_app. split; [|exact Hshapes2].
          eapply Forall_impl; [exact Hshapes1|]. intros s.
          apply shape_of_frame, Hframe2. }
    apply Hloop, Hframe.
  - (* below [drawDepth]: the node is pushed *)
    replace (drawDepth + 1 - d0) with 0 by lia. cbn [nodes_below].
    destruct (extractLayout_group_run h0 fdata h shapeData d0 w x0 y0 x1 y1
                children e o a vs Hframe Hfd Hlt He Hvalues Ha Hvs)
      as (s & h' & Hrun & Hnode & Hframe' & Hshape).
    exists [s], h'. split; [exact Hrun|]. split.
    + cbn. rewrite Hnode. reflexivity.
    + split; [exact Hframe'|]. constructor; [exact Hshape|constructor].
Qed.

Lemma extractLayout_run h fdata children d :
  Forall (nested h drawDepth d) children → d ≤ drawDepth + 1 →
  h !! _filteredData = Some (CArr fdata) →
  ∃ shapeData h',
    extractLayout merge drawDepth _filteredData children [] h =
      Some (shapeData, h') ∧
    Shape.node <$> shapeData =
      flat_map (nodes_below (drawDepth + 1 - d)) children ∧
    (∀ l c, h !! l = Some c → h' !! l = Some c) ∧
    Forall (shape_of merge h fdata h') shapeData.
Proof.
  intros Hnested Hd Hfd. unfold extractLayout.
  assert (∀ h1 shapeData,
            (∀ l c, h !! l = Some c → h1 !! l = Some c) →
            ∃ new h',
              for_loop (extractLayout_node merge drawDepth _filteredData)
                children shapeData h1 = Some (shapeData ++ new, h') ∧
              Shape.node <$> new =
                flat_map (nodes_below (drawDepth + 1 - d)) children ∧
              (∀ l c, h1 !! l = Some c → h' !! l = Some c) ∧
              Forall (shape_of merge h fdata h') new) as Hloop.
  { induction Hnested as [|c cs Hc _ IHcs]; intros h1 shapeData Hframe.
    - exists [], h1. rewrite app_nil_r. split; [reflexivity|].
      split; [reflexivity|]. split; [auto|constructor].
    - destruct (extractLayout_node_run h fdata c d h1 shapeData Hc Hd
                  Hframe Hfd)
        as (new1 & h2 & Hrun1 & Hnodes1 & Hframe1 & Hshapes1).
      destruct (IHcs h2 (shapeData ++ new1)) as
        (new2 & h3 & Hrun2 & Hnodes2 & Hframe2 & Hshapes2); [auto|].
      exists (new1 ++ new2), h3. split; [|split; [|split]].
      + cbn [for_loop]. rewrite (run_bind _ _ _ _ _ Hrun1).
        rewrite Hrun2, app_assoc. reflexivity.
      + rewrite fmap_app, Hnodes1, Hnodes2. reflexivity.
      + auto.
      + apply Forall_app. split; [|exact Hshapes2].
        eapply Forall_impl; [exact Hshapes1|]. intros s.
        apply shape_of_frame, Hframe2. }
  destruct (Hloop h [] ltac:(auto)) as (new & h' & Hrun & Hrest).
  exists new, h'. split; [exact Hrun|exact Hrest].
Qed.

End layout_facts.

(** * The comparator [_sort] *)

(** X13. A node whose only child holds a record flagged
    [_isAggregation = true], as the records [_thresholdFunction] makes are,
    is ordered after every node that [isAggregated] does not accept,
    whatever the values of the two nodes: the comparator answers [1] one
    way round and [-1] the other. *)
Theorem aggregate_sorts_last h a b c m o vb :
  Node.children a = Some [c] → Node.data c = VRef m →
  h !! m = Some (CObj o) → o !! "_isAggregation" = Some (VBool true) →
  isAggregated b h = Some (vb, h) → truthy vb = false →
  _sort a b h = Some (1%float, h) ∧ _sort b a h = Some ((-1)%float, h).
Proof.
  intros Hchildren Hdata Hm Hflag Hb Hvb.
  assert (isAggregated a h = Some (VBool true, h)) as Ha.
  { unfold isAggregated. rewrite Hchildren, Hdata.
    rewrite (get_property_run h m o "_isAggregation" Hm), Hflag.
    reflexivity. }
  unfold _sort. split.
  - rewrite (run_bind _ _ _ _ _ Ha), (run_bind _ _ _ _ _ Hb).
    cbn [truthy]. rewrite Hvb. reflexivity.
  - rewrite (run_bind _ _ _ _ _ Hb), (run_bind _ _ _ _ _ Ha).
    cbn [truthy]. rewrite Hvb. reflexivity.
Qed.

Lemma aggregate_sorts_last_witness :
  _sort (group_node 10 11 [leaf_node 7 11])
        (group_node 12 50 [leaf_node 3 50]) sorted_heap =
    Some (1%float, sorted_heap) ∧
  _sort (group_node 12 50 [leaf_node 3 50])
        (group_node 10 11 [leaf_node 7 11]) sorted_heap =
    Some ((-1)%float, sorted_heap).
Proof.
  apply (aggregate_sorts_last sorted_heap
           (group_node 10 11 [leaf_node 7 11])
           (group_node 12 50 [leaf_node 3 50])
           (leaf_node 7 11) 7 (stamp 0.5 ∅) VUndefined).
  - reflexivity.
  - reflexivity.
  - reflexivity.
  - reflexivity.
  - reflexivity.
  - reflexivity.
Defined.

(** * [extractLayout] *)

Section layout_extras.

Variable merge : list obj → aggsT → obj.
Variable drawDepth : nat.
Variable _filteredData : loc.

(** X14. On the hierarchy of a nested dataset, [_draw] computes
    [shapeData] without a [TypeError]: [extractLayout] pushes the nodes at
    depth [drawDepth + 1], from left to right, and no other node.  Every
    node it pushes it has written first: [__d3plus__] is [true]; [id] is
    the [key] of the nest entry that was the [data] of the node; [data] is
    overwritten with a record that was not there before, what [merge]
    makes of the [values] of that entry with no configuration; [x] and [y]
    are the middle of the rectangle of the node. *)
Theorem extractLayout_pushes_the_groups h fdata tmapData children :
  Node.children tmapData = Some children →
  Forall (nested h drawDepth 1) children →
  h !! _filteredData = Some (CArr fdata) →
  ∃ shapeData h',
    _draw_shapeData merge drawDepth _filteredData tmapData h =
      Some (shapeData, h') ∧
    Shape.node <$> shapeData = flat_map (nodes_below drawDepth) children ∧
    ∀ s, s ∈ shapeData →
      ∃ e o vs,
        Node.data (Shape.node s) = VRef e ∧ h !! e = Some (CObj o) ∧
        values_of h (Shape.node s) = Some vs ∧
        Shape.__d3plus__ s = true ∧
        Shape.id s = default VUndefined (o !! "key") ∧
        h !! Shape.data s = None ∧
        h' !! Shape.data s = Some (CObj (merge (record_of h <$> vs) ∅)) ∧
        Shape.x s =
          (Node.x0 (Shape.node s)
           + (Node.x1 (Shape.node s) - Node.x0 (Shape.node s)) / 2)%float ∧
        Shape.y s =
          (Node.y0 (Shape.node s)
           + (Node.y1 (Shape.node s) - Node.y0 (Shape.node s)) / 2)%float.
Proof.
  intros Hchildren Hnested Hfd. unfold _draw_shapeData. rewrite Hchildren.
  destruct (extractLayout_run merge drawDepth _filteredData h fdata children
              1 Hnested ltac:(lia) Hfd)
    as (shapeData & h' & Hrun & Hnodes & _ & Hshapes).
  replace (drawDepth + 1 - 1) with drawDepth in Hnodes by lia.
  exists shapeData, h'. split; [exact Hrun|]. split; [exact Hnodes|].
  intros s Hs. rewrite Forall_forall in Hshapes.
  destruct (Hshapes s Hs)
    as (e & o & vs & He & Ho & Hvs & Hd3 & Hid & _ & Hnew & Hdata & Hx & Hy).
  exists e, o, vs. repeat (split; [assumption|]). assumption.
Qed.

(** X15. The index [i] of a shape: it is a number exactly when the node
    has one value and that value is in [_filteredData], and it is then the
    first index at which [_filteredData] holds the value; for a node of
    several values, or of a value that is not in [_filteredData], [i] is
    [undefined]. *)
Theorem shape_index_is_position h fdata children d :
  Forall (nested h drawDepth d) children → d ≤ drawDepth + 1 →
  h !! _filteredData = Some (CArr fdata) →
  ∃ shapeData h',
    extractLayout merge drawDepth _filteredData children [] h =
      Some (shapeData, h') ∧
    ∀ s k, s ∈ shapeData →
      (Shape.i s = Some k ↔
       ∃ v, values_of h (Shape.node s) = Some [v] ∧ (0 ≤ k)%Z ∧
            fdata !! Z.to_nat k = Some v ∧ (v ∉ take (Z.to_nat k) fdata)).
Proof.
  intros Hnested Hd Hfd.
  destruct (extractLayout_run merge drawDepth _filteredData h fdata children
              d Hnested Hd Hfd)
    as (shapeData & h' & Hrun & _ & _ & Hshapes).
  exists shapeData, h'. split; [exact Hrun|].
  intros s k Hs. rewrite Forall_forall in Hshapes.
  destruct (Hshapes s Hs) as (e & o & vs & _ & _ & Hvs & _ & _ & Hi & _).
  rewrite Hi, Hvs. split.
  - destruct vs as [|v [|v' vs']]; try discriminate.
    destruct (bool_decide (v ∈ fdata)) eqn:Hin; [|discriminate].
    apply bool_decide_eq_true in Hin. intros [= <-].
    destruct (indexOf_elem_of v fdata Hin) as (n & Hn & Hlook & Hfirst).
    exists v. rewrite Hn, Nat2Z.id.
    split; [reflexivity|]. split; [lia|]. split; assumption.
  - intros (v & [= ->] & Hk & Hlook & Hfirst).
    rewrite bool_decide_eq_true_2
      by (apply list_elem_of_lookup; eauto).
    rewrite (indexOf_first _ _ _ Hlook Hfirst). f_equal. lia.
Qed.

Lemma for_loop_throws {A S} (body : A → S → M S) xs :
  Exists (λ x, ∀ s h, body x s h = None) xs →
  ∀ s h, for_loop body xs s h = None.
Proof.
  induction 1 as [x xs Hx|x xs _ IH]; intros s h; cbn [for_loop].
  - apply run_bind_None, Hx.
  - unfold mbind, M_bind. destruct (body x s h) as [[s' h']|]; [|reflexivity].
    apply IH.
Qed.

Lemma shallow_leaf_throws n :
  shallow_leaf drawDepth n →
  ∀ shapeData h,
    extractLayout_node merge drawDepth _filteredData n shapeData h = None.
Proof.
  induction n as [d data w x0 y0 x1 y1 children IH] using Node_ind_children.
  intros Hshallow shapeData h.
  inversion Hshallow as [d' data' w' x0' y0' x1' y1' Hle
                        |d' data' w' x0' y0' x1' y1' cs Hle Hcs]; subst;
    cbn [extractLayout_node];
    rewrite (proj2 (Nat.leb_le _ drawDepth)) by exact Hle; [reflexivity|].
  apply for_loop_throws. rewrite Exists_exists in Hcs.
  destruct Hcs as (c & Hc & Hshallow_c). apply Exists_exists.
  exists c. split; [exact Hc|]. rewrite Forall_forall in IH.
  apply (IH c Hc), Hshallow_c.
Qed.

(** X16. A hierarchy that ends above the level the shapes are taken from
    makes [extractLayout] throw a [TypeError]: when a node down to
    [drawDepth] that the walk visits has no children, the recursive call
    reads [children.length] of [undefined], whatever the other nodes
    are. *)
Theorem shallow_hierarchy_throws children shapeData h :
  Exists (shallow_leaf drawDepth) children →
  extractLayout merge drawDepth _filteredData children shapeData h = None.
Proof.
  intros Hshallow. unfold extractLayout. apply for_loop_throws.
  eapply Exists_impl; [exact Hshallow|]. intros n Hn.
  apply shallow_leaf_throws, Hn.
Qed.

End layout_extras.

Lemma layout_children_nested : Forall (nested layout_heap 0 1) layout_children.
Proof.
  constructor; [|constructor; [|constructor]].
  - apply (nested_group layout_heap 0 1 50 0 0 4 2 _ 12
             (<["key" := VStr "b"]> {["values" := VRef 13]}) 13 [3]);
      [lia|reflexivity|reflexivity|reflexivity|].
    repeat constructor; eexists; reflexivity.
  - apply (nested_group layout_heap 0 1 11 0 0 4 2 _ 10
             (<["key" := VStr "a"]> {["values" := VRef 11]}) 11 [1; 2]);
      [lia|reflexivity|reflexivity|reflexivity|].
    repeat constructor; eexists; reflexivity.
Qed.

(** The two groups of scenario 1, drawn at depth 0: the shapes of the
    groups "b" and "a", with these keys as [id], in the middle of their
    rectangles. *)
Lemma extractLayout_pushes_the_groups_witness :
  ∃ shapeData h',
    _draw_shapeData merge_model 0 0 layout_root layout_heap =
      Some (shapeData, h') ∧
    Shape.node <$> shapeData = layout_children ∧
    Shape.id <$> shapeData = [VStr "b"; VStr "a"] ∧
    Forall (λ s, Shape.__d3plus__ s = true ∧
                 layout_heap !! Shape.data s = None ∧
                 is_Some (h' !! Shape.data s)) shapeData.
Proof.
  destruct (extractLayout_pushes_the_groups merge_model 0 0 layout_heap
              [1; 2; 3] layout_root layout_children)
    as (shapeData & h' & Hrun & Hnodes & Hshapes).
  - reflexivity.
  - exact layout_children_nested.
  - reflexivity.
  - exists shapeData, h'. split; [exact Hrun|]. split; [exact Hnodes|].
    destruct shapeData as [|s1 [|s2 [|s3 rest]]]; try discriminate Hnodes.
    injection Hnodes as Hn1 Hn2. split.
    + destruct (Hshapes s1) as (e1 & o1 & _ & He1 & Ho1 & _ & _ & Hid1 & _);
        [apply list_elem_of_In; simpl; auto|].
      destruct (Hshapes s2) as (e2 & o2 & _ & He2 & Ho2 & _ & _ & Hid2 & _);
        [apply list_elem_of_In; simpl; auto|].
      rewrite Hn1 in He1. rewrite Hn2 in He2.
      injection He1 as <-. injection He2 as <-.
      injection Ho1 as <-. injection Ho2 as <-.
      cbn [fmap list_fmap]. rewrite Hid1, Hid2. reflexivity.
    + rewrite Forall_forall. intros s Hs.
      destruct (Hshapes s Hs)
        as (_ & _ & vs & _ & _ & _ & Hd3 & _ & Hnew & Hdata & _).
      split; [exact Hd3|]. split; [exact Hnew|]. eauto.
Defined.

Lemma shallow_hierarchy_throws_witness :
  extractLayout merge_model 1 0 shallow_children [] layout_heap = None.
Proof.
  apply (shallow_hierarchy_throws merge_model 1 0 shallow_children []
           layout_heap).
  apply Exists_cons_tl, Exists_cons_hd. apply shallow_leaf_here. lia.
Defined.

Lemma shape_index_is_position_witness :
  ∃ shapeData h',
    extractLayout merge_model 0 0 layout_children [] layout_heap =
      Some (shapeData, h') ∧
    ∀ s k, s ∈ shapeData →
      (Shape.i s = Some k ↔
       ∃ v, values_of layout_heap (Shape.node s) = Some [v] ∧ (0 ≤ k)%Z ∧
            [1; 2; 3] !! Z.to_nat k = Some v ∧
            (v ∉ take (Z.to_nat k) [1; 2; 3])).
Proof.
  apply (shape_index_is_position merge_model 0 0 layout_heap
           [1; 2; 3] layout_children 1).
  - exact layout_children_nested.
  - lia.
  - reflexivity.
Defined.

(** * The label callbacks *)

(** X17. The height [labelBounds] keeps for the share label: the first
    box gets [h - sh] and the second [sh + padding * 2], where [sh] is 0, or
    [NaN], or a number that is not below [fontMin] and is at most 50. *)
Theorem labelBounds_share_height fontMin padding s_width s_height :
  ∃ sh,
    labelBounds fontMin padding s_width s_height =
      [ {| Bounds.width := s_width; Bounds.height := (s_height - sh)%float;
           Bounds.x := ((- s_width) / 2)%float;
           Bounds.y := ((- s_height) / 2)%float |};
        {| Bounds.width := s_width;
           Bounds.height := (sh + padding * 2)%float;
           Bounds.x := ((- s_width) / 2)%float;
           Bounds.y := (s_height / 2 - sh - padding * 2)%float |} ] ∧
    (sh = 0%float ∨ is_nan sh = true ∨
     ((sh <? fontMin)%float = false ∧ (sh <=? 50)%float = true)).
Proof.
  unfold labelBounds. cbv zeta.
  set (sh := Math_min 50 ((s_height - padding * 2) * 0.5)%float).
  destruct (sh <? fontMin)%float eqn:Hlt.
  - exists 0%float. split; [reflexivity|]. left. reflexivity.
  - exists sh. split; [reflexivity|]. right.
    destruct (is_nan sh) eqn:Hnan; [left; reflexivity|]. right.
    split; [exact Hlt|]. apply Math_min_le_l, Hnan.
Qed.

Section line_facts.

Lemma line_loop_defined line parent :
  is_undefined line = false → line_loop line parent = line.
Proof. intros Hl. destruct parent; cbn [line_loop]; rewrite ?Hl; reflexivity. Qed.

Lemma line_loop_nearest skipped l rest :
  Forall (λ v, v = VUndefined) skipped → is_undefined l = false →
  line_loop VUndefined (skipped ++ l :: rest) = l.
Proof.
  intros Hskipped Hl. induction Hskipped as [|v skipped -> _ IH].
  - cbn. rewrite Hl. cbn. apply line_loop_defined, Hl.
  - cbn. exact IH.
Qed.

Lemma line_loop_none x :
  Forall (λ v, v = VUndefined) x → line_loop VUndefined x = VUndefined.
Proof. induction 1 as [|v x -> _ IH]; [reflexivity|exact IH]. Qed.

End line_facts.

(** X18. [textAnchor] and [verticalAlign] go together, "middle" with
    "bottom" and "start" with "top", and both are decided by the nearest
    object of the chain from [x] through [__d3plusParent__] whose [l] is
    not [undefined]: a truthy [l] gives "middle" and "bottom"; an [l] that
    is defined and falsy gives "start" and "top", whatever the objects
    further up hold; so does a chain on which no [l] is defined. *)
Theorem label_alignment_follows_nearest_line :
  (∀ x, textAnchor x = "middle" ↔ verticalAlign x = "bottom") ∧
  (∀ x, textAnchor x = "start" ↔ verticalAlign x = "top") ∧
  (∀ skipped l rest,
     Forall (λ v, v = VUndefined) skipped → l ≠ VUndefined →
     textAnchor (skipped ++ l :: rest) =
       (if truthy l then "middle" else "start") ∧
     verticalAlign (skipped ++ l :: rest) =
       (if truthy l then "bottom" else "top")) ∧
  (∀ x, Forall (λ v, v = VUndefined) x →
     textAnchor x = "start" ∧ verticalAlign x = "top").
Proof.
  split; [|split; [|split]].
  - intros x. unfold textAnchor, verticalAlign.
    destruct (truthy (line_loop VUndefined x)); split;
      (reflexivity || discriminate).
  - intros x. unfold textAnchor, verticalAlign.
    destruct (truthy (line_loop VUndefined x)); split;
      (reflexivity || discriminate).
  - intros skipped l rest Hskipped Hl. unfold textAnchor, verticalAlign.
    rewrite (line_loop_nearest skipped l rest Hskipped)
      by (destruct l; (reflexivity || contradiction)).
    split; reflexivity.
  - intros x Hx. unfold textAnchor, verticalAlign.
    rewrite (line_loop_none x Hx). split; reflexivity.
Qed.

(** * The label [ariaLabel] *)

Section ariaLabel_extras.

Variable _drawLabel : obj → option Z → string.
Variable index_to_string : Z → string.
Variable number_to_string : float → string.

(** X19. The rank [ariaLabel] puts in front of the label is the position,
    counted from 1, of the first occurrence of the datum in [_rankData];
    for a datum that is not in [_rankData] the rank is 0. *)
Theorem ariaLabel_rank this r rankData d i h o :
  h !! r = Some (CArr rankData) → h !! d = Some (CObj o) →
  ∃ rank : Z,
    ariaLabel _drawLabel index_to_string number_to_string this (Some r) d i h
    = Some ((index_to_string rank +:+ ". ") +:+ _drawLabel o i +:+ ", "
            +:+ number_to_string (_sum this o) +:+ ".", h) ∧
    (d ∉ rankData → rank = 0%Z) ∧
    (d ∈ rankData →
       (1 ≤ rank ≤ Z.of_nat (length rankData))%Z ∧
       rankData !! Z.to_nat (rank - 1) = Some d ∧
       (d ∉ take (Z.to_nat (rank - 1)) rankData)).
Proof.
  intros Hr Hd. exists (indexOf d rankData + 1)%Z. split; [|split].
  - unfold ariaLabel.
    rewrite (run_bind _ _ h
               (index_to_string (indexOf d rankData + 1) +:+ ". ") h).
    2:{ rewrite (run_bind _ _ h (indexOf d rankData) h); [reflexivity|].
        unfold Array_indexOf.
        rewrite (run_bind _ _ _ _ _ (read_arr_run _ _ _ Hr)). reflexivity. }
    rewrite (run_bind _ _ _ _ _ (read_obj_run _ _ _ Hd)). reflexivity.
  - intros Hnot. unfold indexOf. rewrite indexOf_from_notin by exact Hnot.
    reflexivity.
  - intros Hin.
    destruct (indexOf_elem_of d rankData Hin) as (n & -> & Hlook & Hfirst).
    replace (Z.to_nat (Z.of_nat n + 1 - 1)) with n by lia.
    apply lookup_lt_Some in Hlook as Hlt.
    split; [lia|]. split; assumption.
Qed.

End ariaLabel_extras.

Lemma ariaLabel_rank_witness :
  ∃ rank : Z,
    ariaLabel (λ _ _, "label") (λ _, "n") (λ _, "w")
      (scenario_this None) (Some 0) 2 None scenario_heap
    = Some (("n" +:+ ". ") +:+ "label" +:+ ", " +:+ "w" +:+ ".",
            scenario_heap) ∧
    (2 ∉ [1; 2; 3] → rank = 0%Z) ∧
    (2 ∈ [1; 2; 3] →
       (1 ≤ rank ≤ Z.of_nat (length [1; 2; 3]))%Z ∧
       [1; 2; 3] !! Z.to_nat (rank - 1) = Some 2 ∧
       (2 ∉ take (Z.to_nat (rank - 1)) [1; 2; 3])).
Proof.
  apply (ariaLabel_rank (λ _ _, "label") (λ _, "n") (λ _, "w")
           (scenario_this None) 0 [1; 2; 3] 2 None scenario_heap
           (record_kv "a" 1)).
  - reflexivity.
  - reflexivity.
Defined.
